(** * MH raster <-> SM triangle mesh exchange

    A shallow embedding of the mapping and aggregation engine of the plugin
    ([src/mapping.py], [src/io_mh_sm_exchange.py]) and the properties of its
    specification.

    Conventions of the embedding:
    - Python [int] is [Z]; Python [float] and numpy [float64] are IEEE
      binary64, that is Rocq's primitive [float];
    - a Python exception is a value [Leve e] of the type [resultat];
    - a [dict] is an association list in insertion order, the order in which
      Python iterates over it;
    - a 1D numpy array is a list, a 2D array the list of its rows;
    - a text file is the list of its lines;
    - the arithmetic of the aggregators is written once over the interface
      [Flottant] and run at binary64 ([Flottant_binary64], what the program
      does) or over exact rationals ([Flottant_exact], what the formulas mean
      without rounding). *)

From Stdlib Require Import String Ascii NArith ZArith QArith Qcanon Qround.
From Stdlib Require Import Floats Bool Lia Lqa List Sorted.
From Stdlib Require Finite.
Import ListNotations.

#[local] Set Warnings "-inexact-float".
#[local] Open Scope Z_scope.

(** ** Exceptions *)

Inductive exception : Type :=
| IndexError
| ValueError
| OverflowError
| ZeroDivisionError
| KeyError.

Inductive resultat (A : Type) : Type :=
| Ok (a : A)
| Leve (e : exception).
Arguments Ok {A} a.
Arguments Leve {A} e.

Definition lie {A B} (c : resultat A) (k : A -> resultat B) : resultat B :=
  match c with
  | Ok a => k a
  | Leve e => Leve e
  end.

Declare Scope resultat_scope.
Delimit Scope resultat_scope with resultat.
Notation "x <- c ;; k" := (lie c (fun x => k))
  (at level 61, c at next level, right associativity) : resultat_scope.
Notation "' p <- c ;; k" := (lie c (fun x => let p := x in k))
  (at level 61, p pattern, c at next level, right associativity) : resultat_scope.
#[local] Open Scope resultat_scope.

(** A [for] loop whose body may raise: the state is threaded from left to
    right and the first exception stops the loop. *)
Fixpoint pour {A S} (l : list A) (corps : S -> A -> resultat S) (s : S)
  : resultat S :=
  match l with
  | [] => Ok s
  | a :: l' => s' <- corps s a ;; pour l' corps s'
  end.

(** ** Python integers, ranges and indices *)

(** [range(a, b)] *)
Definition py_range (a b : Z) : list Z :=
  map (fun i => a + Z.of_nat i) (seq 0 (Z.to_nat (b - a))).

(** [enumerate(l, start=debut)] and [enumerate(l)] *)
Fixpoint enumerate_de {A} (debut : Z) (l : list A) : list (Z * A) :=
  match l with
  | [] => []
  | a :: l' => (debut, a) :: enumerate_de (debut + 1) l'
  end.

Definition enumerate {A} (l : list A) : list (Z * A) := enumerate_de 0 l.

(** The position an index designates in a sequence of length [n]: negative
    indices count from the end, anything else out of range is an
    [IndexError]. *)
Definition py_index (n : nat) (i : Z) : resultat nat :=
  if (0 <=? i) && (i <? Z.of_nat n) then Ok (Z.to_nat i)
  else if (- Z.of_nat n <=? i) && (i <? 0) then Ok (Z.to_nat (i + Z.of_nat n))
  else Leve IndexError.

(** [l[i]] *)
Definition getitem {A} (l : list A) (i : Z) : resultat A :=
  p <- py_index (length l) i ;;
  match nth_error l p with
  | Some a => Ok a
  | None => Leve IndexError
  end.

Fixpoint remplace {A} (l : list A) (p : nat) (v : A) : list A :=
  match l, p with
  | [], _ => []
  | _ :: l', O => v :: l'
  | a :: l', S p' => a :: remplace l' p' v
  end.

(** [l[i] = v] *)
Definition setitem {A} (l : list A) (i : Z) (v : A) : resultat (list A) :=
  p <- py_index (length l) i ;; Ok (remplace l p v).

(** ** Dictionaries *)

Class Cle (K : Type) := cle_dec : forall x y : K, {x = y} + {x <> y}.

#[export] Instance Cle_Z : Cle Z := Z.eq_dec.

#[export] Instance Cle_pixel : Cle (Z * Z).
Proof. intros [a b] [c d]. destruct (Z.eq_dec a c), (Z.eq_dec b d);
  [left; congruence | right; congruence ..]. Defined.

Section Dict.
Context {K V : Type} `{Cle K}.

Definition dict := list (K * V).

(** [d.get(k)] *)
Fixpoint dict_get (d : dict) (k : K) : option V :=
  match d with
  | [] => None
  | (k', v) :: d' => if cle_dec k k' then Some v else dict_get d' k
  end.

(** [d[k] = v]: an existing key keeps its place, a new one goes last. *)
Fixpoint dict_set (d : dict) (k : K) (v : V) : dict :=
  match d with
  | [] => [(k, v)]
  | (k', v') :: d' =>
      if cle_dec k k' then (k', v) :: d' else (k', v') :: dict_set d' k v
  end.

Definition dict_keys (d : dict) : list K := map fst d.
End Dict.
Arguments dict : clear implicits.

(** [d.setdefault(k, []).append(x)], which is also [d[k].append(x)] on a
    [defaultdict(list)]. *)
Fixpoint dict_append {K A} `{Cle K} (d : dict K (list A)) (k : K) (x : A)
  : dict K (list A) :=
  match d with
  | [] => [(k, [x])]
  | (k', l) :: d' =>
      if cle_dec k k' then (k', l ++ [x]) :: d'
      else (k', l) :: dict_append d' k x
  end.

(** ** Mapping inversion ([inverser_mapping]) *)

Section Inversion.
Context {A : Type}.

(** The pixel -> triangles correspondence, [(ligne, colonne)] to the list of
    [(id_triangle, aire)], and its transpose. *)
Definition map_pixels := dict (Z * Z) (list (Z * A)).
Definition map_triangles := dict Z (list (Z * Z * A)).

Definition inverser_pixel (tri_px : map_triangles)
    (entree : (Z * Z) * list (Z * A)) : map_triangles :=
  let '((lig, col), lst) := entree in
  fold_left (fun acc '(id_tri, aire) => dict_append acc id_tri (lig, col, aire))
            lst tri_px.

Definition completer (tri_px : map_triangles) (id_tri : Z) : map_triangles :=
  dict_set tri_px id_tri
    (match dict_get tri_px id_tri with Some l => l | None => [] end).

Definition inverser_mapping (map_px : map_pixels) (nb_triangles : Z)
  : map_triangles :=
  let tri_px := fold_left inverser_pixel map_px [] in
  fold_left completer (py_range 0 nb_triangles) tri_px.

(** The occurrences of triangle [t] in the forward map, in iteration
    order, each with the pixel it is listed under. *)
Definition occurrences_liste (t : Z) (lig col : Z) (lst : list (Z * A))
  : list (Z * Z * A) :=
  flat_map (fun '(id_tri, aire) =>
              if Z.eq_dec t id_tri then [(lig, col, aire)] else []) lst.

Definition occurrences (t : Z) (map_px : map_pixels) : list (Z * Z * A) :=
  flat_map (fun '((lig, col), lst) => occurrences_liste t lig col lst) map_px.

(** Whether [t] is listed under some pixel. *)
Definition present (t : Z) (map_px : map_pixels) : bool :=
  existsb (fun '(_, lst) => existsb (fun '(id_tri, _) => Z.eqb t id_tri) lst)
          map_px.

(** What a list of new entries makes of a key's binding. *)
Definition fusion {X} (o : option (list X)) (l : list X) : option (list X) :=
  match o, l with
  | Some a, _ => Some (a ++ l)
  | None, [] => None
  | None, _ :: _ => Some l
  end.

End Inversion.
Arguments map_pixels : clear implicits.
Arguments map_triangles : clear implicits.

(** ** Floating-point numbers

    The operations the program applies to [float] and [float64] values. *)

Class Flottant (F : Type) : Type := {
  fl_zero : F;
  fl_nan : F;
  fl_add : F -> F -> F;
  fl_sub : F -> F -> F;
  fl_mul : F -> F -> F;
  (** numpy's division: dividing by zero gives an infinity or a NaN *)
  fl_div : F -> F -> F;
  fl_eqb : F -> F -> bool;
  fl_ltb : F -> F -> bool;
  fl_leb : F -> F -> bool;
  (** [np.isfinite], [np.isnan] *)
  fl_isfinite : F -> bool;
  fl_isnan : F -> bool;
  (** [float(n)] for the indices and counts of the program *)
  fl_of_Z : Z -> F;
  (** [int(x)]: truncation towards zero; [ValueError] on a NaN,
      [OverflowError] on an infinity *)
  fl_int : F -> resultat Z;
  (** [int(np.floor(x))], with the same exceptions *)
  fl_int_floor : F -> resultat Z
}.

(** A finite number has a floor. *)
Class FlottantLois (F : Type) `{Flottant F} : Prop := {
  fl_int_floor_fini :
    forall x, fl_isfinite x = true -> exists z, fl_int_floor x = Ok z
}.

(** *** Binary64: the program's numbers *)

(** The integer [arrondi n d] approximates [n / 2^d]; the value of a finite
    float is [(-1)^s * m * 2^e]. *)
Definition b64_entier (arrondi : Z -> Z -> Z) (x : float) : resultat Z :=
  match Prim2SF x with
  | S754_nan => Leve ValueError
  | S754_infinity _ => Leve OverflowError
  | S754_zero _ => Ok 0
  | S754_finite s m e =>
      let n := if s then Z.neg m else Z.pos m in
      Ok (if 0 <=? e then n * 2 ^ e else arrondi n (- e))
  end.

Definition b64_int : float -> resultat Z :=
  b64_entier (fun n d => Z.quot n (2 ^ d)).

Definition b64_int_floor : float -> resultat Z :=
  b64_entier (fun n d => Z.div n (2 ^ d)).

Definition b64_of_Z (z : Z) : float :=
  SF2Prim (binary_normalize prec emax z 0 false).

(** *** Exact numbers: rationals and one undefined value *)

Inductive exact : Type :=
| Fini (q : Qc)
| Indefini.

Definition exact_op2 (op : Qc -> Qc -> Qc) (x y : exact) : exact :=
  match x, y with
  | Fini a, Fini b => Fini (op a b)
  | _, _ => Indefini
  end.

Definition exact_div (x y : exact) : exact :=
  match x, y with
  | Fini a, Fini b => if Qc_eq_dec b 0%Qc then Indefini else Fini (a / b)%Qc
  | _, _ => Indefini
  end.

Definition exact_cmp (test : comparison -> bool) (x y : exact) : bool :=
  match x, y with
  | Fini a, Fini b => test (a ?= b)%Qc
  | _, _ => false
  end.

Definition exact_isfinite (x : exact) : bool :=
  match x with Fini _ => true | Indefini => false end.

Definition exact_entier (arrondi : Z -> Z -> Z) (x : exact) : resultat Z :=
  match x with
  | Fini q => Ok (arrondi (Qnum q) (Z.pos (Qden q)))
  | Indefini => Leve ValueError
  end.

#[export] Instance Flottant_binary64 : Flottant float := {
  fl_zero := 0%float;
  fl_nan := PrimFloat.nan;
  fl_add := PrimFloat.add;
  fl_sub := PrimFloat.sub;
  fl_mul := PrimFloat.mul;
  fl_div := PrimFloat.div;
  fl_eqb := PrimFloat.eqb;
  fl_ltb := PrimFloat.ltb;
  fl_leb := PrimFloat.leb;
  fl_isfinite := PrimFloat.is_finite;
  fl_isnan := PrimFloat.is_nan;
  fl_of_Z := b64_of_Z;
  fl_int := b64_int;
  fl_int_floor := b64_int_floor
}.

#[export] Instance Flottant_exact : Flottant exact := {
  fl_zero := Fini 0%Qc;
  fl_nan := Indefini;
  fl_add := exact_op2 Qcplus;
  fl_sub := exact_op2 Qcminus;
  fl_mul := exact_op2 Qcmult;
  fl_div := exact_div;
  fl_eqb := exact_cmp (fun c => match c with Eq => true | _ => false end);
  fl_ltb := exact_cmp (fun c => match c with Lt => true | _ => false end);
  fl_leb := exact_cmp (fun c => match c with Gt => false | _ => true end);
  fl_isfinite := exact_isfinite;
  fl_isnan := fun x => negb (exact_isfinite x);
  fl_of_Z := fun z => Fini (Q2Qc (inject_Z z));
  fl_int := exact_entier Z.quot;
  fl_int_floor := exact_entier Z.div
}.

(** ** numpy arrays *)

Section Tableaux.
Context {F : Type} `{Flottant F}.

(** A 2D array is the list of its rows. *)
Definition raster := list (list F).

(** [ras[lig, col]] *)
Definition getitem2 (ras : raster) (lig col : Z) : resultat F :=
  ligne <- getitem ras lig ;; getitem ligne col.

(** [ras[lig, col] = v] *)
Definition setitem2 (ras : raster) (lig col : Z) (v : F) : resultat raster :=
  ligne <- getitem ras lig ;;
  ligne' <- setitem ligne col v ;;
  setitem ras lig ligne'.

(** [np.full((n,), v)] and [np.full((nb_lignes, nb_colonnes), v)]; a negative
    dimension is a [ValueError]. *)
Definition np_full (n : nat) (v : F) : list F := repeat v n.

Definition np_full2 (nb_lignes nb_colonnes : Z) (v : F) : resultat raster :=
  if (nb_lignes <? 0) || (nb_colonnes <? 0) then Leve ValueError
  else Ok (repeat (repeat v (Z.to_nat nb_colonnes)) (Z.to_nat nb_lignes)).

(** [np.sum]: the elements are added from left to right, starting from zero.
    numpy adds arrays of eight elements or more in blocks, which changes the
    rounding of a binary64 sum and nothing else; no statement below depends
    on the order. *)
Definition np_sum (l : list F) : F := fold_left fl_add l fl_zero.

(** [np.mean]: the sum divided by the number of elements. *)
Definition np_mean (l : list F) : F :=
  fl_div (np_sum l) (fl_of_Z (Z.of_nat (length l))).

(** [a * b] on two arrays of the same length. *)
Definition np_mul (a b : list F) : list F :=
  map (fun '(x, y) => fl_mul x y) (combine a b).

(** Python's [x / y] on two floats. *)
Definition py_div (x y : F) : resultat F :=
  if fl_eqb y fl_zero then Leve ZeroDivisionError else Ok (fl_div x y).

End Tableaux.
Arguments raster : clear implicits.

(** ** Cell-to-triangle aggregation ([moyenne_pixels_par_triangle]) *)

Section AgregationTriangles.
Context {F : Type} `{Flottant F}.

(** One turn of [for lig, col, aire in pixels]. *)
Definition retenir_pixel (ras : raster F) (acc : list F * list F)
    (px : Z * Z * F) : resultat (list F * list F) :=
  let '(vals, poids) := acc in
  let '(lig, col, aire) := px in
  v <- getitem2 ras lig col ;;
  if negb (fl_isfinite v) then Ok (vals, poids)
  else Ok (vals ++ [v], poids ++ [aire]).

(** One turn of [for id_tri, pixels in tri_px.items()]. *)
Definition moyenne_triangle (ras : raster F) (pondere : bool)
    (val_tri : list F) (entree : Z * list (Z * Z * F)) : resultat (list F) :=
  let '(id_tri, pixels) := entree in
  match pixels with
  | [] => Ok val_tri
  | _ :: _ =>
      acc <- pour pixels (retenir_pixel ras) ([], []) ;;
      let '(vals, poids) := acc in
      match vals with
      | [] => Ok val_tri
      | _ :: _ =>
          if pondere then
            if fl_ltb fl_zero (np_sum poids) then
              setitem val_tri id_tri
                (fl_div (np_sum (np_mul vals poids)) (np_sum poids))
            else Ok val_tri
          else setitem val_tri id_tri (np_mean vals)
      end
  end.

Definition moyenne_pixels_par_triangle (ras : raster F)
    (tri_px : map_triangles F) (pondere : bool) (rempl : F)
  : resultat (list F) :=
  let nb_tri := length tri_px in
  let val_tri := np_full nb_tri rempl in
  pour tri_px (moyenne_triangle ras pondere) val_tri.

(** The aggregation as the specification words it: the (value, area) pairs
    of a triangle whose cell value is finite, and their reduction. *)
Definition valeur_cellule (ras : raster F) (lig col : Z) : F :=
  match getitem2 ras lig col with Ok v => v | Leve _ => fl_nan end.

Definition paires_finies (ras : raster F) (pixels : list (Z * Z * F))
  : list (F * F) :=
  filter (fun p => fl_isfinite (fst p))
         (map (fun '(lig, col, aire) => (valeur_cellule ras lig col, aire))
              pixels).

Definition moyenne_ponderee (paires : list (F * F)) : F :=
  fl_div (np_sum (map (fun p => fl_mul (fst p) (snd p)) paires))
         (np_sum (map snd paires)).

Definition moyenne_simple (paires : list (F * F)) : F :=
  np_mean (map fst paires).

Definition reduction (pondere : bool) (sans_valeur : F)
    (paires : list (F * F)) : F :=
  match paires with
  | [] => sans_valeur
  | _ :: _ =>
      if pondere then
        if fl_ltb fl_zero (np_sum (map snd paires))
        then moyenne_ponderee paires
        else sans_valeur
      else moyenne_simple paires
  end.

(** Every pixel of the list designates a cell of the raster. *)
Definition pixels_lisibles (ras : raster F) (pixels : list (Z * Z * F)) : Prop :=
  forall lig col aire,
    In (lig, col, aire) pixels -> exists v, getitem2 ras lig col = Ok v.

(** The value [moyenne_pixels_par_triangle] gives a triangle. *)
Definition valeur_triangle (ras : raster F) (pondere : bool) (rempl : F)
    (pixels : list (Z * Z * F)) : F :=
  reduction pondere rempl (paires_finies ras pixels).

End AgregationTriangles.

(** Every finite cell of the raster holds [C]. *)
Definition raster_constant {F : Type} `{Flottant F} (ras : raster F) (C : F)
  : Prop :=
  forall lig col v,
    getitem2 ras lig col = Ok v -> fl_isfinite v = true -> v = C.

(** The areas of the pixels of a triangle whose cell value is finite. *)
Definition aires_finies {F : Type} `{Flottant F} (ras : raster F)
    (pixels : list (Z * Z * F)) : list F :=
  map snd (paires_finies ras pixels).

(** ** Triangle-to-cell aggregation ([sm_vers_mh_raster],
    [projette_triangles_surface]) *)

Section AgregationPixels.
Context {F : Type} `{Flottant F}.

(** [[float(val_tri[int(id_tri)]) for (id_tri, aire) in lst]] *)
Definition valeurs_triangles (val_tri : list F) (lst : list (Z * F))
  : resultat (list F) :=
  pour lst (fun vals '(id_tri, _) =>
              v <- getitem val_tri id_tri ;; Ok (vals ++ [v])) [].

(** One turn of the weighted loop of [sm_vers_mh_raster]. *)
Definition cumule_sm (val_tri : list F) (acc : F * F) (e : Z * F)
  : resultat (F * F) :=
  let '(num, den) := acc in
  let '(id_tri, a) := e in
  if fl_leb a fl_zero then Ok (num, den)
  else
    vt <- getitem val_tri id_tri ;;
    if negb (fl_isfinite vt) then Ok (num, den)
    else Ok (fl_add num (fl_mul vt a), fl_add den a).

Definition sm_pixel (val_tri : list F) (pondere : bool) (ras_rec : raster F)
    (entree : (Z * Z) * list (Z * F)) : resultat (raster F) :=
  let '((lig, col), lst) := entree in
  match lst with
  | [] => Ok ras_rec
  | _ :: _ =>
      if negb pondere then
        vals <- valeurs_triangles val_tri lst ;;
        match vals with
        | [] => Ok ras_rec
        | _ :: _ => setitem2 ras_rec lig col (np_mean vals)
        end
      else
        acc <- pour lst (cumule_sm val_tri) (fl_zero, fl_zero) ;;
        let '(num, den) := acc in
        if fl_ltb fl_zero den then setitem2 ras_rec lig col (fl_div num den)
        else Ok ras_rec
  end.

(** The aggregation loop of [sm_vers_mh_raster], from the grid shape, the
    correspondence and the triangle values it has read. *)
Definition sm_vers_mh_raster (nb_lignes nb_colonnes : Z)
    (map_px : map_pixels F) (val_tri : list F) (pondere : bool)
  : resultat (raster F) :=
  ras_rec <- np_full2 nb_lignes nb_colonnes fl_nan ;;
  pour map_px (sm_pixel val_tri pondere) ras_rec.

(** One turn of the inner loop of [projette_triangles_surface]. *)
Definition cumule_surface (valeurs : list F) (acc : F * F) (e : Z * F)
  : resultat (F * F) :=
  let '(num, den) := acc in
  let '(id_tri, a) := e in
  v <- getitem valeurs id_tri ;;
  if fl_isnan v then Ok (num, den)
  else Ok (fl_add num (fl_mul v a), fl_add den a).

Definition surface_pixel (valeurs : list F) (ras : raster F)
    (entree : (Z * Z) * list (Z * F)) : resultat (raster F) :=
  let '((ligne, colonne), liste) := entree in
  acc <- pour liste (cumule_surface valeurs) (fl_zero, fl_zero) ;;
  let '(num, den) := acc in
  if fl_ltb fl_zero den then setitem2 ras ligne colonne (fl_div num den)
  else Ok ras.

Definition projette_triangles_surface (valeurs : list F)
    (mapping : map_pixels F) (nb_lignes nb_colonnes : Z) (fill : F)
  : resultat (raster F) :=
  ras <- np_full2 nb_lignes nb_colonnes fill ;;
  pour mapping (surface_pixel valeurs) ras.

End AgregationPixels.

(** ** Grid indexing and mappers ([mapping.py]) *)

(** What the mappers use of shapely: a triangle [Polygon] with its
    [is_empty], [area] and [bounds], and the area of its intersection with
    a [box], [None] when the intersection [is_empty]. *)
Definition point2 (F : Type) : Type := (F * F)%type.
Definition triangle2 (F : Type) : Type := (point2 F * point2 F * point2 F)%type.
(** [(minx, miny, maxx, maxy)] *)
Definition boite (F : Type) : Type := (F * F * F * F)%type.

Class Shapely (F : Type) : Type := {
  polygon_is_empty : triangle2 F -> bool;
  polygon_area : triangle2 F -> F;
  polygon_bounds : triangle2 F -> boite F;
  intersection_area : triangle2 F -> boite F -> option F
}.

(** All the keys of a dictionary of pixels are cells of the grid. *)
Definition cles_dans_grille {V} (nb_lignes nb_colonnes : Z)
    (m : dict (Z * Z) V) : Prop :=
  forall l c, In (l, c) (dict_keys m) ->
    0 <= l < nb_lignes /\ 0 <= c < nb_colonnes.

(** The entries of a pixel, an absent key read as the empty list. *)
Definition entrees_pixel {V} (m : dict (Z * Z) (list V)) (k : Z * Z) : list V :=
  match dict_get m k with Some lst => lst | None => [] end.

Section Cartographie.
Context {F : Type} `{Flottant F}.

(** [gt = (x_min, dx, rx, y_max, ry, dy)] *)
Definition geotransform := (F * F * F * F * F * F)%type.

Definition xy_vers_pixel (x y : F) (gt : geotransform) : resultat (Z * Z) :=
  let '(gt0, gt1, _, gt3, _, gt5) := gt in
  qc <- py_div (fl_sub x gt0) gt1 ;;
  colonne <- fl_int qc ;;
  ql <- py_div (fl_sub y gt3) gt5 ;;
  ligne <- fl_int ql ;;
  Ok (ligne, colonne).

(** The cell that contains [(x, y)]: the floor of the two quotients. *)
Definition pixel_contenant (x y : F) (gt : geotransform) : resultat (Z * Z) :=
  let '(gt0, gt1, _, gt3, _, gt5) := gt in
  qc <- py_div (fl_sub x gt0) gt1 ;;
  colonne <- fl_int_floor qc ;;
  ql <- py_div (fl_sub y gt3) gt5 ;;
  ligne <- fl_int_floor ql ;;
  Ok (ligne, colonne).

(** [points[tri]], reduced to the XY coordinates the mappers read. *)
Definition sommets (points : list (F * F * F)) (tri : Z * Z * Z)
  : resultat (triangle2 F) :=
  let '(i0, i1, i2) := tri in
  p0 <- getitem points i0 ;;
  p1 <- getitem points i1 ;;
  p2 <- getitem points i2 ;;
  let xy := fun p : F * F * F => (fst (fst p), snd (fst p)) in
  Ok (xy p0, xy p1, xy p2).

(** [triangles_xy.mean(axis=1)] for one triangle. *)
Definition barycentre (t : triangle2 F) : F * F :=
  let '((x0, y0), (x1, y1), (x2, y2)) := t in
  (fl_div (fl_add (fl_add x0 x1) x2) (fl_of_Z 3),
   fl_div (fl_add (fl_add y0 y1) y2) (fl_of_Z 3)).

Definition barycentre_triangle (gt : geotransform) (nb_lignes nb_colonnes : Z)
    (mapping : dict (Z * Z) (list Z)) (e : Z * (F * F))
  : resultat (dict (Z * Z) (list Z)) :=
  let '(id_tri, (x, y)) := e in
  lc <- xy_vers_pixel x y gt ;;
  let '(ligne, colonne) := lc in
  if negb ((0 <=? ligne) && (ligne <? nb_lignes)
           && (0 <=? colonne) && (colonne <? nb_colonnes))
  then Ok mapping
  else Ok (dict_append mapping (ligne, colonne) id_tri).

Definition mapping_barycentre (points : list (F * F * F))
    (triangles : list (Z * Z * Z)) (gt : geotransform)
    (nb_lignes nb_colonnes : Z) : resultat (dict (Z * Z) (list Z)) :=
  triangles_xy <- pour triangles
                    (fun acc tri => s <- sommets points tri ;; Ok (acc ++ [s]))
                    [] ;;
  let barycentres := map barycentre triangles_xy in
  pour (enumerate barycentres)
       (barycentre_triangle gt nb_lignes nb_colonnes) [].

Context `{Shapely F}.

(** The candidate range [(col_min, lig_min, col_max, lig_max)] of a bounding
    box, clipped to the grid. *)
Definition indices_candidats (gt : geotransform) (nb_lignes nb_colonnes : Z)
    (bornes : boite F) : resultat (Z * Z * Z * Z) :=
  let '(x0, dx, _, y0, _, dy) := gt in
  let '(minx, miny, maxx, maxy) := bornes in
  q1 <- py_div (fl_sub minx x0) dx ;;
  col_min <- fl_int_floor q1 ;;
  q2 <- py_div (fl_sub maxx x0) dx ;;
  col_max <- fl_int_floor q2 ;;
  q3 <- py_div (fl_sub maxy y0) dy ;;
  lig_min <- fl_int_floor q3 ;;
  q4 <- py_div (fl_sub miny y0) dy ;;
  lig_max <- fl_int_floor q4 ;;
  Ok (Z.max col_min 0, Z.max lig_min 0,
      Z.min col_max (nb_colonnes - 1), Z.min lig_max (nb_lignes - 1)).

(** [box(px_min, py_min, px_max, py_max)] of the cell [(ligne, colonne)]. *)
Definition cellule (gt : geotransform) (ligne colonne : Z) : boite F :=
  let '(x0, dx, _, y0, _, dy) := gt in
  let px_min := fl_add x0 (fl_mul (fl_of_Z colonne) dx) in
  let px_max := fl_add x0 (fl_mul (fl_of_Z (colonne + 1)) dx) in
  let py_max := fl_add y0 (fl_mul (fl_of_Z ligne) dy) in
  let py_min := fl_add y0 (fl_mul (fl_of_Z (ligne + 1)) dy) in
  (px_min, py_min, px_max, py_max).

(** The body of the two nested loops over the candidate cells. *)
Definition surface_cellule (gt : geotransform) (poly_tri : triangle2 F)
    (id_tri : Z) (ligne : Z) (mapping : map_pixels F) (colonne : Z)
  : map_pixels F :=
  match intersection_area poly_tri (cellule gt ligne colonne) with
  | None => mapping
  | Some aire =>
      if fl_leb aire fl_zero then mapping
      else dict_append mapping (ligne, colonne) (id_tri, aire)
  end.

Definition surface_cellules (gt : geotransform) (poly_tri : triangle2 F)
    (id_tri : Z) (cand : Z * Z * Z * Z) (mapping : map_pixels F)
  : map_pixels F :=
  let '(col_min, lig_min, col_max, lig_max) := cand in
  fold_left
    (fun m ligne =>
       fold_left (surface_cellule gt poly_tri id_tri ligne)
                 (py_range col_min (col_max + 1)) m)
    (py_range lig_min (lig_max + 1)) mapping.

(** One turn of [for id_tri, tri in enumerate(triangles)]. *)
Definition surface_triangle (points : list (F * F * F)) (gt : geotransform)
    (nb_lignes nb_colonnes : Z) (mapping : map_pixels F) (e : Z * (Z * Z * Z))
  : resultat (map_pixels F) :=
  let '(id_tri, tri) := e in
  poly_tri <- sommets points tri ;;
  if polygon_is_empty poly_tri || fl_leb (polygon_area poly_tri) fl_zero
  then Ok mapping
  else
    cand <- indices_candidats gt nb_lignes nb_colonnes
              (polygon_bounds poly_tri) ;;
    Ok (surface_cellules gt poly_tri id_tri cand mapping).

Definition mapping_surface (points : list (F * F * F))
    (triangles : list (Z * Z * Z)) (gt : geotransform)
    (nb_lignes nb_colonnes : Z) : resultat (map_pixels F) :=
  pour (enumerate triangles) (surface_triangle points gt nb_lignes nb_colonnes)
       [].

(** The cell [(l, c)] and the triangle [poly_tri] overlap with area [a]:
    the intersection is not empty and its area is not [<= 0]. *)
Definition recouvrement (gt : geotransform) (poly_tri : triangle2 F)
    (l c : Z) (a : F) : Prop :=
  intersection_area poly_tri (cellule gt l c) = Some a
  /\ fl_leb a fl_zero = false.

(** The triangle is kept by the mapper, the cell [(l, c)] is in its
    candidate range and they overlap with area [a]. *)
Definition enregistre (points : list (F * F * F)) (gt : geotransform)
    (nb_lignes nb_colonnes : Z) (tri : Z * Z * Z) (l c : Z) (a : F) : Prop :=
  exists poly_tri col_min lig_min col_max lig_max,
    sommets points tri = Ok poly_tri
    /\ polygon_is_empty poly_tri || fl_leb (polygon_area poly_tri) fl_zero
       = false
    /\ indices_candidats gt nb_lignes nb_colonnes (polygon_bounds poly_tri)
       = Ok (col_min, lig_min, col_max, lig_max)
    /\ lig_min <= l <= lig_max /\ col_min <= c <= col_max
    /\ recouvrement gt poly_tri l c a.






End Cartographie.
Arguments geotransform : clear implicits.


(** ** shapely, computed

    An implementation of [Shapely] to run the mappers on concrete meshes:
    the triangle is clipped by the four sides of the box and the area is the
    shoelace sum.  Over [exact] this is the area of the intersection; over
    binary64 it is rounded, as shapely's own result is. *)

Section Decoupe.
Context {F : Type} `{Flottant F}.

Definition fl_abs (x : F) : F := if fl_ltb x fl_zero then fl_sub fl_zero x else x.
Definition fl_min (x y : F) : F := if fl_ltb y x then y else x.
Definition fl_max (x y : F) : F := if fl_ltb x y then y else x.

Definition aire_polygone (poly : list (point2 F)) : F :=
  match poly with
  | [] => fl_zero
  | p0 :: suite =>
      let croix := fun '((x1, y1), (x2, y2)) =>
                     fl_sub (fl_mul x1 y2) (fl_mul x2 y1) in
      fl_div (fl_abs (np_sum (map croix (combine poly (suite ++ [p0])))))
             (fl_of_Z 2)
  end.

(** Clipping of a closed polygon by a half-plane: [dedans] tells the side a
    vertex is on, [coupe p q] is where the edge [p q] crosses the border. *)
Fixpoint decoupe_aretes (dedans : point2 F -> bool)
    (coupe : point2 F -> point2 F -> point2 F)
    (avant : point2 F) (l : list (point2 F)) : list (point2 F) :=
  match l with
  | [] => []
  | cour :: l' =>
      (if dedans cour
       then if dedans avant then [cour] else [coupe avant cour; cour]
       else if dedans avant then [coupe avant cour] else [])
      ++ decoupe_aretes dedans coupe cour l'
  end.

Definition decoupe (dedans : point2 F -> bool)
    (coupe : point2 F -> point2 F -> point2 F) (poly : list (point2 F))
  : list (point2 F) :=
  match poly with
  | [] => []
  | p0 :: _ => decoupe_aretes dedans coupe (last poly p0) poly
  end.

Definition coupe_x (c : F) (p q : point2 F) : point2 F :=
  let '(x1, y1) := p in
  let '(x2, y2) := q in
  (c, fl_add y1 (fl_div (fl_mul (fl_sub y2 y1) (fl_sub c x1)) (fl_sub x2 x1))).

Definition coupe_y (c : F) (p q : point2 F) : point2 F :=
  let '(x1, y1) := p in
  let '(x2, y2) := q in
  (fl_add x1 (fl_div (fl_mul (fl_sub x2 x1) (fl_sub c y1)) (fl_sub y2 y1)), c).

Definition decoupe_boite (b : boite F) (poly : list (point2 F))
  : list (point2 F) :=
  let '(minx, miny, maxx, maxy) := b in
  decoupe (fun p => fl_leb (snd p) maxy) (coupe_y maxy)
    (decoupe (fun p => fl_leb miny (snd p)) (coupe_y miny)
       (decoupe (fun p => fl_leb (fst p) maxx) (coupe_x maxx)
          (decoupe (fun p => fl_leb minx (fst p)) (coupe_x minx) poly))).

Definition sommets_triangle (t : triangle2 F) : list (point2 F) :=
  let '(p0, p1, p2) := t in [p0; p1; p2].

#[export] Instance Shapely_decoupe : Shapely F := {
  polygon_is_empty := fun _ => false;
  polygon_area := fun t => aire_polygone (sommets_triangle t);
  polygon_bounds := fun '(((x0, y0), (x1, y1)), (x2, y2)) =>
    (fl_min (fl_min x0 x1) x2, fl_min (fl_min y0 y1) y2,
     fl_max (fl_max x0 x1) x2, fl_max (fl_max y0 y1) y2);
  intersection_area := fun t b =>
    match decoupe_boite b (sommets_triangle t) with
    | [] => None
    | poly => Some (aire_polygone poly)
    end
}.

End Decoupe.

(** ** Text

    The methods of [str] the readers and writers use.  A text file is the
    list of its lines, each with its line end. *)

#[local] Open Scope string_scope.

Definition est_blanc (c : ascii) : bool :=
  let n := N_of_ascii c in
  (((9 <=? n) && (n <=? 13)) || ((28 <=? n) && (n <=? 32)))%N.

Fixpoint lstrip (s : string) : string :=
  match s with
  | String c s' => if est_blanc c then lstrip s' else s
  | EmptyString => EmptyString
  end.

Fixpoint rstrip (s : string) : string :=
  match s with
  | EmptyString => EmptyString
  | String c s' =>
      match rstrip s' with
      | EmptyString => if est_blanc c then EmptyString else String c EmptyString
      | r => String c r
      end
  end.

(** [s.strip()] *)
Definition strip (s : string) : string := rstrip (lstrip s).

(** [s.split()]: [mot] is the word being read. *)
Fixpoint split_mots (s : string) (mot : string) : list string :=
  match s with
  | EmptyString => match mot with EmptyString => [] | _ => [mot] end
  | String c s' =>
      if est_blanc c
      then match mot with
           | EmptyString => split_mots s' EmptyString
           | _ => mot :: split_mots s' EmptyString
           end
      else split_mots s' (mot ++ String c EmptyString)
  end.

Definition split (s : string) : list string := split_mots s EmptyString.

(** [s.startswith(p)] *)
Definition startswith (s p : string) : bool := String.prefix p s.

Definition minuscule (c : ascii) : ascii :=
  let n := N_of_ascii c in
  if ((65 <=? n) && (n <=? 90))%N then ascii_of_N (n + 32) else c.

Fixpoint map_chaine (f : ascii -> ascii) (s : string) : string :=
  match s with
  | EmptyString => EmptyString
  | String c s' => String (f c) (map_chaine f s')
  end.

(** [s.lower()] and [s.replace("\t", " ")] *)
Definition lower (s : string) : string := map_chaine minuscule s.

Definition replace_tab (s : string) : string :=
  map_chaine (fun c => if Ascii.eqb c "009" then " "%char else c) s.

Fixpoint tous (p : ascii -> bool) (s : string) : bool :=
  match s with
  | EmptyString => true
  | String c s' => p c && tous p s'
  end.

Definition non_blanc (c : ascii) : bool := negb (est_blanc c).

(** *** Integers in decimal *)

Definition chiffre (c : ascii) : option N :=
  let n := N_of_ascii c in
  if ((48 <=? n) && (n <=? 57))%N then Some (n - 48)%N else None.

Fixpoint lit_chiffres (s : string) (acc : N) : option N :=
  match s with
  | EmptyString => Some acc
  | String c s' =>
      match chiffre c with
      | Some d => lit_chiffres s' (10 * acc + d)%N
      | None => None
      end
  end.

(** The digits of [n] in front of [suite]; [reste] bounds their number. *)
Fixpoint chiffres_N (reste : nat) (n : N) (suite : string) : string :=
  let s := String (ascii_of_N (48 + n mod 10)) suite in
  match reste with
  | O => s
  | S r => if (n / 10 =? 0)%N then s else chiffres_N r (n / 10) s
  end.

Definition str_N (n : N) : string :=
  chiffres_N (N.to_nat (N.log2 n)) n EmptyString.

(** [str(z)], which is also [f"{z}"] *)
Definition str_Z (z : Z) : string :=
  match z with
  | Z.neg p => String "-" (str_N (N.pos p))
  | _ => str_N (Z.to_N z)
  end.

Definition signe (s : string) : bool * string :=
  match s with
  | String "-" r => (true, r)
  | String "+" r => (false, r)
  | _ => (false, s)
  end.

Definition chiffres_non_vides (s : string) : resultat N :=
  match s with
  | EmptyString => Leve ValueError
  | _ => match lit_chiffres s 0 with Some n => Ok n | None => Leve ValueError end
  end.

(** [int(s)] on a word: an optional sign and digits; anything else is a
    [ValueError] (the digit separators [_] that Python also reads are not
    modelled). *)
Definition py_int (s : string) : resultat Z :=
  let '(neg, r) := signe s in
  n <- chiffres_non_vides r ;;
  Ok (if neg then - Z.of_N n else Z.of_N n).

Definition est_chiffre (c : ascii) : bool :=
  match chiffre c with Some _ => true | None => false end.

Definition les_chiffres : list ascii :=
  ["0"; "1"; "2"; "3"; "4"; "5"; "6"; "7"; "8"; "9"]%char.

(** The characters of a decimal number without sign or exponent. *)
Definition car_decimal (c : ascii) : bool := est_chiffre c || Ascii.eqb c ".".

(** *** Floats in decimal *)

(** The binary64 nearest to [(-1)^neg * n * 10^e] (ties to even). *)
Definition b64_de_decimal (neg : bool) (n : N) (e : Z) : float :=
  match n with
  | N0 => if neg then (-0)%float else 0%float
  | N.pos p =>
      if (0 <=? e)%Z
      then SF2Prim (binary_normalize prec emax
                      ((if neg then Z.neg p else Z.pos p) * 10 ^ e) 0 false)
      else SF2Prim (SFdiv prec emax (S754_finite neg p 0)
                      (S754_finite false (Z.to_pos (10 ^ (- e))) 0))
  end.

(** The text before and after the first character [sep], when there is one. *)
Fixpoint coupe_a (sep : ascii) (s : string) : string * option string :=
  match s with
  | EmptyString => (EmptyString, None)
  | String c s' =>
      if Ascii.eqb c sep then (EmptyString, Some s')
      else let '(a, b) := coupe_a sep s' in (String c a, b)
  end.

Definition exposant (e : option string) : resultat Z :=
  match e with
  | None => Ok 0
  | Some t =>
      let '(neg, r) := signe t in
      n <- chiffres_non_vides r ;;
      Ok (if neg then - Z.of_N n else Z.of_N n)
  end.

(** [float(s)] on a word: a sign, then [inf], [infinity], [nan] or a
    decimal number with an optional fraction and exponent, in any case of
    letters; anything else is a [ValueError] (the digit separators [_] are
    not modelled). *)
Definition py_float (s : string) : resultat float :=
  let '(neg, r) := signe s in
  let r := lower r in
  if String.eqb r "inf" || String.eqb r "infinity"
  then Ok (if neg then neg_infinity else infinity)
  else if String.eqb r "nan" then Ok PrimFloat.nan
  else
    let '(mant, exp) := coupe_a "e" r in
    e <- exposant exp ;;
    let '(ent, frac) := coupe_a "." mant in
    let frac := match frac with Some f => f | None => EmptyString end in
    n <- chiffres_non_vides (ent ++ frac) ;;
    Ok (b64_de_decimal neg n (e - Z.of_nat (String.length frac))).

(** Rounding of [n / d] to the nearest integer, ties to even. *)
Definition arrondi_pair (n d : N) : N :=
  let q := (n / d)%N in
  let r := (n mod d)%N in
  match (2 * r ?= d)%N with
  | Lt => q
  | Gt => (q + 1)%N
  | Eq => if N.even q then q else (q + 1)%N
  end.

(** The sign of a finite float and its magnitude in hundredths, rounded. *)
Definition centiemes (x : float) : option (bool * N) :=
  match Prim2SF x with
  | S754_zero s => Some (s, 0%N)
  | S754_finite s m e =>
      Some (s, if (0 <=? e)%Z then (N.pos m * 2 ^ Z.to_N e * 100)%N
               else arrondi_pair (N.pos m * 100) (2 ^ Z.to_N (- e)))
  | _ => None
  end.

Definition deux_chiffres (r : N) : string :=
  String (ascii_of_N (48 + r / 10)) (String (ascii_of_N (48 + r mod 10)) "").

Definition texte_centiemes (c : bool * N) : string :=
  let '(neg, n) := c in
  (if neg then "-" else "") ++ str_N (n / 100) ++ "." ++ deux_chiffres (n mod 100).

(** [f"{x:.2f}"] *)
Definition fmt_2f (x : float) : string :=
  match centiemes x with
  | Some c => texte_centiemes c
  | None =>
      match Prim2SF x with
      | S754_infinity true => "-inf"
      | S754_infinity false => "inf"
      | _ => "nan"
      end
  end.

(** The part of [texte_centiemes] after the sign. *)
Definition corps_centiemes (n : N) : string :=
  str_N (n / 100) ++ "." ++ deux_chiffres (n mod 100).

(** ** The SM scalar file ([ecrire_val], [lire_val]) *)

Definition np_min (l : list float) : float :=
  match l with
  | [] => 0%float
  | a :: l' => fold_left (fun m x => if PrimFloat.ltb x m then x else m) l' a
  end.

Definition np_max (l : list float) : float :=
  match l with
  | [] => 0%float
  | a :: l' => fold_left (fun m x => if PrimFloat.ltb m x then x else m) l' a
  end.

Definition nl : string := String "010" "".
Definition tab : string := String "009" "".

(** The value lines of one facet: [for _ in range(int(nb_tri))]. *)
Definition ecrire_valeur (val_tri : list float) (etat : Z * list string)
    (_ : Z) : resultat (Z * list string) :=
  let '(k, lignes) := etat in
  v <- getitem val_tri k ;;
  let v := if negb (PrimFloat.is_finite v) then 0%float else v in
  Ok (k + 1, (lignes ++ [(tab ++ fmt_2f v ++ nl)%string])%list).

(** One turn of [for i, nb_tri in enumerate(tailles_facettes, start=1)]. *)
Definition ecrire_facette (val_tri : list float) (etat : Z * list string)
    (e : Z * Z) : resultat (Z * list string) :=
  let '(k, lignes) := etat in
  let '(i, nb_tri) := e in
  pour (py_range 0 nb_tri) (ecrire_valeur val_tri)
       (k, (lignes ++ [("f" ++ str_Z i ++ " " ++ str_Z nb_tri ++ nl)%string])%list).

(** The lines [ecrire_val] writes to its file. *)
Definition ecrire_val (tailles_facettes : list Z) (val_tri : list float)
  : resultat (list string) :=
  let nb_facettes := Z.of_nat (length tailles_facettes) in
  let fini := filter PrimFloat.is_finite val_tri in
  let vmin := np_min fini in
  let vmax := np_max fini in
  let entete := str_Z nb_facettes ++ " " ++ str_Z nb_facettes ++ tab ++ " "
                ++ fmt_2f vmin ++ " " ++ fmt_2f vmax ++ nl in
  etat <- pour (enumerate_de 1 tailles_facettes) (ecrire_facette val_tri)
            (0, [entete]) ;;
  Ok (snd etat).

(** The [while] loop of [lire_val] over the lines that remain: [a_lire] is
    the number of value lines the current facet still owes, that is the
    turns left of [for _ in range(nb)]. *)
Fixpoint lire_lignes (lignes : list string) (a_lire : nat)
    (valeurs : list float) : resultat (list float) :=
  match lignes with
  | [] => match a_lire with O => Ok valeurs | S _ => Leve IndexError end
  | s :: reste =>
      match a_lire with
      | S n =>
          mot <- getitem (split (replace_tab s)) 0 ;;
          v <- py_float mot ;;
          lire_lignes reste n (valeurs ++ [v])%list
      | O =>
          if startswith s "f" then
            mot <- getitem (split s) 1 ;;
            nb <- py_int mot ;;
            lire_lignes reste (Z.to_nat nb) valeurs
          else lire_lignes reste O valeurs
      end
  end.

(** [lire_val] on the lines of the file. *)
Definition lire_val (fichier : list string) : resultat (list float) :=
  let lignes := filter (fun l => negb (String.eqb l ""))
                       (map strip fichier) in
  match lignes with
  | [] => Ok []
  | _ :: suite => lire_lignes suite O []
  end.

(** The value [lire_val] reads where [ecrire_val] wrote [v]: a non-finite
    value is written as 0.0, a finite one with two decimals. *)
Definition relu_2f (v : float) : float :=
  match centiemes (if negb (PrimFloat.is_finite v) then 0%float else v) with
  | Some (neg, n) => b64_de_decimal neg n (-2)
  | None => PrimFloat.nan
  end.

Definition ligne_valeur (v : float) : string :=
  tab ++ fmt_2f (if negb (PrimFloat.is_finite v) then 0%float else v) ++ nl.

Definition ligne_facette (i nb_tri : Z) : string :=
  "f" ++ str_Z i ++ " " ++ str_Z nb_tri ++ nl.

Definition somme (tailles : list Z) : Z := fold_right Z.add 0 tailles.

(** The lines of the facets numbered from [i]: for each facet its line and
    the lines of its values, taken in order from [vals]. *)
Fixpoint blocs (i : Z) (tailles : list Z) (vals : list float) : list string :=
  match tailles with
  | [] => []
  | nb_tri :: suite =>
      (ligne_facette i nb_tri
       :: map ligne_valeur (firstn (Z.to_nat nb_tri) vals)
       ++ blocs (i + 1) suite (skipn (Z.to_nat nb_tri) vals))%list
  end.

(** ** The MH raster file ([lire_mh_ascii]) *)

Definition NODATA_MH : float := 9999%float.

#[export] Instance Cle_chaine : Cle string := string_dec.

Definition est_cle_entete (bas : string) : bool :=
  startswith bas "ncols" || startswith bas "nrows"
  || startswith bas "xllcorner" || startswith bas "yllcorner"
  || startswith bas "cellsize" || startswith bas "nodata_value".

(** One turn of [for lig in f]. *)
Definition lire_ligne (etat : dict string float * list string) (lig : string)
  : resultat (dict string float * list string) :=
  let '(entete, lignes_donnees) := etat in
  let s := strip lig in
  if String.eqb s "" then Ok (entete, lignes_donnees)
  else
    let bas := lower s in
    if (length entete <? 6)%nat && est_cle_entete bas then
      match split s with
      | k :: v :: _ =>
          x <- py_float v ;; Ok (dict_set entete (lower k) x, lignes_donnees)
      | _ => Leve ValueError
      end
    else Ok (entete, (lignes_donnees ++ [s])%list).

Definition _valeurs_ascii (lignes_donnees : list string) : resultat (list float) :=
  pour lignes_donnees
    (fun vals lig =>
       xs <- pour (split lig)
               (fun acc x => v <- py_float x ;; Ok (acc ++ [v])%list) [] ;;
       Ok (vals ++ xs)%list)
    [].

Fixpoint en_lignes (nb_lignes nb_colonnes : nat) (vals : list float)
  : raster float :=
  match nb_lignes with
  | O => []
  | S n => firstn nb_colonnes vals :: en_lignes n nb_colonnes (skipn nb_colonnes vals)
  end.

(** The length a dimension given as [-1] stands for, from the product of
    the others. *)
Definition dimension_libre (taille autre : Z) : resultat Z :=
  if (0 <? autre)%Z && (taille mod autre =? 0)%Z then Ok (taille / autre)%Z
  else Leve ValueError.

(** [np.array(vals, dtype=float).reshape((nb_lignes, nb_colonnes))] *)
Definition reshape (vals : list float) (nb_lignes nb_colonnes : Z)
  : resultat (raster float) :=
  let taille := Z.of_nat (length vals) in
  dims <-
    (if (nb_lignes <? -1)%Z || (nb_colonnes <? -1)%Z then Leve ValueError
     else if (nb_lignes =? -1)%Z && (nb_colonnes =? -1)%Z then Leve ValueError
     else if (nb_lignes =? -1)%Z then
       l <- dimension_libre taille nb_colonnes ;; Ok (l, nb_colonnes)
     else if (nb_colonnes =? -1)%Z then
       c <- dimension_libre taille nb_lignes ;; Ok (nb_lignes, c)
     else Ok (nb_lignes, nb_colonnes)) ;;
  let '(l, c) := dims in
  if (l * c =? taille)%Z then Ok (en_lignes (Z.to_nat l) (Z.to_nat c) vals)
  else Leve ValueError.

(** [ras[ras == code] = np.nan] *)
Definition masque (code : float) (ras : raster float) : raster float :=
  map (map (fun v => if PrimFloat.eqb v code then PrimFloat.nan else v)) ras.

(** [entete[k]] *)
Definition entree (entete : dict string float) (k : string) : resultat float :=
  match dict_get entete k with
  | Some v => Ok v
  | None => Leve KeyError
  end.

(** What [lire_mh_ascii] builds (lines 112 to 130) from the header and the
    data lines it has collected. *)
Definition raster_mh (entete : dict string float) (lignes_donnees : list string)
  : resultat (raster float * geotransform float * float) :=
  c <- entree entete "ncols" ;;
  nb_colonnes <- b64_int c ;;
  l <- entree entete "nrows" ;;
  nb_lignes <- b64_int l ;;
  xll <- entree entete "xllcorner" ;;
  yll <- entree entete "yllcorner" ;;
  pas <- entree entete "cellsize" ;;
  let nodata_fichier :=
    match dict_get entete "nodata_value" with
    | Some v => v
    | None => NODATA_MH
    end in
  let nodata := NODATA_MH in
  let y_max := (yll + b64_of_Z nb_lignes * pas)%float in
  let gt := (xll, pas, 0%float, y_max, 0%float, (- pas)%float) in
  vals <- _valeurs_ascii lignes_donnees ;;
  ras <- reshape vals nb_lignes nb_colonnes ;;
  let ras := masque nodata_fichier ras in
  let ras := masque nodata ras in
  Ok (ras, gt, nodata).

(** [lire_mh_ascii] on the lines of the file. *)
Definition lire_mh_ascii (fichier : list string)
  : resultat (raster float * geotransform float * float) :=
  etat <- pour fichier lire_ligne ([], []) ;;
  let '(entete, lignes_donnees) := etat in
  raster_mh entete lignes_donnees.

(** The nodata code the header of the file declares. *)
Definition nodata_declare (entete : dict string float) : float :=
  match dict_get entete "nodata_value"%string with
  | Some v => v
  | None => NODATA_MH
  end.

(** A cell equal to the declared code or to 9999.0 becomes NaN. *)
Definition coercition (declare v : float) : float :=
  if PrimFloat.eqb v declare || PrimFloat.eqb v NODATA_MH
  then PrimFloat.nan else v.

#[local] Close Scope string_scope.

(** ** Rasters of a given shape; the value of a triangle *)

(** [ras.shape == (nb_lignes, nb_colonnes)] *)
Definition rectangulaire {F : Type} (ras : raster F) (nb_lignes nb_colonnes : Z)
  : Prop :=
  Z.of_nat (length ras) = nb_lignes
  /\ forall ligne, In ligne ras -> Z.of_nat (length ligne) = nb_colonnes.

(** [valeurs[id_tri]], NaN standing for an index out of range. *)
Definition valeur_de {F : Type} `{Flottant F} (valeurs : list F) (id_tri : Z)
  : F :=
  match getitem valeurs id_tri with Ok v => v | Leve _ => fl_nan end.

(** The entries of a pixel that [projette_triangles_surface] keeps, and those
    the weighted mode of [sm_vers_mh_raster] keeps. *)
Definition entrees_non_nan {F : Type} `{Flottant F} (valeurs : list F)
    (liste : list (Z * F)) : list (Z * F) :=
  filter (fun e => negb (fl_isnan (valeur_de valeurs (fst e)))) liste.

Definition entrees_finies {F : Type} `{Flottant F} (val_tri : list F)
    (lst : list (Z * F)) : list (Z * F) :=
  filter (fun e => negb (fl_leb (snd e) fl_zero)
                   && fl_isfinite (valeur_de val_tri (fst e))) lst.

(** The weighted mean of the triangle values over the entries [retenus],
    [defaut] when the sum of the areas is not [> 0]. *)
Definition moyenne_surface {F : Type} `{Flottant F} (valeurs : list F)
    (retenus : list (Z * F)) (defaut : F) : F :=
  let num := np_sum (map (fun e => fl_mul (valeur_de valeurs (fst e)) (snd e))
                       retenus) in
  let den := np_sum (map snd retenus) in
  if fl_ltb fl_zero den then fl_div num den else defaut.

(** One turn of a loop over the pixels of a mapping that assigns to the
    pixel the value [val] computes from its entries, when it computes one. *)
Definition affecte_pixel {F : Type} (val : list (Z * F) -> resultat (option F))
    (ras : raster F) (entree : (Z * Z) * list (Z * F)) : resultat (raster F) :=
  let '((l, c), lst) := entree in
  o <- val lst ;;
  match o with
  | Some v => setitem2 ras l c v
  | None => Ok ras
  end.

(** The ids listed in a mapping are indices of [valeurs]. *)
Definition ids_valides {F : Type} (mapping : map_pixels F) (n : nat) : Prop :=
  forall cle lst id a,
    In (cle, lst) mapping -> In (id, a) lst -> 0 <= id < Z.of_nat n.

(** ** Order of the entries of a surface mapping *)

(** Every key has at least one entry, the triangle ids of its entries are
    strictly increasing, and they lie in [0 .. n-1]. *)
Definition entrees_ordonnees {F : Type} (mapping : map_pixels F) (n : Z)
  : Prop :=
  forall cle lst, In (cle, lst) mapping ->
    lst <> []
    /\ StronglySorted Z.lt (map fst lst)
    /\ forall id a, In (id, a) lst -> 0 <= id < n.

(** A square cut in two triangles along a diagonal, on the 2 x 2 grid of
    [exemple_gt]: both triangles overlap the cells (0, 0) and (1, 1). *)
Definition exemple_points_carre : list (float * float * float) :=
  [(0.25%float, 0.25%float, 0%float); (1.75%float, 0.25%float, 0%float);
   (0.25%float, 1.75%float, 0%float); (1.75%float, 1.75%float, 0%float)].

Definition exemple_surface_carre : map_pixels float :=
  [((0, 0), [(0, 0.28125%float); (1, 0.28125%float)]);
   ((1, 0), [(0, 0.5625%float)]);
   ((1, 1), [(0, 0.28125%float); (1, 0.28125%float)]);
   ((0, 1), [(1, 0.5625%float)])].

(** ** Pixel of each triangle ([inverse_mapping], mapping.py) *)

(** The integers a numpy array with [dtype=int] holds. *)
Definition dans_int64 (z : Z) : bool := (- 2 ^ 63 <=? z) && (z <? 2 ^ 63).

(** One turn of [for id_tri in ids_triangles]: the row of a triangle is
    written when its first cell still holds -1. *)
Definition inverse_triangle (ligne colonne : Z) (tri_vers_pixel : list (Z * Z))
    (id_tri : Z) : resultat (list (Z * Z)) :=
  lc <- getitem tri_vers_pixel id_tri ;;
  if fst lc =? -1 then
    if dans_int64 ligne then
      t1 <- setitem tri_vers_pixel id_tri (ligne, snd lc) ;;
      if dans_int64 colonne then setitem t1 id_tri (ligne, colonne)
      else Leve OverflowError
    else Leve OverflowError
  else Ok tri_vers_pixel.

(** The array [(nb_triangles, 2)] is the list of its rows. *)
Definition inverse_mapping (mapping_pixel : dict (Z * Z) (list Z))
    (nb_triangles : Z) : resultat (list (Z * Z)) :=
  if nb_triangles <? 0 then Leve ValueError
  else
    pour mapping_pixel
      (fun t '((ligne, colonne), ids_triangles) =>
         pour ids_triangles (inverse_triangle ligne colonne) t)
      (repeat (-1, -1) (Z.to_nat nb_triangles)).

(** The first pixel, in iteration order, that lists triangle [id_tri]. *)
Definition premier_pixel (id_tri : Z) (mapping_pixel : dict (Z * Z) (list Z))
  : option (Z * Z) :=
  option_map fst
    (find (fun e => existsb (Z.eqb id_tri) (snd e)) mapping_pixel).

(** ** Alignment of the mesh on the raster ([_bbox_xy], [aligner_par_bbox]) *)

Section Alignement.
Context {F : Type} `{Flottant F}.

(** [x.min()] and [x.max()] of numpy on an array of floats: the first
    element, then each element in turn; a NaN, once met, stays; an empty
    array is a [ValueError]. *)
Definition np_min_nan (x : list F) : resultat F :=
  match x with
  | [] => Leve ValueError
  | a :: x' =>
      Ok (fold_left (fun m v => if fl_leb m v || fl_isnan m then m else v) x' a)
  end.

Definition np_max_nan (x : list F) : resultat F :=
  match x with
  | [] => Leve ValueError
  | a :: x' =>
      Ok (fold_left (fun m v => if fl_leb v m || fl_isnan m then m else v) x' a)
  end.

(** [pts] is an array of shape (N, 3), the list of its rows; with no row,
    [x.min()] raises [ValueError]. *)
Definition _bbox_xy (pts : list (F * F * F)) : resultat (F * F * F * F) :=
  let x := map (fun p => fst (fst p)) pts in
  let y := map (fun p => snd (fst p)) pts in
  x_min <- np_min_nan x ;;
  y_min <- np_min_nan y ;;
  x_max <- np_max_nan x ;;
  y_max <- np_max_nan y ;;
  Ok (x_min, y_min, x_max, y_max).

(** The literal [0.5]. *)
Definition fl_demi : F := fl_div (fl_of_Z 1) (fl_of_Z 2).

Definition aligner_par_bbox (pts : list (F * F * F)) (gt : geotransform F)
    (nb_lignes nb_colonnes : Z) : resultat (list (F * F * F) * (F * F)) :=
  let '(x0, pas_x, _, y0, _, pas_y) := gt in
  let x_min := x0 in
  let x_max := fl_add x0 (fl_mul (fl_of_Z nb_colonnes) pas_x) in
  let y_max := y0 in
  let y_min := fl_add y0 (fl_mul (fl_of_Z nb_lignes) pas_y) in
  let cx_r := fl_mul fl_demi (fl_add x_min x_max) in
  let cy_r := fl_mul fl_demi (fl_add y_min y_max) in
  bbox <- _bbox_xy pts ;;
  let '(x_min_m, y_min_m, x_max_m, y_max_m) := bbox in
  let cx_m := fl_mul fl_demi (fl_add x_min_m x_max_m) in
  let cy_m := fl_mul fl_demi (fl_add y_min_m y_max_m) in
  let tx := fl_sub cx_r cx_m in
  let ty := fl_sub cy_r cy_m in
  let pts2 := map (fun p => (fl_add (fst (fst p)) tx,
                             fl_add (snd (fst p)) ty, snd p)) pts in
  Ok (pts2, (tx, ty)).

End Alignement.

(** ** The triangle file ([lire_scene_triangle_cir]) *)

#[local] Open Scope string_scope.

(** The longest prefix of [s] made of characters that satisfy [p], and what
    follows it. *)
Fixpoint prefixe (p : ascii -> bool) (s : string) : string * string :=
  match s with
  | String c s' =>
      if p c then let '(a, r) := prefixe p s' in (String c a, r)
      else (EmptyString, s)
  | EmptyString => (EmptyString, EmptyString)
  end.

(** [re.match(r"^f(\d+)\s+(\d+)", s)]: the number of the second group when
    the line matches. *)
Definition facette_cir (s : string) : option Z :=
  match s with
  | String "f" r =>
      let '(d1, r1) := prefixe est_chiffre r in
      let '(b, r2) := prefixe est_blanc r1 in
      let '(d2, _) := prefixe est_chiffre r2 in
      match d1, b, d2 with
      | String _ _, String _ _, String _ _ =>
          option_map Z.of_N (lit_chiffres d2 0)
      | _, _, _ => None
      end
  | _ => None
  end.

(** What is left of [s] after [-?\d+(\.\d+)?], when [s] starts with it. *)
Definition nombre_re (s : string) : option string :=
  let s1 := match s with String "-" r => r | _ => s end in
  match prefixe est_chiffre s1 with
  | (String _ _, String "." r) =>
      match prefixe est_chiffre r with
      | (String _ _, r') => Some r'
      | (EmptyString, _) => Some (String "." r)
      end
  | (String _ _, r) => Some r
  | (EmptyString, _) => None
  end.

(** What is left of [s] after [\s+]. *)
Definition blancs_re (s : string) : option string :=
  match prefixe est_blanc s with
  | (String _ _, r) => Some r
  | (EmptyString, _) => None
  end.

(** [re.match(r"^-?\d+(\.\d+)?\s+-?\d+(\.\d+)?\s+-?\d+(\.\d+)?$", peek)] *)
Definition triplet_re (peek : string) : bool :=
  match nombre_re peek with
  | Some r1 =>
      match blancs_re r1 with
      | Some r2 =>
          match nombre_re r2 with
          | Some r3 =>
              match blancs_re r3 with
              | Some r4 =>
                  match nombre_re r4 with
                  | Some EmptyString => true
                  | _ => false
                  end
              | None => false
              end
          | None => false
          end
      | None => false
      end
  | None => false
  end.

(** The variables of the loop. *)
Record etat_cir : Type := {
  tailles_facettes : list Z;
  pts : list (float * float * float);
  tri : list (Z * Z * Z);
  dans_facette : bool;
  nb_attendu : option Z;
  nb_lu : Z
}.

(** Where the loop stands when it takes a line: at the top of the [while];
    just after a facet line, on the line it peeks at; just after a line
    [c...], on the line of [nb_pts]; or inside [for _ in range(nb_pts)] with
    [reste] turns to go. *)
Inductive mode_cir : Type :=
| Courant
| ApresFacette
| ApresC
| Points (reste : Z) (coords : list (float * float * float)).

(** The end of a block [c]: lines 216 to 229. *)
Definition fin_bloc (e : etat_cir) (coords : list (float * float * float))
  : etat_cir :=
  let e1 :=
    match coords with
    | c0 :: c1 :: c2 :: _ =>
        let i0 := Z.of_nat (length (pts e)) in
        {| tailles_facettes := tailles_facettes e;
           pts := (pts e ++ [c0; c1; c2])%list;
           tri := (tri e ++ [(i0, i0 + 1, i0 + 2)%Z])%list;
           dans_facette := dans_facette e;
           nb_attendu := nb_attendu e;
           nb_lu := (nb_lu e + 1)%Z |}
    | _ => e
    end in
  match nb_attendu e1 with
  | Some n =>
      if (n <=? nb_lu e1)%Z
      then {| tailles_facettes := tailles_facettes e1;
              pts := pts e1; tri := tri e1;
              dans_facette := false; nb_attendu := None;
              nb_lu := nb_lu e1 |}
      else e1
  | None => e1
  end.

(** A line taken at the top of the [while]: lines 178 to 199. *)
Definition ligne_courante (lig : string) (e : etat_cir) : mode_cir * etat_cir :=
  let s := strip lig in
  if String.eqb s "" then (Courant, e)
  else
    match facette_cir s with
    | Some n =>
        (ApresFacette,
         {| tailles_facettes := (tailles_facettes e ++ [n])%list;
            pts := pts e; tri := tri e;
            dans_facette := true; nb_attendu := Some n; nb_lu := 0 |})
    | None =>
        if dans_facette e && startswith s "c" then (ApresC, e)
        else (Courant, e)
    end.

(** A line of coordinates: lines 211 to 214. *)
Definition ligne_points (lig : string) (coords : list (float * float * float))
  : resultat (list (float * float * float)) :=
  match split (strip lig) with
  | x :: y :: z :: _ =>
      fx <- py_float x ;;
      fy <- py_float y ;;
      fz <- py_float z ;;
      Ok (coords ++ [(fx, fy, fz)])%list
  | _ => Ok coords
  end.

(** The [while] loop over the lines that remain. *)
Fixpoint boucle_cir (lignes : list string) (m : mode_cir) (e : etat_cir)
  : resultat etat_cir :=
  match lignes with
  | [] =>
      match m with
      | Points _ coords => Ok (fin_bloc e coords)
      | _ => Ok e
      end
  | lig :: reste =>
      let courant :=
        let '(m', e') := ligne_courante lig e in boucle_cir reste m' e' in
      match m with
      | Courant => courant
      | ApresFacette =>
          if triplet_re (strip lig) then boucle_cir reste Courant e
          else courant
      | ApresC =>
          match py_int (strip lig) with
          | Ok nb_pts =>
              if (nb_pts <=? 0)%Z then boucle_cir reste Courant (fin_bloc e [])
              else boucle_cir reste (Points nb_pts []) e
          | Leve _ => courant
          end
      | Points k coords =>
          coords' <- ligne_points lig coords ;;
          if (k <=? 1)%Z then boucle_cir reste Courant (fin_bloc e coords')
          else boucle_cir reste (Points (k - 1)%Z coords') e
      end
  end.

(** [lire_scene_triangle_cir] on the lines of the file:
    [(tailles_facettes, pts, tri)]. *)
Definition lire_scene_triangle_cir (fichier : list string)
  : resultat (list Z * list (float * float * float) * list (Z * Z * Z)) :=
  e <- boucle_cir fichier Courant
         {| tailles_facettes := []; pts := []; tri := [];
            dans_facette := false; nb_attendu := None; nb_lu := 0 |} ;;
  if forallb dans_int64 (tailles_facettes e)
  then Ok (tailles_facettes e, pts e, tri e)
  else Leve OverflowError.

(** The triangles of a mesh whose vertices are all duplicated: triangle [k]
    has the vertices [3k], [3k + 1] and [3k + 2]. *)
Definition triangles_dupliques (n : nat) : list (Z * Z * Z) :=
  map (fun k => (3 * Z.of_nat k, 3 * Z.of_nat k + 1, 3 * Z.of_nat k + 2)%Z)
      (seq 0 n).

#[local] Close Scope string_scope.

(** What the loop keeps true: inside a facet that announced [n] triangles,
    fewer than [max 1 n] were read; a block [c] is read inside a facet
    only. *)
Definition borne_cir (e : etat_cir) : Prop :=
  if dans_facette e then
    match nb_attendu e with
    | Some n =>
        0 <= nb_lu e < Z.max 1 n
        /\ Z.of_nat (length (tri e)) + (Z.max 1 n - nb_lu e)
           <= somme (map (Z.max 1) (tailles_facettes e))
    | None => False
    end
  else Z.of_nat (length (tri e)) <= somme (map (Z.max 1) (tailles_facettes e)).

Definition mode_facette (m : mode_cir) (e : etat_cir) : Prop :=
  match m with
  | ApresC | Points _ _ => dans_facette e = true
  | Courant | ApresFacette => True
  end.

(** ** Examples *)

Definition exemple_ras : raster float :=
  [[0.5%float; PrimFloat.nan; 2%float]].
Definition exemple_tri_px : map_triangles float :=
  [(0, [(0, 0, 0.25%float); (0, 1, 0.5%float); (0, 2, 0.75%float)]);
   (1, [(0, 1, 1%float)]);
   (2, [])].

Definition dixieme : Qc := Q2Qc (1 # 10).

Definition exemple_map_px : map_pixels float :=
  [((0, 0), [(0, 0.5%float); (1, 0.5%float)])].

Definition exemple_fichier_val : list string :=
  map (fun l => (l ++ nl)%string)
    ["1 1 1.00 1.00"; "f1 2"; "1.00"; "nan"]%string.

Definition exemple_gt : geotransform float :=
  (0%float, 1%float, 0%float, 2%float, 0%float, (-1)%float).

Definition exemple_points : list (float * float * float) :=
  [(0.25%float, 0.25%float, 0%float); (1.75%float, 0.25%float, 0%float);
   (0.25%float, 1.75%float, 0%float)].

Definition exemple_surface : map_pixels float :=
  [((0, 0), [(0, 0.28125%float)]); ((1, 0), [(0, 0.5625%float)]);
   ((1, 1), [(0, 0.28125%float)])].









Definition exemple_fichier_mh : list string :=
  map (fun l => (l ++ nl)%string)
    ["ncols 3"; "nrows 2"; "xllcorner 10.0"; "yllcorner 20"; "cellsize 0.5";
     "NODATA_value -1"; "1 2 9999"; "-1 5 6.5"]%string.

Definition exemple_raster_mh : raster float :=
  [[1%float; 2%float; PrimFloat.nan]; [PrimFloat.nan; 5%float; 6.5%float]].

Definition exemple_gt_mh : geotransform float :=
  (10%float, 0.5%float, 0%float, 21%float, 0%float, (-0.5)%float).

(** * Properties *)

(** ** Numbers *)

Lemma b64_isfinite_SF (x : float) :
  PrimFloat.is_finite x = true ->
  match Prim2SF x with
  | S754_nan | S754_infinity _ => False
  | _ => True
  end.
Proof.
  unfold PrimFloat.is_finite, PrimFloat.is_nan, PrimFloat.is_infinity.
  rewrite !FloatAxioms.eqb_spec, FloatAxioms.abs_spec.
  destruct (Prim2SF x) as [s| s| |s m e]; simpl; try easy; now destruct s.
Qed.

Lemma b64_entier_fini (arrondi : Z -> Z -> Z) (x : float) :
  PrimFloat.is_finite x = true -> exists z, b64_entier arrondi x = Ok z.
Proof.
  intros Hx. apply b64_isfinite_SF in Hx. unfold b64_entier.
  destruct (Prim2SF x); try contradiction; eauto.
Qed.

Lemma exact_entier_fini (arrondi : Z -> Z -> Z) (x : exact) :
  exact_isfinite x = true -> exists z, exact_entier arrondi x = Ok z.
Proof. destruct x; simpl; [eauto | discriminate]. Qed.

#[export] Instance FlottantLois_binary64 : FlottantLois float.
Proof. constructor. exact (b64_entier_fini _). Qed.

#[export] Instance FlottantLois_exact : FlottantLois exact.
Proof. constructor. exact (exact_entier_fini _). Qed.

(** ** Loops, indices and dictionaries *)

Lemma pour_app {A S} (l1 l2 : list A) (corps : S -> A -> resultat S) (s : S) :
  pour (l1 ++ l2) corps s = (s' <- pour l1 corps s ;; pour l2 corps s').
Proof.
  revert s. induction l1 as [|a l1 IH]; intros s; simpl; [reflexivity|].
  destruct (corps s a); simpl; auto.
Qed.

Lemma py_range_In (a b x : Z) : In x (py_range a b) <-> a <= x < b.
Proof.
  unfold py_range. rewrite in_map_iff. split.
  - intros (i & <- & Hi). apply in_seq in Hi. lia.
  - intros Hx. exists (Z.to_nat (x - a)). split; [lia|]. apply in_seq. lia.
Qed.

Lemma py_index_pos (n : nat) (i : Z) :
  0 <= i < Z.of_nat n -> py_index n i = Ok (Z.to_nat i).
Proof.
  intros Hi. unfold py_index.
  destruct (Z.leb_spec 0 i), (Z.ltb_spec i (Z.of_nat n)); simpl; auto; lia.
Qed.

Lemma remplace_length {A} (l : list A) (p : nat) (v : A) :
  length (remplace l p v) = length l.
Proof.
  revert p. induction l as [|a l IH]; intros [|p]; simpl; auto.
Qed.

Lemma remplace_meme {A} (l : list A) (p : nat) (v : A) :
  (p < length l)%nat -> nth_error (remplace l p v) p = Some v.
Proof.
  revert p. induction l as [|a l IH]; intros [|p] Hp; simpl in *;
    try lia; auto. apply IH. lia.
Qed.

Lemma remplace_autre {A} (l : list A) (p q : nat) (v : A) :
  p <> q -> nth_error (remplace l p v) q = nth_error l q.
Proof.
  revert p q. induction l as [|a l IH]; intros [|p] [|q] Hpq; simpl;
    auto; try congruence.
Qed.

Lemma getitem_pos {A} (l : list A) (i : Z) (v : A) :
  0 <= i -> nth_error l (Z.to_nat i) = Some v -> getitem l i = Ok v.
Proof.
  intros Hi Hv. unfold getitem.
  assert (Hlt : (Z.to_nat i < length l)%nat)
    by (apply nth_error_Some; congruence).
  rewrite py_index_pos by lia. simpl. now rewrite Hv.
Qed.

Section DictLemmes.
Context {K V : Type} `{Cle K}.

Lemma dict_get_set (d : dict K V) (k k' : K) (v : V) :
  dict_get (dict_set d k v) k' = if cle_dec k' k then Some v else dict_get d k'.
Proof.
  induction d as [|[k0 v0] d IH]; simpl.
  - destruct (cle_dec k' k); reflexivity.
  - destruct (cle_dec k k0) as [->|Hk]; simpl.
    + destruct (cle_dec k' k0); reflexivity.
    + destruct (cle_dec k' k0) as [->|Hk'].
      * destruct (cle_dec k0 k); congruence.
      * exact IH.
Qed.

End DictLemmes.

Lemma dict_get_append {K A} `{Cle K} (d : dict K (list A)) (k k' : K) (x : A) :
  dict_get (dict_append d k x) k' =
    if cle_dec k' k
    then Some (match dict_get d k with Some l => l | None => [] end ++ [x])
    else dict_get d k'.
Proof.
  induction d as [|[k0 l0] d IH]; simpl.
  - destruct (cle_dec k' k); reflexivity.
  - destruct (cle_dec k k0) as [->|Hk]; simpl.
    + destruct (cle_dec k' k0); reflexivity.
    + destruct (cle_dec k' k0) as [->|Hk'].
      * destruct (cle_dec k0 k); congruence.
      * exact IH.
Qed.

Lemma dict_keys_append {K A} `{Cle K} (d : dict K (list A)) (k k' : K) (x : A) :
  In k' (dict_keys (dict_append d k x)) -> k' = k \/ In k' (dict_keys d).
Proof.
  induction d as [|[k0 l0] d IH]; simpl.
  - intuition.
  - destruct (cle_dec k k0) as [->|Hk]; simpl; intuition.
Qed.

(** ** Mapping inversion *)

Section InversionLemmes.
Context {A : Type}.

Lemma fusion_app {X} (o : option (list X)) (l1 l2 : list X) :
  fusion (fusion o l1) l2 = fusion o (l1 ++ l2).
Proof.
  destruct o as [a|], l1 as [|x l1]; simpl.
  - now rewrite app_nil_r.
  - now rewrite <- app_assoc.
  - now destruct l2.
  - reflexivity.
Qed.

Lemma inverser_pixel_get (lig col : Z) (lst : list (Z * A))
    (tri_px : map_triangles A) (t : Z) :
  dict_get (inverser_pixel tri_px ((lig, col), lst)) t =
    fusion (dict_get tri_px t) (occurrences_liste t lig col lst).
Proof.
  unfold inverser_pixel. revert tri_px.
  induction lst as [|[id a] lst IH]; intros tri_px; simpl.
  - destruct (dict_get tri_px t); simpl; now rewrite ?app_nil_r.
  - rewrite IH, dict_get_append. unfold cle_dec, Cle_Z.
    destruct (Z.eq_dec t id) as [->|Hne]; [|reflexivity].
    destruct (dict_get tri_px id); simpl; now rewrite <- ?app_assoc.
Qed.

Lemma inverser_pixels_get (map_px : map_pixels A) (tri_px : map_triangles A)
    (t : Z) :
  dict_get (fold_left inverser_pixel map_px tri_px) t =
    fusion (dict_get tri_px t) (occurrences t map_px).
Proof.
  revert tri_px. unfold occurrences.
  induction map_px as [|[[lig col] lst] m IH]; intros tri_px;
    cbn [fold_left flat_map].
  - destruct (dict_get tri_px t); simpl; now rewrite ?app_nil_r.
  - now rewrite IH, inverser_pixel_get, fusion_app.
Qed.

Lemma completer_get (ids : list Z) (tri_px : map_triangles A) (t : Z) :
  dict_get (fold_left completer ids tri_px) t =
    if in_dec Z.eq_dec t ids
    then Some (match dict_get tri_px t with Some l => l | None => [] end)
    else dict_get tri_px t.
Proof.
  revert tri_px. induction ids as [|id ids IH]; intros tri_px; [reflexivity|].
  cbn [fold_left]. rewrite IH. unfold completer at 1 2.
  rewrite dict_get_set. unfold cle_dec, Cle_Z.
  destruct (in_dec Z.eq_dec t ids) as [Hin|Hnin];
    destruct (in_dec Z.eq_dec t (id :: ids)) as [Hin'|Hnin'];
    destruct (Z.eq_dec t id) as [->|Hne]; simpl in *;
    try reflexivity; try tauto.
  all: try (exfalso; apply Hnin'; auto; fail).
  all: try (destruct (dict_get tri_px id); reflexivity).
  all: try (destruct Hin'; congruence).
Qed.

Lemma present_occurrences (t : Z) (map_px : map_pixels A) :
  present t map_px = match occurrences t map_px with [] => false | _ => true end.
Proof.
  unfold present, occurrences.
  induction map_px as [|[[lig col] lst] m IH]; simpl; [reflexivity|].
  rewrite IH. clear IH.
  assert (Hl : existsb (fun '(id_tri, _) => t =? id_tri) lst =
               match occurrences_liste t lig col lst with
               | [] => false | _ => true end).
  { induction lst as [|[id a] lst IH]; simpl; [reflexivity|].
    destruct (Z.eq_dec t id) as [->|Hne].
    - now rewrite Z.eqb_refl.
    - apply Z.eqb_neq in Hne. now rewrite Hne. }
  rewrite Hl. now destruct (occurrences_liste t lig col lst).
Qed.

Lemma occurrences_In (t : Z) (map_px : map_pixels A) (lig col : Z) (aire : A) :
  In (lig, col, aire) (occurrences t map_px) <->
  exists lst, In ((lig, col), lst) map_px /\ In (t, aire) lst.
Proof.
  unfold occurrences. rewrite in_flat_map. split.
  - intros ([[l c] lst] & Hm & Hin). unfold occurrences_liste in Hin.
    apply in_flat_map in Hin as ([id a] & Hlst & Hin).
    destruct (Z.eq_dec t id) as [->|]; [|contradiction].
    destruct Hin as [[= -> -> ->]|[]]. eauto.
  - intros (lst & Hm & Hin). exists ((lig, col), lst). split; [assumption|].
    unfold occurrences_liste. apply in_flat_map. exists (t, aire).
    split; [assumption|]. destruct (Z.eq_dec t t); [now left|congruence].
Qed.

End InversionLemmes.

(** C3. [inverser_mapping] is total over the triangle ids: whatever the
    forward map and the triangle count, the result binds every triangle
    listed under some pixel to its occurrences (one entry [(ligne, colonne,
    aire)] per occurrence of [(t, aire)] under [(ligne, colonne)], in
    iteration order), every other id of [0 .. nb_triangles - 1] to the empty
    list, and nothing else. *)
Theorem inverser_mapping_total {A : Type} (map_px : map_pixels A)
    (nb_triangles t : Z) :
  dict_get (inverser_mapping map_px nb_triangles) t =
    (if present t map_px then Some (occurrences t map_px)
     else if (0 <=? t) && (t <? nb_triangles) then Some []
     else None)
  /\ (forall lig col aire,
        In (lig, col, aire) (occurrences t map_px) <->
        exists lst, In ((lig, col), lst) map_px /\ In (t, aire) lst).
Proof.
  split; [|intros; apply occurrences_In].
  unfold inverser_mapping. rewrite completer_get, inverser_pixels_get.
  rewrite present_occurrences. simpl dict_get.
  destruct (in_dec Z.eq_dec t (py_range 0 nb_triangles)) as [Hin|Hnin].
  - apply py_range_In in Hin.
    replace ((0 <=? t) && (t <? nb_triangles)) with true
      by (symmetry; apply andb_true_iff; split;
          [apply Z.leb_le|apply Z.ltb_lt]; lia).
    now destruct (occurrences t map_px).
  - replace ((0 <=? t) && (t <? nb_triangles)) with false.
    + now destruct (occurrences t map_px).
    + symmetry. apply not_true_is_false. intros Ht.
      apply andb_true_iff in Ht as [H1 H2].
      apply Z.leb_le in H1. apply Z.ltb_lt in H2.
      apply Hnin, py_range_In. lia.
Qed.

(** ** Cell-to-triangle aggregation *)

Section AgregationLemmes.
Context {F : Type} `{Flottant F}.

Lemma retenir_pixels (ras : raster F) (pixels : list (Z * Z * F))
    (vals poids : list F) :
  pixels_lisibles ras pixels ->
  pour pixels (retenir_pixel ras) (vals, poids) =
    Ok (vals ++ map fst (paires_finies ras pixels),
        poids ++ map snd (paires_finies ras pixels)).
Proof.
  unfold paires_finies. revert vals poids.
  induction pixels as [|[[lig col] aire] pixels IH]; intros vals poids Hl.
  - simpl. now rewrite !app_nil_r.
  - destruct (Hl lig col aire) as [v Hv]; [now left|].
    assert (Hl' : pixels_lisibles ras pixels)
      by (intros l c a Hin; apply (Hl l c a); now right).
    assert (Hvc : valeur_cellule ras lig col = v)
      by (unfold valeur_cellule; now rewrite Hv).
    cbn [pour map filter fst]. rewrite Hvc. unfold retenir_pixel at 1.
    rewrite Hv. cbn [lie].
    destruct (fl_isfinite v); cbn [negb lie map fst snd].
    + rewrite (IH _ _ Hl'), <- !app_assoc. reflexivity.
    + now rewrite (IH _ _ Hl').
Qed.

Lemma np_mul_paires (paires : list (F * F)) :
  np_mul (map fst paires) (map snd paires) =
    map (fun p => fl_mul (fst p) (snd p)) paires.
Proof.
  unfold np_mul. induction paires as [|[v a] l IH]; simpl; [reflexivity|].
  now rewrite IH.
Qed.

(** One triangle: the array changes at most at [id_tri], where it then holds
    the triangle's value; when it does not change, that value is [rempl]. *)
Lemma moyenne_triangle_effet (ras : raster F) (pondere : bool) (rempl : F)
    (val_tri : list F) (id_tri : Z) (pixels : list (Z * Z * F)) :
  pixels_lisibles ras pixels ->
  0 <= id_tri < Z.of_nat (length val_tri) ->
  exists val_tri',
    moyenne_triangle ras pondere val_tri (id_tri, pixels) = Ok val_tri'
    /\ length val_tri' = length val_tri
    /\ (forall q, q <> Z.to_nat id_tri ->
          nth_error val_tri' q = nth_error val_tri q)
    /\ (nth_error val_tri' (Z.to_nat id_tri)
          = Some (valeur_triangle ras pondere rempl pixels)
        \/ (val_tri' = val_tri
            /\ valeur_triangle ras pondere rempl pixels = rempl)).
Proof.
  intros Hl Hid.
  assert (Hset : forall v, exists val_tri',
             setitem val_tri id_tri v = Ok val_tri'
             /\ length val_tri' = length val_tri
             /\ (forall q, q <> Z.to_nat id_tri ->
                   nth_error val_tri' q = nth_error val_tri q)
             /\ nth_error val_tri' (Z.to_nat id_tri) = Some v).
  { intros v. unfold setitem. rewrite py_index_pos by assumption.
    eexists. split; [reflexivity|].
    split; [apply remplace_length|].
    split; [intros q Hq; apply remplace_autre; congruence|].
    apply remplace_meme. lia. }
  unfold moyenne_triangle, valeur_triangle.
  destruct pixels as [|px pixels]; [simpl; eauto 10|].
  rewrite (retenir_pixels ras (px :: pixels) [] [] Hl). cbn [lie app].
  set (paires := paires_finies ras (px :: pixels)).
  destruct paires as [|p paires'] eqn:Hp; [simpl; eauto 10|].
  cbn [map]. unfold reduction.
  destruct pondere.
  - change (snd p :: map snd paires') with (map snd (p :: paires')).
    destruct (fl_ltb fl_zero (np_sum (map snd (p :: paires')))).
    + destruct (Hset (moyenne_ponderee (p :: paires')))
        as (r & Hr & Hlen & Hq & Hv).
      exists r. unfold moyenne_ponderee in *.
      change (fst p :: map fst paires') with (map fst (p :: paires')).
      rewrite np_mul_paires. auto.
    + eauto 10.
  - destruct (Hset (moyenne_simple (p :: paires')))
      as (r & Hr & Hlen & Hq & Hv).
    exists r. unfold moyenne_simple in *. auto.
Qed.

Lemma moyenne_boucle (ras : raster F) (pondere : bool) (rempl : F)
    (tri_px : map_triangles F) (val_tri : list F) :
  NoDup (dict_keys tri_px) ->
  (forall id pixels, In (id, pixels) tri_px ->
     0 <= id < Z.of_nat (length val_tri) /\ pixels_lisibles ras pixels) ->
  exists r,
    pour tri_px (moyenne_triangle ras pondere) val_tri = Ok r
    /\ length r = length val_tri
    /\ (forall q, ~ In (Z.of_nat q) (dict_keys tri_px) ->
          nth_error r q = nth_error val_tri q)
    /\ (forall id pixels, In (id, pixels) tri_px ->
          nth_error val_tri (Z.to_nat id) = Some rempl ->
          nth_error r (Z.to_nat id)
            = Some (valeur_triangle ras pondere rempl pixels)).
Proof.
  revert val_tri.
  induction tri_px as [|[id pixels] l IH]; intros val_tri Hnd Hwf.
  - simpl. exists val_tri. repeat split; auto. intros ? ? [].
  - apply NoDup_cons_iff in Hnd as [Hnotin Hnd]. simpl in Hnotin.
    destruct (Hwf id pixels (or_introl eq_refl)) as [Hid Hl].
    destruct (moyenne_triangle_effet ras pondere rempl val_tri id pixels Hl Hid)
      as (v1 & Hv1 & Hlen1 & Hq1 & Hcas).
    destruct (IH v1 Hnd) as (r & Hr & Hlen & Hq & Hval).
    { intros id' px' Hin. rewrite Hlen1. apply Hwf. now right. }
    exists r. cbn [pour]. rewrite Hv1. cbn [lie].
    split; [assumption|]. split; [congruence|]. split.
    + intros q Hnq. simpl in Hnq. rewrite Hq by tauto. apply Hq1.
      intros ->. apply Hnq. left. lia.
    + intros id' px' [[= -> ->]|Hin] Hinit.
      * rewrite Hq by (rewrite Z2Nat.id by lia; assumption).
        destruct Hcas as [Hc|[-> Hc]]; [assumption|]. now rewrite Hc.
      * apply (Hval id' px' Hin). rewrite Hq1; [assumption|].
        assert (Hid' : 0 <= id') by (apply (Hwf id' px'); now right).
        intros Heq. apply Hnotin. apply Z2Nat.inj in Heq; try lia. subst id'.
        apply (in_map fst) in Hin. exact Hin.
Qed.

(** The result of the whole pass, for any value of [rempl]. *)
Lemma moyenne_pixels_par_triangle_valeurs (ras : raster F)
    (tri_px : map_triangles F) (pondere : bool) (rempl : F) :
  NoDup (dict_keys tri_px) ->
  (forall id pixels, In (id, pixels) tri_px ->
     0 <= id < Z.of_nat (length tri_px) /\ pixels_lisibles ras pixels) ->
  exists val_tri,
    moyenne_pixels_par_triangle ras tri_px pondere rempl = Ok val_tri
    /\ length val_tri = length tri_px
    /\ forall id pixels, In (id, pixels) tri_px ->
         getitem val_tri id
           = Ok (valeur_triangle ras pondere rempl pixels).
Proof.
  intros Hnd Hwf. unfold moyenne_pixels_par_triangle, np_full.
  destruct (moyenne_boucle ras pondere rempl tri_px
              (repeat rempl (length tri_px)) Hnd)
    as (r & Hr & Hlen & _ & Hval).
  { now rewrite repeat_length. }
  rewrite repeat_length in Hlen.
  exists r. split; [assumption|]. split; [assumption|].
  intros id pixels Hin. destruct (Hwf id pixels Hin) as [Hid _].
  apply getitem_pos; [lia|]. apply (Hval id pixels Hin).
  apply nth_error_repeat. lia.
Qed.

End AgregationLemmes.

(** C1. Cell-to-triangle aggregation.  For a triangle-to-pixels map whose
    keys are the triangle ids [0 .. n-1] (what [inverser_mapping] returns)
    and whose pixels lie in the raster, [moyenne_pixels_par_triangle] with
    its default [rempl] (NaN) returns, for every triangle id of the map, the
    [reduction] of the pairs (cell value, area) that are left once the pairs
    with a non-finite cell value are discarded: in weighted mode the sum of
    value * area divided by the sum of the areas, assigned only when the sum
    of the areas is > 0; in unweighted mode the arithmetic mean of the
    values; and NaN when no pair is left or, in weighted mode, when the sum
    of the areas is not > 0. *)
Theorem moyenne_pixels_par_triangle_correct {F : Type} `{Flottant F}
    (ras : raster F) (tri_px : map_triangles F) (pondere : bool) :
  NoDup (dict_keys tri_px) ->
  (forall id pixels, In (id, pixels) tri_px ->
     0 <= id < Z.of_nat (length tri_px) /\ pixels_lisibles ras pixels) ->
  exists val_tri,
    moyenne_pixels_par_triangle ras tri_px pondere fl_nan = Ok val_tri
    /\ length val_tri = length tri_px
    /\ forall id pixels, In (id, pixels) tri_px ->
         let paires := paires_finies ras pixels in
         getitem val_tri id =
           Ok (match paires with
               | [] => fl_nan
               | _ :: _ =>
                   if pondere then
                     if fl_ltb fl_zero (np_sum (map snd paires))
                     then fl_div
                            (np_sum (map (fun p => fl_mul (fst p) (snd p)) paires))
                            (np_sum (map snd paires))
                     else fl_nan
                   else fl_div (np_sum (map fst paires))
                               (fl_of_Z (Z.of_nat (length paires)))
               end).
Proof.
  intros Hnd Hwf.
  destruct (moyenne_pixels_par_triangle_valeurs ras tri_px pondere fl_nan
              Hnd Hwf) as (val_tri & Hr & Hlen & Hval).
  exists val_tri. split; [assumption|]. split; [assumption|].
  intros id pixels Hin paires. rewrite (Hval id pixels Hin).
  unfold valeur_triangle, reduction, moyenne_ponderee, moyenne_simple, np_mean.
  fold paires. destruct paires; [reflexivity|]. now rewrite length_map.
Qed.

Lemma moyenne_pixels_par_triangle_temoin :
  exists val_tri,
    moyenne_pixels_par_triangle exemple_ras exemple_tri_px true PrimFloat.nan
      = Ok val_tri
    /\ length val_tri = 3%nat
    /\ getitem val_tri 0 = Ok 1.625%float
    /\ getitem val_tri 1 = Ok PrimFloat.nan
    /\ getitem val_tri 2 = Ok PrimFloat.nan.
Proof.
  destruct (moyenne_pixels_par_triangle_correct exemple_ras exemple_tri_px true)
    as (val_tri & Hr & Hlen & Hval).
  - repeat constructor; simpl; intuition discriminate.
  - intros id pixels Hin. split.
    + destruct Hin as [[= <- <-]|[[= <- <-]|[[= <- <-]|[]]]]; simpl; lia.
    + intros lig col aire Hpx.
      destruct Hin as [[= <- <-]|[[= <- <-]|[[= <- <-]|[]]]];
        simpl in Hpx; intuition;
        match goal with
        | E : (_, _, _) = (_, _, _) |- _ => injection E as <- <- <-
        end; eexists; reflexivity.
  - exists val_tri. split; [exact Hr|]. split; [exact Hlen|].
    split; [|split].
    + apply (Hval 0 _ (or_introl eq_refl)).
    + apply (Hval 1 _ (or_intror (or_introl eq_refl))).
    + apply (Hval 2 _ (or_intror (or_intror (or_introl eq_refl)))).
Defined.

(** ** Aggregation of a constant field *)

Lemma paires_finies_constant {F : Type} `{Flottant F} (ras : raster F) (C : F)
    (pixels : list (Z * Z * F)) :
  raster_constant ras C ->
  pixels_lisibles ras pixels ->
  paires_finies ras pixels = map (fun a => (C, a)) (aires_finies ras pixels).
Proof.
  intros Hc Hl. unfold aires_finies, paires_finies.
  induction pixels as [|[[lig col] aire] pixels IH]; [reflexivity|].
  assert (Hl' : pixels_lisibles ras pixels)
    by (intros l c a Hin; apply (Hl l c a); now right).
  destruct (Hl lig col aire) as [v Hv]; [now left|].
  assert (Hvc : valeur_cellule ras lig col = v)
    by (unfold valeur_cellule; now rewrite Hv).
  cbn [map filter fst]. rewrite Hvc.
  destruct (fl_isfinite v) eqn:Hf; cbn [map snd]; rewrite <- (IH Hl'); auto.
  now rewrite (Hc lig col v Hv Hf).
Qed.

(** *** In exact arithmetic *)

Lemma np_sum_exact (qs : list Qc) (q0 : Qc) :
  fold_left fl_add (map Fini qs) (Fini q0)
    = Fini (fold_left Qcplus qs q0).
Proof.
  revert q0. induction qs as [|q qs IH]; intros q0; simpl; auto.
Qed.

Lemma somme_positive (qs : list Qc) (q0 : Qc) :
  (forall q, In q qs -> (0 < q)%Qc) -> (0 <= q0)%Qc ->
  (q0 <= fold_left Qcplus qs q0)%Qc.
Proof.
  revert q0. induction qs as [|q qs IH]; intros q0 Hpos Hq0; simpl.
  - apply Qcle_refl.
  - assert (Hq : (0 < q)%Qc) by (apply Hpos; now left).
    assert (Hle : (q0 <= q0 + q)%Qc).
    { rewrite <- (Qcplus_0_r q0) at 1. apply Qcplus_le_compat.
      - apply Qcle_refl.
      - now apply Qclt_le_weak. }
    eapply Qcle_trans; [exact Hle|]. apply IH.
    + intros q' Hin. apply Hpos. now right.
    + eapply Qcle_trans; eassumption.
Qed.

Lemma somme_produits (c : Qc) (qs : list Qc) (q0 : Qc) :
  fold_left Qcplus (map (Qcmult c) qs) (c * q0)%Qc
    = (c * fold_left Qcplus qs q0)%Qc.
Proof.
  revert q0. induction qs as [|q qs IH]; intros q0; simpl; [reflexivity|].
  rewrite <- IH. f_equal. ring.
Qed.

(** Positive exact areas are rationals. *)
Lemma aires_positives_finies (aires : list exact) :
  (forall a, In a aires -> fl_ltb fl_zero a = true) ->
  exists qs, aires = map Fini qs /\ forall q, In q qs -> (0 < q)%Qc.
Proof.
  induction aires as [|a aires IH]; intros Hpos.
  - exists []. split; [reflexivity|intros ? []].
  - destruct IH as (qs & -> & Hqs); [intros; apply Hpos; now right|].
    assert (Ha := Hpos a (or_introl eq_refl)).
    destruct a as [q|]; [|discriminate].
    cbn [fl_ltb fl_zero Flottant_exact exact_cmp] in Ha.
    exists (q :: qs). split; [reflexivity|].
    intros q' [<-|Hin]; [|now apply Hqs].
    change ((0 ?= q)%Qc = Lt). destruct (0 ?= q)%Qc; congruence.
Qed.

Lemma np_sum_Fini (qs : list Qc) :
  np_sum (map Fini qs) = Fini (fold_left Qcplus qs 0%Qc).
Proof. unfold np_sum. apply np_sum_exact. Qed.

Lemma moyenne_ponderee_constante (c : Qc) (aires : list exact) :
  (forall a, In a aires -> fl_ltb fl_zero a = true) ->
  reduction true Indefini (map (fun a => (Fini c, a)) aires)
    = match aires with [] => Indefini | _ :: _ => Fini c end.
Proof.
  intros Hpos. destruct (aires_positives_finies aires Hpos) as (qs & -> & Hqs).
  destruct qs as [|q qs]; [reflexivity|].
  set (l := q :: qs) in *.
  set (paires := map (fun a => (Fini c, a)) (map Fini l)).
  assert (E1 : map snd paires = map Fini l).
  { unfold paires. rewrite !map_map. now apply map_ext. }
  assert (E2 : map (fun p => fl_mul (fst p) (snd p)) paires
               = map Fini (map (Qcmult c) l)).
  { unfold paires. rewrite !map_map. now apply map_ext. }
  assert (Hs : (0 < fold_left Qcplus l 0)%Qc).
  { unfold l. cbn [fold_left].
    assert (Hq : (0 < q)%Qc) by (apply Hqs; now left).
    assert (Hq' : (0 < 0 + q)%Qc) by now rewrite Qcplus_0_l.
    eapply Qclt_le_trans; [exact Hq'|]. apply somme_positive.
    - intros q' Hin. apply Hqs. now right.
    - now apply Qclt_le_weak. }
  assert (Hp : fold_left Qcplus (map (Qcmult c) l) 0%Qc
               = (c * fold_left Qcplus l 0)%Qc).
  { rewrite <- somme_produits. f_equal. ring. }
  unfold reduction, moyenne_ponderee.
  destruct paires as [|p paires'] eqn:Ep; [discriminate|].
  rewrite E1, E2, !np_sum_Fini, Hp.
  set (s := fold_left Qcplus l 0%Qc) in *.
  change (fl_zero (F := exact)) with (Fini 0%Qc).
  cbn [fl_ltb fl_div Flottant_exact exact_cmp exact_div].
  replace (0 ?= s)%Qc with Lt by (symmetry; exact Hs).
  destruct (Qc_eq_dec s 0) as [E|E].
  - exfalso. rewrite E in Hs. apply (Qclt_not_le _ _ Hs). apply Qcle_refl.
  - apply (f_equal Fini). field. exact E.
Qed.

Lemma getitem_In {A} (l : list A) (i : Z) (a : A) :
  getitem l i = Ok a -> In a l.
Proof.
  unfold getitem. destruct (py_index (length l) i) as [p|]; [|discriminate].
  simpl. destruct (nth_error l p) eqn:E; [|discriminate].
  intros [= <-]. eapply nth_error_In. eassumption.
Qed.

Lemma getitem2_In {F : Type} (ras : raster F) (lig col : Z) (v : F) :
  getitem2 ras lig col = Ok v -> exists ligne, In ligne ras /\ In v ligne.
Proof.
  unfold getitem2. destruct (getitem ras lig) as [ligne|] eqn:E; [|discriminate].
  simpl. intros Hv. exists ligne. split; eapply getitem_In; eassumption.
Qed.

(** The weighted aggregate of a constant field, in any arithmetic: the
    constant enters the result through the areas of the finite cells only. *)
Lemma idempotence_formule {F : Type} `{Flottant F} (ras : raster F)
    (tri_px : map_triangles F) (C : F) :
  NoDup (dict_keys tri_px) ->
  (forall id pixels, In (id, pixels) tri_px ->
     0 <= id < Z.of_nat (length tri_px) /\ pixels_lisibles ras pixels) ->
  raster_constant ras C ->
  exists val_tri,
    moyenne_pixels_par_triangle ras tri_px true fl_nan = Ok val_tri
    /\ forall id pixels, In (id, pixels) tri_px ->
         getitem val_tri id =
           Ok (reduction true fl_nan
                 (map (fun a => (C, a)) (aires_finies ras pixels))).
Proof.
  intros Hnd Hwf Hc.
  destruct (moyenne_pixels_par_triangle_valeurs ras tri_px true fl_nan Hnd Hwf)
    as (val_tri & Hr & _ & Hval).
  exists val_tri. split; [assumption|]. intros id pixels Hin.
  rewrite (Hval id pixels Hin). unfold valeur_triangle.
  now rewrite (paires_finies_constant ras C pixels Hc (proj2 (Hwf _ _ Hin))) at 1.
Qed.

(** C7, as amended.  Aggregating with the area-weighted mean a raster whose
    finite cells all hold the same constant [C]:
    - in binary64, a triangle with no finite overlapping cell gets NaN; a
      triangle with one to seven of them gets the quotient of the two sums
      that numpy accumulates from left to right,
      (sum of C * area) / (sum of area), when the sum of the areas is > 0,
      and NaN otherwise; this quotient is not always [C];
    - in exact arithmetic and with positive areas, a triangle with at least
      one finite overlapping cell gets exactly [C], a triangle with none the
      undefined value. *)
Theorem idempotence_ponderee :
  (forall (ras : raster float) (tri_px : map_triangles float) (C : float),
     NoDup (dict_keys tri_px) ->
     (forall id pixels, In (id, pixels) tri_px ->
        0 <= id < Z.of_nat (length tri_px) /\ pixels_lisibles ras pixels) ->
     raster_constant ras C ->
     exists val_tri,
       moyenne_pixels_par_triangle ras tri_px true PrimFloat.nan = Ok val_tri
       /\ forall id pixels, In (id, pixels) tri_px ->
            let aires := aires_finies ras pixels in
            (length aires < 8)%nat ->
            getitem val_tri id =
              Ok (match aires with
                  | [] => PrimFloat.nan
                  | _ :: _ =>
                      if PrimFloat.ltb 0 (np_sum aires)
                      then PrimFloat.div (np_sum (map (PrimFloat.mul C) aires))
                                         (np_sum aires)
                      else PrimFloat.nan
                  end))
  /\
  (forall (ras : raster exact) (tri_px : map_triangles exact) (c : Qc),
     NoDup (dict_keys tri_px) ->
     (forall id pixels, In (id, pixels) tri_px ->
        0 <= id < Z.of_nat (length tri_px) /\ pixels_lisibles ras pixels) ->
     raster_constant ras (Fini c) ->
     (forall id pixels lig col aire,
        In (id, pixels) tri_px -> In (lig, col, aire) pixels ->
        fl_ltb fl_zero aire = true) ->
     exists val_tri,
       moyenne_pixels_par_triangle ras tri_px true Indefini = Ok val_tri
       /\ forall id pixels, In (id, pixels) tri_px ->
            getitem val_tri id =
              Ok (match aires_finies ras pixels with
                  | [] => Indefini
                  | _ :: _ => Fini c
                  end)).
Proof.
  split.
  - intros ras tri_px C Hnd Hwf Hc.
    destruct (idempotence_formule ras tri_px C Hnd Hwf Hc)
      as (val_tri & Hr & Hval).
    exists val_tri. split; [exact Hr|]. intros id pixels Hin aires _.
    rewrite (Hval id pixels Hin). fold aires. f_equal.
    destruct aires as [|a aires']; [reflexivity|].
    unfold reduction, moyenne_ponderee.
    set (l := a :: aires').
    replace (map snd (map (fun x => (C, x)) l)) with l
      by (rewrite map_map; simpl; now rewrite map_id).
    replace (map (fun p => fl_mul (fst p) (snd p)) (map (fun x => (C, x)) l))
      with (map (PrimFloat.mul C) l) by (now rewrite map_map).
    reflexivity.
  - intros ras tri_px c Hnd Hwf Hc Hpos.
    destruct (idempotence_formule ras tri_px (Fini c) Hnd Hwf Hc)
      as (val_tri & Hr & Hval).
    exists val_tri. split; [exact Hr|]. intros id pixels Hin.
    rewrite (Hval id pixels Hin). f_equal.
    apply moyenne_ponderee_constante.
    intros a Ha. unfold aires_finies, paires_finies in Ha.
    apply in_map_iff in Ha as ([v a'] & <- & Ha).
    apply filter_In in Ha as [Ha _].
    apply in_map_iff in Ha as ([[lig col] aire] & [= _ <-] & Ha).
    exact (Hpos id pixels lig col aire Hin Ha).
Qed.

Lemma idempotence_ponderee_temoin :
  (exists val_tri,
     moyenne_pixels_par_triangle [[Fini dixieme]]
       [(0, [(0, 0, Fini (Q2Qc 3))]); (1, [])] true Indefini = Ok val_tri
     /\ getitem val_tri 0 = Ok (Fini dixieme)
     /\ getitem val_tri 1 = Ok Indefini)
  /\
  (exists val_tri,
     moyenne_pixels_par_triangle [[0.1%float]]
       [(0, [(0, 0, 3%float)]); (1, [])] true PrimFloat.nan = Ok val_tri
     /\ getitem val_tri 0 = Ok 0.10000000000000002%float
     /\ getitem val_tri 1 = Ok PrimFloat.nan).
Proof.
  split.
  - destruct (proj2 idempotence_ponderee [[Fini dixieme]]
                [(0, [(0, 0, Fini (Q2Qc 3))]); (1, [])] dixieme)
      as (val_tri & Hr & Hval).
    + repeat constructor; simpl; intuition discriminate.
    + intros id pixels [[= <- <-]|[[= <- <-]|[]]]; (split; [simpl; lia|]);
        intros lig col aire Hpx; simpl in Hpx; intuition.
      injection H as <- <- <-. eexists. reflexivity.
    + intros lig col v Hv _.
      apply getitem2_In in Hv as (ligne & [<-|[]] & [<-|[]]). reflexivity.
    + intros id pixels lig col aire [[= <- <-]|[[= <- <-]|[]]] Hpx;
        simpl in Hpx; intuition.
      injection H as <- <- <-. reflexivity.
    + exists val_tri. split; [exact Hr|]. split.
      * apply (Hval 0 _ (or_introl eq_refl)).
      * apply (Hval 1 _ (or_intror (or_introl eq_refl))).
  - destruct (proj1 idempotence_ponderee [[0.1%float]]
                [(0, [(0, 0, 3%float)]); (1, [])] 0.1%float)
      as (val_tri & Hr & Hval).
    + repeat constructor; simpl; intuition discriminate.
    + intros id pixels [[= <- <-]|[[= <- <-]|[]]]; (split; [simpl; lia|]);
        intros lig col aire Hpx; simpl in Hpx; intuition.
      injection H as <- <- <-. eexists. reflexivity.
    + intros lig col v Hv _.
      apply getitem2_In in Hv as (ligne & [<-|[]] & [<-|[]]). reflexivity.
    + exists val_tri. split; [exact Hr|]. split.
      * rewrite (Hval 0 _ (or_introl eq_refl)); [reflexivity|simpl; lia].
      * rewrite (Hval 1 _ (or_intror (or_introl eq_refl)));
          [reflexivity|simpl; lia].
Defined.

(** C7, as stated, fails in binary64: a raster whose one cell holds 0.1 and a
    triangle that overlaps it with area 3 give 0.10000000000000002; with the
    constant 1e308 and the area 4 the product overflows and the triangle
    gets an infinity; with the constant 5e-324 and the area 0.5 the product
    underflows and the triangle gets 0. *)
Lemma idempotence_ponderee_contre_exemple :
  (moyenne_pixels_par_triangle [[0.1%float]] [(0, [(0, 0, 3%float)])]
     true PrimFloat.nan = Ok [0.10000000000000002%float]
   /\ PrimFloat.eqb 0.10000000000000002 0.1 = false)
  /\ moyenne_pixels_par_triangle [[1e308%float]] [(0, [(0, 0, 4%float)])]
       true PrimFloat.nan = Ok [PrimFloat.infinity]
  /\ moyenne_pixels_par_triangle [[5e-324%float]] [(0, [(0, 0, 0.5%float)])]
       true PrimFloat.nan = Ok [0%float].
Proof. repeat split; reflexivity. Qed.

(** C2 at a failing input.  A scalar file with the values 1.00 and nan, and
    one pixel overlapped by the two triangles: [lire_val] reads 1.0 and NaN;
    the weighted mode of [sm_vers_mh_raster] leaves the NaN out and gives
    1.0, its unweighted mode averages the NaN in and gives NaN; and
    [projette_triangles_surface], which leaves out NaN only, gives infinity
    when the second value is infinite. *)
Theorem sm_vers_mh_raster_non_fini :
  lire_val exemple_fichier_val = Ok [1%float; PrimFloat.nan]
  /\ sm_vers_mh_raster 1 1 exemple_map_px [1%float; PrimFloat.nan] true
    = Ok [[1%float]]
  /\ sm_vers_mh_raster 1 1 exemple_map_px [1%float; PrimFloat.nan] false
    = Ok [[PrimFloat.nan]]
  /\ projette_triangles_surface [1%float; infinity] exemple_map_px 1 1
       PrimFloat.nan = Ok [[infinity]].
Proof. repeat split; reflexivity. Qed.

(** ** Grid indexing *)

(** C6 at a failing input.  On the 2 x 2 grid of origin (0, 2) and unit
    cells, the point (-0.5, 2.5) lies left of and above the grid, in the cell
    of indices (-1, -1); [xy_vers_pixel] truncates the quotients towards zero
    and answers (0, 0), so that [mapping_barycentre] binds a triangle with
    this barycentre to the corner pixel. *)
Theorem xy_vers_pixel_tronque :
  xy_vers_pixel (-0.5)%float 2.5%float exemple_gt = Ok (0, 0)
  /\ pixel_contenant (-0.5)%float 2.5%float exemple_gt = Ok (-1, -1)
  /\ mapping_barycentre
       [((-1)%float, 2%float, 0%float); (0%float, 2%float, 0%float);
        ((-0.5)%float, 3.5%float, 0%float)]
       [(0, 1, 2)] exemple_gt 2 2 = Ok [((0, 0), [0])].
Proof. repeat split; reflexivity. Qed.

(** ** The mappers *)

Lemma pour_invariant {A S} (P : S -> Prop) (corps : S -> A -> resultat S)
    (l : list A) (s0 s : S) :
  (forall s1 a s2, In a l -> P s1 -> corps s1 a = Ok s2 -> P s2) ->
  P s0 -> pour l corps s0 = Ok s -> P s.
Proof.
  revert s0. induction l as [|a l IH]; intros s0 Hc H0 Hp; simpl in Hp.
  - now injection Hp as <-.
  - destruct (corps s0 a) as [s1|] eqn:E; [|discriminate]. simpl in Hp.
    apply (IH s1); auto.
    + intros s2 b s3 Hb. apply Hc. now right.
    + apply (Hc s0 a s1); auto. now left.
Qed.

Lemma fold_left_invariant {A S} (P : S -> Prop) (f : S -> A -> S)
    (l : list A) (s0 : S) :
  (forall s a, In a l -> P s -> P (f s a)) -> P s0 -> P (fold_left f l s0).
Proof.
  revert s0. induction l as [|a l IH]; intros s0 Hf H0; simpl; auto.
  apply IH.
  - intros s b Hb. apply Hf. now right.
  - apply Hf; auto. now left.
Qed.

Lemma cles_dans_grille_append {V} (nb_lignes nb_colonnes : Z)
    (m : dict (Z * Z) (list V)) (l c : Z) (x : V) :
  cles_dans_grille nb_lignes nb_colonnes m ->
  0 <= l < nb_lignes -> 0 <= c < nb_colonnes ->
  cles_dans_grille nb_lignes nb_colonnes (dict_append m (l, c) x).
Proof.
  intros Hm Hl Hc l' c' Hin.
  apply dict_keys_append in Hin as [[= -> ->]|Hin]; auto.
Qed.

Section CartographieLemmes.
Context {F : Type} `{Flottant F} `{Shapely F}.

Lemma indices_candidats_bornes (gt : geotransform F) (nb_lignes nb_colonnes : Z)
    (bornes : boite F) (col_min lig_min col_max lig_max : Z) :
  indices_candidats gt nb_lignes nb_colonnes bornes
    = Ok (col_min, lig_min, col_max, lig_max) ->
  0 <= col_min /\ 0 <= lig_min
  /\ col_max <= nb_colonnes - 1 /\ lig_max <= nb_lignes - 1.
Proof.
  unfold indices_candidats.
  destruct gt as [[[[[x0 dx] rx] y0] ry] dy].
  destruct bornes as [[[minx miny] maxx] maxy].
  repeat match goal with
         | |- context [lie ?c _] => destruct c; cbn [lie]; [|discriminate]
         end.
  intros [= <- <- <- <-]. lia.
Qed.

Lemma surface_cellules_cles (gt : geotransform F) (poly_tri : triangle2 F)
    (id_tri : Z) (nb_lignes nb_colonnes : Z)
    (col_min lig_min col_max lig_max : Z) (m : map_pixels F) :
  0 <= col_min -> 0 <= lig_min ->
  col_max <= nb_colonnes - 1 -> lig_max <= nb_lignes - 1 ->
  cles_dans_grille nb_lignes nb_colonnes m ->
  cles_dans_grille nb_lignes nb_colonnes
    (surface_cellules gt poly_tri id_tri (col_min, lig_min, col_max, lig_max) m).
Proof.
  intros Hc0 Hl0 Hc1 Hl1 Hm. unfold surface_cellules.
  apply fold_left_invariant; [|assumption].
  intros m1 ligne Hl Hm1. apply py_range_In in Hl.
  apply fold_left_invariant; [|assumption].
  intros m2 colonne Hc Hm2. apply py_range_In in Hc.
  unfold surface_cellule.
  destruct (intersection_area _ _) as [aire|]; [|assumption].
  destruct (fl_leb aire fl_zero); [assumption|].
  apply cles_dans_grille_append; auto; lia.
Qed.

End CartographieLemmes.

(** C9. Whatever the mesh, the geotransform and the raster shape, every key
    [(ligne, colonne)] of the dictionary that [mapping_surface] returns, and
    every key of the dictionary that [mapping_barycentre] returns, is a cell
    of the raster: [0 <= ligne < nb_lignes] and [0 <= colonne < nb_colonnes]. *)
Theorem cles_dans_le_raster {F : Type} `{Flottant F} `{Shapely F}
    (points : list (F * F * F)) (triangles : list (Z * Z * Z))
    (gt : geotransform F) (nb_lignes nb_colonnes : Z) :
  (forall mapping,
     mapping_surface points triangles gt nb_lignes nb_colonnes = Ok mapping ->
     forall ligne colonne, In (ligne, colonne) (dict_keys mapping) ->
       0 <= ligne < nb_lignes /\ 0 <= colonne < nb_colonnes)
  /\
  (forall mapping,
     mapping_barycentre points triangles gt nb_lignes nb_colonnes = Ok mapping ->
     forall ligne colonne, In (ligne, colonne) (dict_keys mapping) ->
       0 <= ligne < nb_lignes /\ 0 <= colonne < nb_colonnes).
Proof.
  split; intros mapping Hm.
  - unfold mapping_surface in Hm.
    apply (pour_invariant (cles_dans_grille nb_lignes nb_colonnes)) in Hm;
      [exact Hm| |intros l c []].
    intros m1 [id_tri tri] m2 _ Hm1. unfold surface_triangle.
    destruct (sommets points tri) as [poly_tri|]; cbn [lie]; [|discriminate].
    destruct (polygon_is_empty poly_tri || _); [now intros [= <-]|].
    destruct (indices_candidats _ _ _ _) as [[[[cmin lmin] cmax] lmax]|] eqn:E;
      cbn [lie]; [|discriminate].
    intros [= <-]. apply indices_candidats_bornes in E.
    apply surface_cellules_cles; intuition.
  - unfold mapping_barycentre in Hm.
    destruct (pour triangles _ []) as [triangles_xy|]; cbn [lie] in Hm;
      [|discriminate].
    apply (pour_invariant (cles_dans_grille nb_lignes nb_colonnes)) in Hm;
      [exact Hm| |intros l c []].
    intros m1 [id_tri [x y]] m2 _ Hm1. unfold barycentre_triangle.
    destruct (xy_vers_pixel x y gt) as [[ligne colonne]|]; cbn [lie];
      [|discriminate].
    destruct ((0 <=? ligne) && (ligne <? nb_lignes) && (0 <=? colonne)
              && (colonne <? nb_colonnes)) eqn:E; cbn [negb];
      intros [= <-]; [|assumption].
    apply cles_dans_grille_append; auto; lia.
Qed.

Lemma cles_dans_le_raster_temoin :
  mapping_surface exemple_points [(0, 1, 2)] exemple_gt 2 2 = Ok exemple_surface
  /\ mapping_barycentre exemple_points [(0, 1, 2)] exemple_gt 2 2
     = Ok [((1, 0), [0])]
  /\ (0 <= 1 < 2 /\ 0 <= 1 < 2)
  /\ (0 <= 1 < 2 /\ 0 <= 0 < 2).
Proof.
  assert (Es : mapping_surface exemple_points [(0, 1, 2)] exemple_gt 2 2
               = Ok exemple_surface) by reflexivity.
  assert (Eb : mapping_barycentre exemple_points [(0, 1, 2)] exemple_gt 2 2
               = Ok [((1, 0), [0])]) by reflexivity.
  split; [exact Es|]. split; [exact Eb|]. split.
  - apply (proj1 (cles_dans_le_raster exemple_points [(0, 1, 2)] exemple_gt 2 2)
             _ Es 1 1).
    simpl. auto.
  - apply (proj2 (cles_dans_le_raster exemple_points [(0, 1, 2)] exemple_gt 2 2)
             _ Eb 1 0).
    simpl. auto.
Defined.

(** *** The entries of the surface mapping *)

Lemma entrees_pixel_append {V} (m : dict (Z * Z) (list V)) (k k' : Z * Z)
    (x y : V) :
  In y (entrees_pixel (dict_append m k x) k') <->
  In y (entrees_pixel m k') \/ (k' = k /\ y = x).
Proof.
  unfold entrees_pixel. rewrite dict_get_append.
  destruct (cle_dec k' k) as [->|Hne].
  - rewrite in_app_iff. simpl. intuition.
  - intuition.
Qed.

Section EntreesSurface.
Context {F : Type} `{Flottant F} `{Shapely F}.

Lemma surface_cellule_entrees (gt : geotransform F) (poly_tri : triangle2 F)
    (id_tri ligne colonne : Z) (m : map_pixels F) (k : Z * Z) (y : Z * F) :
  In y (entrees_pixel (surface_cellule gt poly_tri id_tri ligne m colonne) k)
  <-> In y (entrees_pixel m k)
      \/ (k = (ligne, colonne)
          /\ exists a, y = (id_tri, a)
                       /\ recouvrement gt poly_tri ligne colonne a).
Proof.
  unfold surface_cellule, recouvrement.
  destruct (intersection_area poly_tri (cellule gt ligne colonne)) as [aire|].
  - destruct (fl_leb aire fl_zero) eqn:E.
    + split; [auto|]. intros [Hy|(_ & a & _ & [= <-] & Ha)]; congruence.
    + rewrite entrees_pixel_append. split.
      * intros [Hy|[-> ->]]; eauto 10.
      * intros [Hy|(-> & a & -> & [= <-] & _)]; auto.
  - split; [auto|]. intros [Hy|(_ & a & _ & [=] & _)]. assumption.
Qed.

Lemma surface_colonnes_entrees (gt : geotransform F) (poly_tri : triangle2 F)
    (id_tri ligne : Z) (cols : list Z) (m : map_pixels F) (k : Z * Z)
    (y : Z * F) :
  In y (entrees_pixel
          (fold_left (surface_cellule gt poly_tri id_tri ligne) cols m) k)
  <-> In y (entrees_pixel m k)
      \/ exists c a, In c cols /\ k = (ligne, c) /\ y = (id_tri, a)
                     /\ recouvrement gt poly_tri ligne c a.
Proof.
  revert m. induction cols as [|c0 cols IH]; intros m; cbn [fold_left].
  - split; [auto|]. intros [Hy|(c & a & [] & _)]. assumption.
  - rewrite IH, surface_cellule_entrees. split.
    + intros [[Hy|(-> & a & -> & Ha)]|(c & a & Hc & -> & -> & Ha)].
      * auto.
      * right. exists c0, a. simpl. auto.
      * right. exists c, a. simpl. auto.
    + intros [Hy|(c & a & [<-|Hc] & -> & -> & Ha)]; eauto 10.
Qed.

Lemma surface_cellules_entrees (gt : geotransform F) (poly_tri : triangle2 F)
    (id_tri : Z) (col_min lig_min col_max lig_max : Z) (m : map_pixels F)
    (l c : Z) (y : Z * F) :
  In y (entrees_pixel
          (surface_cellules gt poly_tri id_tri
             (col_min, lig_min, col_max, lig_max) m) (l, c))
  <-> In y (entrees_pixel m (l, c))
      \/ exists a, y = (id_tri, a)
                   /\ lig_min <= l <= lig_max /\ col_min <= c <= col_max
                   /\ recouvrement gt poly_tri l c a.
Proof.
  unfold surface_cellules.
  assert (Hgen : forall ligs m0,
    In y (entrees_pixel
            (fold_left
               (fun m1 ligne =>
                  fold_left (surface_cellule gt poly_tri id_tri ligne)
                            (py_range col_min (col_max + 1)) m1) ligs m0) (l, c))
    <-> In y (entrees_pixel m0 (l, c))
        \/ exists a, y = (id_tri, a) /\ In l ligs /\ col_min <= c <= col_max
                     /\ recouvrement gt poly_tri l c a).
  { induction ligs as [|l0 ligs IH]; intros m0; cbn [fold_left].
    - split; [auto|]. intros [Hy|(a & _ & [] & _)]. assumption.
    - rewrite IH, surface_colonnes_entrees. split.
      + intros [[Hy|(c1 & a & Hc & [= -> ->] & -> & Ha)]|(a & -> & Hl & Hc & Ha)].
        * auto.
        * right. exists a. apply py_range_In in Hc. simpl. intuition lia.
        * right. exists a. simpl. auto.
      + intros [Hy|(a & -> & [<-|Hl] & Hc & Ha)]; auto.
        * left. right. exists c, a. rewrite py_range_In. intuition lia.
        * right. exists a. auto. }
  rewrite Hgen. split.
  - intros [Hy|(a & -> & Hl & Hc & Ha)]; auto.
    right. exists a. apply py_range_In in Hl. intuition lia.
  - intros [Hy|(a & -> & Hl & Hc & Ha)]; auto.
    right. exists a. rewrite py_range_In. intuition lia.
Qed.

Lemma surface_triangle_entrees (points : list (F * F * F)) (gt : geotransform F)
    (nb_lignes nb_colonnes : Z) (m m' : map_pixels F) (id_tri : Z)
    (tri : Z * Z * Z) (l c : Z) (y : Z * F) :
  surface_triangle points gt nb_lignes nb_colonnes m (id_tri, tri) = Ok m' ->
  (In y (entrees_pixel m' (l, c))
   <-> In y (entrees_pixel m (l, c))
       \/ exists a, y = (id_tri, a)
                    /\ enregistre points gt nb_lignes nb_colonnes tri l c a).
Proof.
  unfold surface_triangle, enregistre.
  destruct (sommets points tri) as [poly_tri|]; cbn [lie]; [|discriminate].
  destruct (polygon_is_empty poly_tri || _) eqn:Ed.
  - intros [= <-]. split; [auto|].
    intros [Hy|(a & _ & p & ? & ? & ? & ? & [= <-] & Hd & _)]; congruence.
  - destruct (indices_candidats _ _ _ _) as [[[[cmin lmin] cmax] lmax]|] eqn:Ec;
      cbn [lie]; [|discriminate].
    intros [= <-].
    pose proof (surface_cellules_entrees gt poly_tri id_tri cmin lmin cmax lmax
                  m l c y) as Hs.
    unfold surface_cellules in Hs. rewrite Hs. clear Hs. split.
    + intros [Hy|(a & -> & Hl & Hc & Ha)]; auto.
      right. exists a. split; [reflexivity|].
      exists poly_tri, cmin, lmin, cmax, lmax. auto 10.
    + intros [Hy|(a & -> & p & c1 & l1 & c2 & l2 & [= <-] & _ & Hc & Hr)]; auto.
      rewrite Ec in Hc. injection Hc as <- <- <- <-.
      right. exists a. intuition.
Qed.

Lemma surface_boucle_entrees (points : list (F * F * F)) (gt : geotransform F)
    (nb_lignes nb_colonnes : Z) (liste : list (Z * (Z * Z * Z)))
    (m m' : map_pixels F) (l c : Z) (y : Z * F) :
  pour liste (surface_triangle points gt nb_lignes nb_colonnes) m = Ok m' ->
  (In y (entrees_pixel m' (l, c))
   <-> In y (entrees_pixel m (l, c))
       \/ exists tri a, In (fst y, tri) liste /\ y = (fst y, a)
            /\ enregistre points gt nb_lignes nb_colonnes tri l c a).
Proof.
  revert m. induction liste as [|[id tri] liste IH]; intros m; cbn [pour].
  - intros [= <-]. split; [auto|]. intros [Hy|(? & ? & [] & _)]. assumption.
  - destruct (surface_triangle _ _ _ _ m (id, tri)) as [m1|] eqn:E1;
      cbn [lie]; [|discriminate].
    intros Hm'. rewrite (IH m1 Hm').
    rewrite (surface_triangle_entrees _ _ _ _ _ _ _ _ _ _ _ E1). split.
    + intros [[Hy|(a & -> & He)]|(t & a & Hin & Hy & He)].
      * auto.
      * right. exists tri, a. simpl. auto.
      * right. exists t, a. simpl. auto.
    + intros [Hy|(t & a & [[= <- <-]|Hin] & Hy & He)]; auto.
      * left. right. exists a. split; [congruence|assumption].
      * right. exists t, a. auto.
Qed.

End EntreesSurface.

(** C4, as amended.  [mapping_surface] has no epsilon parameter: it records
    the entry [(id, a)] under the cell [(l, c)] exactly when triangle [id]
    is kept (not empty, area not [<= 0]), the cell is in the candidate range
    of its bounding box, and the intersection with the cell is not empty and
    has an area [a] that is not [<= 0].  The threshold is the literal zero,
    so every recorded area satisfies [a <= 0 = false] and an overlap is
    recorded however small its positive area. *)
Theorem mapping_surface_enregistre {F : Type} `{Flottant F} `{Shapely F}
    (points : list (F * F * F)) (triangles : list (Z * Z * Z))
    (gt : geotransform F) (nb_lignes nb_colonnes : Z) (mapping : map_pixels F) :
  mapping_surface points triangles gt nb_lignes nb_colonnes = Ok mapping ->
  forall l c id a,
    (In (id, a) (entrees_pixel mapping (l, c)) <->
     exists tri, In (id, tri) (enumerate triangles)
                 /\ enregistre points gt nb_lignes nb_colonnes tri l c a)
    /\ (In (id, a) (entrees_pixel mapping (l, c)) -> fl_leb a fl_zero = false).
Proof.
  intros Hm l c id a. unfold mapping_surface in Hm.
  pose proof (surface_boucle_entrees points gt nb_lignes nb_colonnes
                (enumerate triangles) [] mapping l c (id, a) Hm) as Hb.
  cbn [fst] in Hb.
  assert (Hiff : In (id, a) (entrees_pixel mapping (l, c)) <->
                 exists tri, In (id, tri) (enumerate triangles)
                   /\ enregistre points gt nb_lignes nb_colonnes tri l c a).
  { rewrite Hb. split.
    - intros [[]|(tri & a' & Hin & [= <-] & He)]. eauto.
    - intros (tri & Hin & He). right. eauto. }
  split; [exact Hiff|].
  intros Hin. apply Hiff in Hin as (tri & _ & He).
  destruct He as (p & ? & ? & ? & ? & _ & _ & _ & _ & _ & _ & Ha).
  exact Ha.
Qed.

Lemma mapping_surface_enregistre_temoin :
  exists tri,
    In (0, tri) (enumerate [(0, 1, 2)])
    /\ enregistre exemple_points exemple_gt 2 2 tri 1 0 0.5625%float.
Proof.
  assert (Es : mapping_surface exemple_points [(0, 1, 2)] exemple_gt 2 2
               = Ok exemple_surface) by reflexivity.
  apply (proj1 (mapping_surface_enregistre exemple_points [(0, 1, 2)]
                  exemple_gt 2 2 exemple_surface Es 1 0 0 0.5625%float)).
  simpl. auto.
Defined.

(** C4, as stated, fails: no epsilon stands between a tiny overlap and the
    correspondence.  On a grid of one unit cell, the triangle of vertices
    (0, 0), (2^-40, 0), (0, 2^-40) lies in the cell; its area, 2^-81, is
    below 1e-12 and is recorded. *)
Lemma mapping_surface_sans_epsilon :
  mapping_surface
    [(0%float, 0%float, 0%float); (0x1p-40%float, 0%float, 0%float);
     (0%float, 0x1p-40%float, 0%float)]
    [(0, 1, 2)]
    (0%float, 1%float, 0%float, 1%float, 0%float, (-1)%float) 1 1
    = Ok [((0, 0), [(0, 0x1p-81%float)])]
  /\ PrimFloat.ltb 0x1p-81 1e-12 = true.
Proof. split; reflexivity. Qed.

(** *** Triangles that leave no entry *)

Lemma py_range_vide (a b : Z) : b <= a -> py_range a b = [].
Proof.
  intros Hab. unfold py_range.
  replace (Z.to_nat (b - a)) with 0%nat by lia. reflexivity.
Qed.

Lemma enumerate_de_In {A} (debut : Z) (l : list A) (i : Z) (a : A) :
  In (i, a) (enumerate_de debut l) <->
  debut <= i /\ nth_error l (Z.to_nat (i - debut)) = Some a.
Proof.
  revert debut. induction l as [|b l IH]; intros debut; cbn [enumerate_de].
  - split; [intros []|]. intros [_ Hn]. now destruct (Z.to_nat (i - debut)).
  - cbn [In]. rewrite IH. split.
    + intros [[= <- <-]|[Hd Hn]].
      * rewrite Z.sub_diag. split; [lia|reflexivity].
      * split; [lia|].
        replace (Z.to_nat (i - debut)) with (S (Z.to_nat (i - (debut + 1))))
          by lia. exact Hn.
    + intros [Hd Hn]. destruct (Z.eq_dec i debut) as [->|Hne].
      * rewrite Z.sub_diag in Hn. injection Hn as <-. now left.
      * right. split; [lia|].
        replace (Z.to_nat (i - debut)) with (S (Z.to_nat (i - (debut + 1))))
          in Hn by lia. exact Hn.
Qed.

Section TrianglesEcartes.
Context {F : Type} `{Flottant F} `{Shapely F}.



End TrianglesEcartes.


(** *** The candidate range in exact arithmetic *)















(** ** Text *)

#[local] Open Scope string_scope.

Lemma tous_app (p : ascii -> bool) (s1 s2 : string) :
  tous p (s1 ++ s2) = tous p s1 && tous p s2.
Proof.
  induction s1 as [|c s1 IH]; simpl; [reflexivity|].
  now rewrite IH, andb_assoc.
Qed.

Lemma tous_impl (p q : ascii -> bool) (s : string) :
  (forall c, p c = true -> q c = true) -> tous p s = true -> tous q s = true.
Proof.
  intros Hpq. induction s as [|c s IH]; simpl; [reflexivity|].
  intros Hs. apply andb_true_iff in Hs as [Hc Hs].
  now rewrite (Hpq c Hc), IH.
Qed.

Lemma append_vide_d (s : string) : s ++ "" = s.
Proof. induction s as [|c s IH]; simpl; congruence. Qed.

Lemma append_assoc (s1 s2 s3 : string) : (s1 ++ s2) ++ s3 = s1 ++ s2 ++ s3.
Proof. induction s1 as [|c s1 IH]; simpl; congruence. Qed.

Lemma rstrip_blancs (b : string) : tous est_blanc b = true -> rstrip b = "".
Proof.
  induction b as [|c b IH]; simpl; [reflexivity|].
  intros Hb. apply andb_true_iff in Hb as [Hc Hb]. now rewrite IH, Hc.
Qed.

Lemma rstrip_app_blancs (s b : string) :
  tous est_blanc b = true -> rstrip (s ++ b) = rstrip s.
Proof.
  intros Hb. induction s as [|c s IH]; simpl.
  - now apply rstrip_blancs.
  - now rewrite IH.
Qed.

(** A text that ends with a word is its own [rstrip]. *)
Lemma rstrip_mot (s mot : string) :
  mot <> "" -> tous non_blanc mot = true -> rstrip (s ++ mot) = s ++ mot.
Proof.
  intros Hne Hm. induction s as [|c s IH]; simpl.
  - clear Hne. induction mot as [|c mot IH]; simpl; [reflexivity|].
    simpl in Hm. apply andb_true_iff in Hm as [Hc Hm]. rewrite (IH Hm).
    unfold non_blanc in Hc. apply negb_true_iff in Hc. rewrite Hc.
    now destruct mot.
  - rewrite IH. destruct (s ++ mot) eqn:E; [|reflexivity].
    destruct s; simpl in E; [contradiction|discriminate].
Qed.

Lemma lstrip_mot (c : ascii) (s : string) :
  non_blanc c = true -> lstrip (String c s) = String c s.
Proof.
  unfold non_blanc. intros Hc. apply negb_true_iff in Hc. simpl. now rewrite Hc.
Qed.

Lemma split_mots_mot (s reste mot : string) :
  tous non_blanc s = true ->
  split_mots (s ++ reste) mot = split_mots reste (mot ++ s).
Proof.
  revert mot. induction s as [|c s IH]; intros mot Hs; simpl.
  - now rewrite append_vide_d.
  - simpl in Hs. apply andb_true_iff in Hs as [Hc Hs].
    unfold non_blanc in Hc. apply negb_true_iff in Hc. rewrite Hc.
    rewrite (IH _ Hs), append_assoc. reflexivity.
Qed.

Lemma split_un_mot (s : string) :
  s <> "" -> tous non_blanc s = true -> split s = [s].
Proof.
  intros Hne Hs. unfold split.
  rewrite <- (append_vide_d s) at 1. rewrite (split_mots_mot s "" "" Hs).
  simpl. now destruct s.
Qed.

Lemma split_deux_mots (a b : string) :
  a <> "" -> b <> "" -> tous non_blanc a = true -> tous non_blanc b = true ->
  split (a ++ " " ++ b) = [a; b].
Proof.
  intros Ha Hb Hta Htb. unfold split. rewrite (split_mots_mot a _ "" Hta).
  simpl. destruct a as [|ca a']; [contradiction|].
  change (split_mots b "") with (split b). now rewrite (split_un_mot b Hb Htb).
Qed.

Lemma replace_tab_mot (s : string) :
  tous non_blanc s = true -> replace_tab s = s.
Proof.
  unfold replace_tab. induction s as [|c s IH]; simpl; [reflexivity|].
  intros Hs. apply andb_true_iff in Hs as [Hc Hs]. rewrite (IH Hs).
  destruct (Ascii.eqb_spec c "009") as [->|]; [discriminate|reflexivity].
Qed.

(** *** Digits *)

Lemma chiffre_de_N (d : N) :
  (d < 10)%N -> chiffre (ascii_of_N (48 + d)) = Some d.
Proof.
  intros Hd. unfold chiffre. rewrite N_ascii_embedding by lia.
  replace ((48 <=? 48 + d) && (48 + d <=? 57))%N with true.
  - f_equal. lia.
  - symmetry. apply andb_true_iff. split; apply N.leb_le; lia.
Qed.

Lemma est_chiffre_de_N (d : N) :
  (d < 10)%N -> est_chiffre (ascii_of_N (48 + d)) = true.
Proof. intros Hd. unfold est_chiffre. now rewrite chiffre_de_N. Qed.

Lemma lit_chiffres_app (s1 s2 : string) (acc : N) :
  lit_chiffres (s1 ++ s2) acc =
    match lit_chiffres s1 acc with
    | Some a => lit_chiffres s2 a
    | None => None
    end.
Proof.
  revert acc. induction s1 as [|c s1 IH]; intros acc; simpl; [reflexivity|].
  destruct (chiffre c); [apply IH|reflexivity].
Qed.

Lemma un_chiffre_spec (d : N) :
  (d < 10)%N ->
  let ds := String (ascii_of_N (48 + d)) "" in
  ds <> "" /\ tous est_chiffre ds = true /\ lit_chiffres ds 0 = Some d.
Proof.
  intros Hd ds. unfold ds. cbn [tous lit_chiffres].
  rewrite est_chiffre_de_N, chiffre_de_N by assumption.
  repeat split; discriminate.
Qed.

Lemma chiffres_N_spec (reste : nat) (n : N) (suite : string) :
  (n < 10 ^ N.of_nat (S reste))%N ->
  exists ds, chiffres_N reste n suite = ds ++ suite
             /\ ds <> "" /\ tous est_chiffre ds = true
             /\ lit_chiffres ds 0 = Some n.
Proof.
  revert n suite. induction reste as [|reste IH]; intros n suite Hn.
  - change (10 ^ N.of_nat 1)%N with 10%N in Hn.
    exists (String (ascii_of_N (48 + n mod 10)) "").
    split; [reflexivity|].
    rewrite N.mod_small by assumption. now apply un_chiffre_spec.
  - cbn [chiffres_N].
    assert (Hm : (n mod 10 < 10)%N) by (apply N.mod_lt; discriminate).
    destruct (N.eqb_spec (n / 10) 0) as [E|E].
    + exists (String (ascii_of_N (48 + n mod 10)) "").
      split; [reflexivity|].
      assert (En : (n mod 10 = n)%N).
      { rewrite (N.div_mod n 10) at 2 by discriminate. lia. }
      rewrite En in *. now apply un_chiffre_spec.
    + destruct (IH (n / 10)%N (String (ascii_of_N (48 + n mod 10)) suite))
        as (ds & Hds & Hne & Ht & Hl).
      { apply N.Div0.div_lt_upper_bound.
        rewrite <- N.pow_succ_r'. now rewrite <- Nat2N.inj_succ. }
      exists (ds ++ String (ascii_of_N (48 + n mod 10)) "").
      rewrite Hds, append_assoc. split; [reflexivity|].
      split; [destruct ds; [contradiction|discriminate]|].
      split.
      * rewrite tous_app, Ht. cbn [tous andb].
        now rewrite est_chiffre_de_N.
      * rewrite lit_chiffres_app, Hl. cbn [lit_chiffres].
        rewrite chiffre_de_N by assumption.
        f_equal. rewrite (N.div_mod n 10) at 3 by discriminate. lia.
Qed.

Lemma str_N_spec (n : N) :
  str_N n <> "" /\ tous est_chiffre (str_N n) = true
  /\ lit_chiffres (str_N n) 0 = Some n.
Proof.
  unfold str_N.
  destruct (chiffres_N_spec (N.to_nat (N.log2 n)) n "") as (ds & Hds & H).
  - rewrite Nat2N.inj_succ, N2Nat.id.
    destruct n as [|p]; [reflexivity|].
    eapply N.lt_le_trans; [apply N.log2_spec; reflexivity|].
    apply N.pow_le_mono_l. lia.
  - rewrite Hds, append_vide_d. exact H.
Qed.

Lemma est_chiffre_cas (c : ascii) : est_chiffre c = true -> In c les_chiffres.
Proof.
  destruct c as [[|] [|] [|] [|] [|] [|] [|] [|]]; intros Hc;
    try discriminate Hc; simpl; tauto.
Qed.

(** What holds of the ten digits holds of every digit. *)
Lemma chiffre_prop (p : ascii -> bool) :
  forallb p les_chiffres = true ->
  forall c, est_chiffre c = true -> p c = true.
Proof.
  intros Hp c Hc. rewrite forallb_forall in Hp. now apply Hp, est_chiffre_cas.
Qed.

Lemma car_decimal_prop (p : ascii -> bool) :
  forallb p les_chiffres = true -> p "."%char = true ->
  forall c, car_decimal c = true -> p c = true.
Proof.
  intros Hp Hpt c Hc. apply orb_true_iff in Hc as [Hc|Hc].
  - now apply (chiffre_prop p Hp).
  - apply Ascii.eqb_eq in Hc. now subst c.
Qed.

Lemma chiffres_car_decimal (s : string) :
  tous est_chiffre s = true -> tous car_decimal s = true.
Proof.
  apply tous_impl. intros c Hc. unfold car_decimal. now rewrite Hc.
Qed.

Lemma lower_decimal (s : string) : tous car_decimal s = true -> lower s = s.
Proof.
  unfold lower. induction s as [|c s IH]; simpl; [reflexivity|].
  intros Hs. apply andb_true_iff in Hs as [Hc Hs]. rewrite (IH Hs). f_equal.
  apply Ascii.eqb_eq.
  now apply (car_decimal_prop (fun c => Ascii.eqb (minuscule c) c)).
Qed.

Lemma coupe_a_absent (sep : ascii) (s : string) :
  tous (fun c => negb (Ascii.eqb c sep)) s = true -> coupe_a sep s = (s, None).
Proof.
  induction s as [|c s IH]; simpl; [reflexivity|].
  intros Hs. apply andb_true_iff in Hs as [Hc Hs].
  apply negb_true_iff in Hc. now rewrite Hc, (IH Hs).
Qed.

Lemma coupe_a_present (sep : ascii) (s1 s2 : string) :
  tous (fun c => negb (Ascii.eqb c sep)) s1 = true ->
  coupe_a sep (s1 ++ String sep s2) = (s1, Some s2).
Proof.
  induction s1 as [|c s1 IH]; simpl.
  - now rewrite Ascii.eqb_refl.
  - intros Hs. apply andb_true_iff in Hs as [Hc Hs].
    apply negb_true_iff in Hc. now rewrite Hc, (IH Hs).
Qed.

Lemma signe_chiffre (c : ascii) (s : string) :
  est_chiffre c = true -> signe (String c s) = (false, String c s).
Proof.
  intros Hc. apply est_chiffre_cas in Hc. simpl in Hc.
  repeat (destruct Hc as [<-|Hc]; [reflexivity|]). contradiction.
Qed.

Lemma deux_chiffres_spec (r acc : N) :
  (r < 100)%N ->
  tous est_chiffre (deux_chiffres r) = true
  /\ lit_chiffres (deux_chiffres r) acc = Some (100 * acc + r)%N.
Proof.
  intros Hr. unfold deux_chiffres.
  assert (H1 : (r / 10 < 10)%N) by (apply N.Div0.div_lt_upper_bound; lia).
  assert (H2 : (r mod 10 < 10)%N) by (apply N.mod_lt; discriminate).
  cbn [tous lit_chiffres].
  rewrite !est_chiffre_de_N, !chiffre_de_N by assumption.
  split; [reflexivity|]. f_equal.
  rewrite (N.div_mod r 10) at 3 by discriminate. lia.
Qed.

(** *** A float written with two decimals and read back *)

Lemma corps_centiemes_decimal (n : N) :
  tous car_decimal (corps_centiemes n) = true
  /\ exists c s, corps_centiemes n = String c s /\ est_chiffre c = true.
Proof.
  unfold corps_centiemes.
  destruct (str_N_spec (n / 100)) as (Hne & Ht & _).
  destruct (deux_chiffres_spec (n mod 100) 0) as [Hd _];
    [apply N.mod_lt; discriminate|].
  split.
  - rewrite !tous_app, (chiffres_car_decimal _ Ht), (chiffres_car_decimal _ Hd).
    reflexivity.
  - destruct (str_N (n / 100)) as [|c s]; [contradiction|].
    simpl in Ht. apply andb_true_iff in Ht as [Hc _]. simpl. eauto.
Qed.

Lemma py_float_centiemes (neg : bool) (n : N) :
  py_float (texte_centiemes (neg, n)) = Ok (b64_de_decimal neg n (-2)).
Proof.
  destruct (corps_centiemes_decimal n) as (Hdec & c & s & Hcs & Hc).
  assert (Hsigne : signe (texte_centiemes (neg, n)) = (neg, corps_centiemes n)).
  { unfold texte_centiemes. fold (corps_centiemes n).
    destruct neg; [reflexivity|]. simpl append.
    rewrite Hcs. now apply signe_chiffre. }
  unfold py_float. rewrite Hsigne, (lower_decimal _ Hdec).
  assert (Hi : Ascii.eqb c "i" = false /\ Ascii.eqb c "n" = false).
  { split; apply negb_true_iff.
    - now apply (chiffre_prop (fun c => negb (Ascii.eqb c "i"))).
    - now apply (chiffre_prop (fun c => negb (Ascii.eqb c "n"))). }
  destruct Hi as [Hi Hn].
  replace (String.eqb (corps_centiemes n) "inf") with false
    by (rewrite Hcs; simpl; now rewrite Hi).
  replace (String.eqb (corps_centiemes n) "infinity") with false
    by (rewrite Hcs; simpl; now rewrite Hi).
  replace (String.eqb (corps_centiemes n) "nan") with false
    by (rewrite Hcs; simpl; now rewrite Hn).
  cbn [orb].
  rewrite coupe_a_absent.
  2:{ revert Hdec. apply tous_impl.
      now apply (car_decimal_prop (fun c => negb (Ascii.eqb c "e"))). }
  cbn [exposant lie].
  destruct (str_N_spec (n / 100)) as (Hne & Ht & Hl).
  destruct (deux_chiffres_spec (n mod 100) (n / 100)) as [Hd Hld];
    [apply N.mod_lt; discriminate|].
  unfold corps_centiemes. cbn [append]. rewrite coupe_a_present.
  2:{ revert Ht. apply tous_impl.
      now apply (chiffre_prop (fun c => negb (Ascii.eqb c "."))). }
  unfold chiffres_non_vides.
  rewrite lit_chiffres_app, Hl, Hld.
  replace (100 * (n / 100) + n mod 100)%N with n
    by (rewrite (N.div_mod n 100) at 1 by discriminate; reflexivity).
  destruct (str_N (n / 100) ++ deux_chiffres (n mod 100)) eqn:E.
  - destruct (str_N (n / 100)); [contradiction|discriminate].
  - reflexivity.
Qed.

Lemma centiemes_fini (v : float) :
  exists c, centiemes (if negb (PrimFloat.is_finite v) then 0%float else v)
            = Some c.
Proof.
  destruct (PrimFloat.is_finite v) eqn:E; cbn [negb].
  - apply b64_isfinite_SF in E. unfold centiemes.
    destruct (Prim2SF v); try contradiction; eauto.
  - eexists. reflexivity.
Qed.

Lemma texte_centiemes_mot (c : bool * N) :
  texte_centiemes c <> "" /\ tous non_blanc (texte_centiemes c) = true.
Proof.
  destruct c as [neg n]. unfold texte_centiemes. fold (corps_centiemes n).
  destruct (corps_centiemes_decimal n) as (Hdec & c & s & Hcs & _).
  assert (Hnb : tous non_blanc (corps_centiemes n) = true).
  { revert Hdec. apply tous_impl. now apply car_decimal_prop. }
  destruct neg; simpl append.
  - split; [discriminate|]. simpl. exact Hnb.
  - split; [now rewrite Hcs|exact Hnb].
Qed.

(** A value line, as [lire_val] sees it. *)
Lemma ligne_valeur_lue (v : float) :
  exists mot, strip (ligne_valeur v) = mot /\ mot <> ""
              /\ split (replace_tab mot) = [mot]
              /\ py_float mot = Ok (relu_2f v).
Proof.
  unfold ligne_valeur, relu_2f, fmt_2f.
  destruct (centiemes_fini v) as [[neg n] Hc]. rewrite Hc.
  destruct (texte_centiemes_mot (neg, n)) as [Hne Hnb].
  set (mot := texte_centiemes (neg, n)) in *.
  exists mot. split; [|split; [assumption|split]].
  - unfold strip, tab. cbn [append lstrip]. 
    change (est_blanc "009") with true. cbv iota.
    destruct mot as [|c s] eqn:E; [contradiction|].
    cbn [append]. rewrite lstrip_mot
      by (simpl in Hnb; now apply andb_true_iff in Hnb as [? _]).
    change (String c (s ++ nl)) with (String c s ++ nl).
    rewrite rstrip_app_blancs by reflexivity.
    rewrite <- (rstrip_mot "" (String c s)) at 2 by (assumption || discriminate).
    reflexivity.
  - rewrite (replace_tab_mot _ Hnb). now apply split_un_mot.
  - apply py_float_centiemes.
Qed.

Lemma str_Z_mot (z : Z) : str_Z z <> "" /\ tous non_blanc (str_Z z) = true.
Proof.
  assert (Hn : forall n, str_N n <> "" /\ tous non_blanc (str_N n) = true).
  { intros n. destruct (str_N_spec n) as (Hne & Ht & _). split; [assumption|].
    revert Ht. apply tous_impl. now apply chiffre_prop. }
  destruct z; simpl; try apply Hn.
  split; [discriminate|]. simpl. apply Hn.
Qed.

Lemma py_int_str_Z (z : Z) : 0 <= z -> py_int (str_Z z) = Ok z.
Proof.
  intros Hz. unfold py_int.
  assert (Hs : str_Z z = str_N (Z.to_N z)) by (destruct z; [reflexivity..|lia]).
  rewrite Hs. destruct (str_N_spec (Z.to_N z)) as (Hne & Ht & Hl).
  destruct (str_N (Z.to_N z)) as [|c s] eqn:E; [contradiction|].
  simpl in Ht. apply andb_true_iff in Ht as [Hc _].
  rewrite (signe_chiffre c s Hc). unfold chiffres_non_vides. rewrite Hl.
  cbn [lie]. f_equal. lia.
Qed.

Lemma rstrip_non_vide (c : ascii) (s : string) :
  non_blanc c = true -> rstrip (String c s) <> "".
Proof.
  unfold non_blanc. intros Hc. apply negb_true_iff in Hc. simpl. rewrite Hc.
  now destruct (rstrip s).
Qed.

Lemma startswith_f (s : string) : startswith (String "f" s) "f" = true.
Proof. unfold startswith. simpl. now destruct s. Qed.

(** A facet line, as [lire_val] sees it. *)
Lemma ligne_facette_lue (i nb_tri : Z) :
  exists s, strip (ligne_facette i nb_tri) = s /\ s <> ""
            /\ startswith s "f" = true
            /\ getitem (split s) 1 = Ok (str_Z nb_tri).
Proof.
  destruct (str_Z_mot i) as [Hi Hti], (str_Z_mot nb_tri) as [Hn Htn].
  exists (String "f" (str_Z i) ++ " " ++ str_Z nb_tri).
  split; [|split; [discriminate|split; [apply startswith_f|]]].
  - unfold strip, ligne_facette. cbn [append]. rewrite lstrip_mot by reflexivity.
    replace (String "f" (str_Z i ++ String " " (str_Z nb_tri ++ nl)))
      with ((String "f" (str_Z i ++ " ") ++ str_Z nb_tri) ++ nl).
    + rewrite rstrip_app_blancs by reflexivity.
      rewrite rstrip_mot by assumption.
      cbn [append]. now rewrite append_assoc.
    + cbn [append]. now rewrite !append_assoc.
  - rewrite (split_deux_mots (String "f" (str_Z i)) (str_Z nb_tri));
      [reflexivity|discriminate|assumption| |assumption].
    cbn [tous]. now rewrite Hti.
Qed.

(** *** What [ecrire_val] writes *)

Lemma skipn_nth {A} (l : list A) (n : nat) (a : A) :
  nth_error l n = Some a -> skipn n l = a :: skipn (S n) l.
Proof.
  revert n. induction l as [|b l IH]; intros [|n] Hn; try discriminate.
  - now injection Hn as <-.
  - simpl in *. now apply IH.
Qed.

Lemma ecrire_valeurs_spec (val_tri : list float) (tours : list Z) (k : Z)
    (lignes : list string) :
  0 <= k -> k + Z.of_nat (length tours) <= Z.of_nat (length val_tri) ->
  pour tours (ecrire_valeur val_tri) (k, lignes) =
    Ok (k + Z.of_nat (length tours),
        (lignes ++ map ligne_valeur
                     (firstn (length tours) (skipn (Z.to_nat k) val_tri)))%list).
Proof.
  revert k lignes. induction tours as [|t tours IH]; intros k lignes Hk Hlen.
  - simpl. now rewrite Z.add_0_r, app_nil_r.
  - cbn [length] in *. cbn [pour]. unfold ecrire_valeur at 1.
    destruct (nth_error val_tri (Z.to_nat k)) as [v|] eqn:Ev.
    2:{ apply nth_error_None in Ev. lia. }
    rewrite (getitem_pos _ _ _ Hk Ev). cbn [lie].
    rewrite IH by lia. rewrite (skipn_nth _ _ _ Ev). cbn [firstn map].
    replace (Z.to_nat (k + 1)) with (S (Z.to_nat k)) by lia.
    rewrite <- app_assoc. f_equal. f_equal. lia.
Qed.

Lemma py_range_length (a b : Z) : length (py_range a b) = Z.to_nat (b - a).
Proof. unfold py_range. now rewrite length_map, length_seq. Qed.

Lemma ecrire_facettes_spec (val_tri : list float) (tailles : list Z)
    (i k : Z) (lignes : list string) :
  (forall t, In t tailles -> 0 <= t) ->
  0 <= k -> k + somme tailles <= Z.of_nat (length val_tri) ->
  pour (enumerate_de i tailles) (ecrire_facette val_tri) (k, lignes) =
    Ok (k + somme tailles,
        (lignes ++ blocs i tailles (skipn (Z.to_nat k) val_tri))%list).
Proof.
  revert i k lignes.
  induction tailles as [|nb tailles IH]; intros i k lignes Hpos Hk Hlen.
  - simpl. now rewrite Z.add_0_r, app_nil_r.
  - assert (Hnb : 0 <= nb) by (apply Hpos; now left).
    assert (Hs : 0 <= somme tailles).
    { clear -Hpos. induction tailles as [|t l IH]; simpl; [lia|].
      assert (0 <= t) by (apply Hpos; right; now left).
      assert (0 <= somme l); [|lia].
      apply IH. intros x [<-|Hx]; apply Hpos; simpl; auto. }
    cbn [somme fold_right] in Hlen. fold (somme tailles) in Hlen.
    cbn [enumerate_de pour]. unfold ecrire_facette at 1.
    rewrite ecrire_valeurs_spec; rewrite ?py_range_length; try lia.
    cbn [lie]. rewrite IH; try lia.
    2:{ intros t Ht. apply Hpos. now right. }
    cbn [somme fold_right blocs]. fold (somme tailles).
    replace (nb - 0) with nb by lia.
    rewrite skipn_skipn.
    replace (Z.to_nat nb + Z.to_nat k)%nat with (Z.to_nat (k + nb)) by lia.
    fold (ligne_facette i nb).
    rewrite <- !app_assoc. cbn [app].
    f_equal. f_equal; [lia|]. now rewrite Z2Nat.id by lia.
Qed.

(** *** What [lire_val] reads *)

Lemma lire_valeurs_spec (vs : list float) (reste : list string)
    (acc : list float) :
  lire_lignes (map strip (map ligne_valeur vs) ++ reste) (length vs) acc
    = lire_lignes reste O (acc ++ map relu_2f vs).
Proof.
  revert acc. induction vs as [|v vs IH]; intros acc.
  - simpl. now rewrite app_nil_r.
  - destruct (ligne_valeur_lue v) as (mot & Hs & Hne & Hsp & Hf).
    cbn [map app length lire_lignes]. rewrite Hs, Hsp.
    change (getitem [mot] 0) with (Ok (A := string) mot). cbn [lie].
    rewrite Hf. cbn [lie]. rewrite IH, <- app_assoc. reflexivity.
Qed.

Lemma lire_blocs_spec (tailles : list Z) (i : Z) (vals acc : list float) :
  (forall t, In t tailles -> 0 <= t) ->
  somme tailles = Z.of_nat (length vals) ->
  lire_lignes (map strip (blocs i tailles vals)) O acc
    = Ok (acc ++ map relu_2f vals)%list.
Proof.
  revert i vals acc.
  induction tailles as [|nb tailles IH]; intros i vals acc Hpos Hsum.
  - simpl in *. destruct vals; [|discriminate]. simpl. now rewrite app_nil_r.
  - assert (Hnb : 0 <= nb) by (apply Hpos; now left).
    assert (Hs : 0 <= somme tailles).
    { clear -Hpos. induction tailles as [|t l IH]; simpl; [lia|].
      assert (0 <= t) by (apply Hpos; right; now left).
      assert (0 <= somme l); [|lia].
      apply IH. intros x [<-|Hx]; apply Hpos; simpl; auto. }
    cbn [somme fold_right] in Hsum. fold (somme tailles) in Hsum.
    destruct (ligne_facette_lue i nb) as (s & Hst & Hne & Hf & Hg).
    cbn [blocs map lire_lignes]. rewrite Hst, Hf, Hg. cbn [lie].
    rewrite (py_int_str_Z nb Hnb). cbn [lie].
    rewrite map_app.
    pose proof (lire_valeurs_spec (firstn (Z.to_nat nb) vals)
                  (map strip (blocs (i + 1) tailles (skipn (Z.to_nat nb) vals)))
                  acc) as Hv.
    rewrite length_firstn, Nat.min_l in Hv by lia. rewrite Hv. clear Hv.
    rewrite IH.
    + rewrite <- app_assoc, <- map_app, firstn_skipn. reflexivity.
    + intros t Ht. apply Hpos. now right.
    + rewrite length_skipn. lia.
Qed.

Lemma filtre_lignes (lignes : list string) :
  Forall (fun l => strip l <> "") lignes ->
  filter (fun l => negb (String.eqb l "")) (map strip lignes)
    = map strip lignes.
Proof.
  induction 1 as [|l lignes Hl _ IH]; simpl; [reflexivity|].
  destruct (String.eqb_spec (strip l) ""); [contradiction|].
  simpl. now rewrite IH.
Qed.

Lemma blocs_non_vides (tailles : list Z) (i : Z) (vals : list float) :
  Forall (fun l => strip l <> "") (blocs i tailles vals).
Proof.
  revert i vals. induction tailles as [|nb tailles IH]; intros i vals; simpl.
  - constructor.
  - constructor.
    + destruct (ligne_facette_lue i nb) as (s & -> & Hne & _). exact Hne.
    + apply Forall_app. split; [|apply IH].
      apply Forall_forall. intros l Hl. apply in_map_iff in Hl as (v & <- & _).
      destruct (ligne_valeur_lue v) as (mot & -> & Hne & _). exact Hne.
Qed.

(** C8, as amended.  For facet sizes that are not negative and a value
    array whose length is their sum, [ecrire_val] writes a file from which
    [lire_val] reads back, in the same facet order, each value as its text
    with two decimals reads: a finite value rounded to the nearest hundredth
    (ties to even) and then to the nearest float, a non-finite value as 0.0.
    The values themselves come back only when they are such roundings. *)
Theorem val_aller_retour (tailles_facettes : list Z) (val_tri : list float) :
  (forall t, In t tailles_facettes -> 0 <= t) ->
  somme tailles_facettes = Z.of_nat (length val_tri) ->
  exists fichier,
    ecrire_val tailles_facettes val_tri = Ok fichier
    /\ lire_val fichier = Ok (map relu_2f val_tri)
    /\ (forall v, PrimFloat.is_finite v = false -> relu_2f v = 0%float).
Proof.
  intros Hpos Hsum. unfold ecrire_val.
  set (entete := (str_Z (Z.of_nat (length tailles_facettes)) ++ _)%string).
  rewrite (ecrire_facettes_spec val_tri tailles_facettes 1 0 [entete] Hpos)
    by lia.
  cbn [lie snd skipn Z.to_nat app].
  eexists. split; [reflexivity|]. split.
  - unfold lire_val. cbn [map filter].
    assert (He : String.eqb (strip entete) "" = false).
    { destruct (str_Z_mot (Z.of_nat (length tailles_facettes))) as [Hne Ht].
      unfold entete.
      destruct (str_Z (Z.of_nat (length tailles_facettes))) as [|c s];
        [contradiction|].
      simpl in Ht. apply andb_true_iff in Ht as [Hc _].
      cbn [append]. unfold strip. rewrite (lstrip_mot _ _ Hc).
      apply String.eqb_neq. now apply rstrip_non_vide. }
    rewrite He. cbn [negb].
    rewrite (filtre_lignes _ (blocs_non_vides tailles_facettes 1 val_tri)).
    now rewrite (lire_blocs_spec tailles_facettes 1 val_tri [] Hpos Hsum).
  - intros v Hv. unfold relu_2f. now rewrite Hv.
Qed.

Lemma val_aller_retour_temoin :
  exists fichier,
    ecrire_val [2; 1] [0.5%float; PrimFloat.nan; 5%float] = Ok fichier
    /\ lire_val fichier = Ok [0.5%float; 0%float; 5%float].
Proof.
  destruct (val_aller_retour [2; 1] [0.5%float; PrimFloat.nan; 5%float])
    as (fichier & He & Hl & _).
  - intros t [<-|[<-|[]]]; lia.
  - reflexivity.
  - exists fichier. split; [exact He|exact Hl].
Defined.

(** C8, as stated, fails: 0.123 is written as 0.12 and read back as 0.12. *)
Lemma val_aller_retour_contre_exemple :
  exists fichier,
    ecrire_val [1] [0.123%float] = Ok fichier
    /\ lire_val fichier = Ok [0.12%float]
    /\ PrimFloat.eqb 0.12 0.123 = false.
Proof. eexists. repeat split; reflexivity. Qed.

(** ** The MH raster file *)

Lemma masques_coercition (declare : float) (ras : raster float) :
  masque NODATA_MH (masque declare ras) = map (map (coercition declare)) ras.
Proof.
  unfold masque. rewrite map_map. apply map_ext. intros ligne.
  rewrite map_map. apply map_ext. intros v. unfold coercition.
  destruct (PrimFloat.eqb v declare); reflexivity.
Qed.

Lemma nan_different (x : float) : PrimFloat.eqb PrimFloat.nan x = false.
Proof. rewrite FloatAxioms.eqb_spec. reflexivity. Qed.

Lemma coercition_efface (declare v : float) :
  PrimFloat.eqb (coercition declare v) declare = false
  /\ PrimFloat.eqb (coercition declare v) NODATA_MH = false.
Proof.
  unfold coercition.
  destruct (PrimFloat.eqb v declare) eqn:E1; cbn [orb];
    [split; apply nan_different|].
  destruct (PrimFloat.eqb v NODATA_MH) eqn:E2;
    [split; apply nan_different|]. now split.
Qed.

(** C10. Whenever [lire_mh_ascii] returns, the nodata value it reports is
    9999.0, whatever NODATA_value the header declares, and its raster is the
    raster of the file in which every cell equal to the declared code and
    every cell equal to 9999.0 is NaN: no cell of the result equals either. *)
Theorem lire_mh_ascii_nodata (fichier : list string) (ras : raster float)
    (gt : geotransform float) (nodata : float) :
  lire_mh_ascii fichier = Ok (ras, gt, nodata) ->
  nodata = 9999%float
  /\ exists entete lignes_donnees vals nb_lignes nb_colonnes brut,
       pour fichier lire_ligne ([], []) = Ok (entete, lignes_donnees)
       /\ _valeurs_ascii lignes_donnees = Ok vals
       /\ reshape vals nb_lignes nb_colonnes = Ok brut
       /\ ras = map (map (coercition (nodata_declare entete))) brut
       /\ forall ligne v, In ligne ras -> In v ligne ->
            PrimFloat.eqb v (nodata_declare entete) = false
            /\ PrimFloat.eqb v 9999 = false.
Proof.
  unfold lire_mh_ascii.
  destruct (pour fichier lire_ligne ([], [])) as [[entete donnees]|] eqn:Ep;
    cbn [lie]; [|discriminate].
  unfold raster_mh.
  repeat match goal with
         | |- lie ?c _ = _ -> _ =>
             let E := fresh "E" in
             destruct c eqn:E; cbn [lie]; [|discriminate]
         end.
  intros [= <- <- <-]. split; [reflexivity|].
  fold (nodata_declare entete). rewrite masques_coercition.
  do 6 eexists. split; [reflexivity|]. split; [eassumption|].
  split; [eassumption|]. split; [reflexivity|].
  intros ligne v Hl Hv.
  apply in_map_iff in Hl as (l0 & <- & _).
  apply in_map_iff in Hv as (v0 & <- & _).
  apply coercition_efface.
Qed.

Lemma lire_mh_ascii_nodata_temoin :
  lire_mh_ascii exemple_fichier_mh
    = Ok (exemple_raster_mh, exemple_gt_mh, 9999%float)
  /\ exists entete lignes_donnees vals nb_lignes nb_colonnes brut,
       pour exemple_fichier_mh lire_ligne ([], []) = Ok (entete, lignes_donnees)
       /\ _valeurs_ascii lignes_donnees = Ok vals
       /\ reshape vals nb_lignes nb_colonnes = Ok brut
       /\ exemple_raster_mh = map (map (coercition (nodata_declare entete))) brut
       /\ forall ligne v, In ligne exemple_raster_mh -> In v ligne ->
            PrimFloat.eqb v (nodata_declare entete) = false
            /\ PrimFloat.eqb v 9999 = false.
Proof.
  assert (E : lire_mh_ascii exemple_fichier_mh
              = Ok (exemple_raster_mh, exemple_gt_mh, 9999%float))
    by reflexivity.
  split; [exact E|].
  exact (proj2 (lire_mh_ascii_nodata _ _ _ _ E)).
Defined.

#[local] Close Scope string_scope.

(** * Further properties of the code *)

(** ** Dictionaries: keys and bindings *)

Lemma dict_keys_set {K V} `{Cle K} (d : dict K V) (k k' : K) (v : V) :
  In k' (dict_keys (dict_set d k v)) -> k' = k \/ In k' (dict_keys d).
Proof.
  induction d as [|[k0 v0] d IH]; simpl.
  - intuition.
  - destruct (cle_dec k k0) as [->|Hk]; simpl; intuition.
Qed.

Lemma dict_get_absent {K V} `{Cle K} (d : dict K V) (k : K) :
  ~ In k (dict_keys d) -> dict_get d k = None.
Proof.
  induction d as [|[k0 v0] d IH]; simpl; [reflexivity|].
  intros Hk. destruct (cle_dec k k0) as [->|Hne]; [tauto|]. apply IH. tauto.
Qed.

(** ** Triangle-to-cell aggregation: what the loops compute *)

Lemma getitem_dans {A} (l : list A) (i : Z) :
  0 <= i < Z.of_nat (length l) -> exists v, getitem l i = Ok v.
Proof.
  intros Hi. destruct (nth_error l (Z.to_nat i)) as [v|] eqn:E.
  - exists v. now apply getitem_pos.
  - apply nth_error_None in E. lia.
Qed.

Lemma getitem_setitem {A} (l : list A) (i : Z) (v : A) :
  0 <= i < Z.of_nat (length l) ->
  exists l', setitem l i v = Ok l'
    /\ length l' = length l
    /\ getitem l' i = Ok v
    /\ forall j, 0 <= j < Z.of_nat (length l) -> j <> i ->
         getitem l' j = getitem l j.
Proof.
  intros Hi. unfold setitem. rewrite py_index_pos by assumption. cbn [lie].
  eexists. split; [reflexivity|].
  split; [apply remplace_length|]. split.
  - apply getitem_pos; [lia|]. apply remplace_meme. lia.
  - intros j Hj Hne. unfold getitem.
    rewrite remplace_length, py_index_pos by assumption. cbn [lie].
    rewrite remplace_autre by lia. reflexivity.
Qed.

Lemma getitem_In_pos {A} (l : list A) (i : Z) (v : A) :
  0 <= i -> getitem l i = Ok v -> nth_error l (Z.to_nat i) = Some v.
Proof.
  intros Hi. unfold getitem, py_index.
  destruct (Z.leb_spec 0 i); [|lia].
  destruct (Z.ltb_spec i (Z.of_nat (length l))); cbn [andb lie].
  - destruct (nth_error l (Z.to_nat i)); [congruence|discriminate].
  - destruct (Z.ltb_spec i 0); [lia|]. rewrite andb_false_r. discriminate.
Qed.

Section Rasters.
Context {F : Type}.

Lemma rectangulaire_getitem2 (ras : raster F) (nb_lignes nb_colonnes : Z)
    (l c : Z) :
  rectangulaire ras nb_lignes nb_colonnes ->
  0 <= l < nb_lignes -> 0 <= c < nb_colonnes ->
  exists v, getitem2 ras l c = Ok v.
Proof.
  intros [Hn Hc] Hl Hcol. unfold getitem2.
  destruct (getitem_dans ras l) as [ligne Hg]; [lia|]. rewrite Hg. cbn [lie].
  apply getitem_dans. rewrite (Hc ligne); [assumption|].
  eapply getitem_In. eassumption.
Qed.

(** [ras[l, c] = v] on a cell of the raster: the shape is kept, the cell
    holds [v] and the other cells are as they were. *)
Lemma setitem2_effet (ras : raster F) (nb_lignes nb_colonnes : Z)
    (l c : Z) (v : F) :
  rectangulaire ras nb_lignes nb_colonnes ->
  0 <= l < nb_lignes -> 0 <= c < nb_colonnes ->
  exists ras', setitem2 ras l c v = Ok ras'
    /\ rectangulaire ras' nb_lignes nb_colonnes
    /\ getitem2 ras' l c = Ok v
    /\ forall l' c', 0 <= l' < nb_lignes -> 0 <= c' < nb_colonnes ->
         (l', c') <> (l, c) -> getitem2 ras' l' c' = getitem2 ras l' c'.
Proof.
  intros [Hn Hc] Hl Hcol. unfold setitem2.
  destruct (getitem_dans ras l) as [ligne Hg]; [lia|]. rewrite Hg. cbn [lie].
  assert (Hlen : Z.of_nat (length ligne) = nb_colonnes)
    by (apply Hc; eapply getitem_In; eassumption).
  destruct (getitem_setitem ligne c v) as (ligne' & Hs & Hlen' & Hmeme & Hautre);
    [lia|].
  rewrite Hs. cbn [lie].
  destruct (getitem_setitem ras l ligne') as (ras' & Hs2 & Hn' & Hm2 & Ha2);
    [lia|].
  rewrite Hs2. exists ras'. split; [reflexivity|]. split; [|split].
  - split; [lia|]. intros lg Hin.
    apply In_nth_error in Hin as [p Hp].
    assert (Hpl : (p < length ras')%nat) by (apply nth_error_Some; congruence).
    destruct (Z.eq_dec (Z.of_nat p) l) as [E|E].
    + assert (Hg' : getitem ras' (Z.of_nat p) = Ok lg)
        by (apply getitem_pos; [lia|now rewrite Nat2Z.id]).
      rewrite E, Hm2 in Hg'. injection Hg' as <-. lia.
    + assert (Hg' : getitem ras' (Z.of_nat p) = Ok lg)
        by (apply getitem_pos; [lia|now rewrite Nat2Z.id]).
      rewrite Ha2 in Hg' by lia. apply Hc. eapply getitem_In. eassumption.
  - unfold getitem2. rewrite Hm2. cbn [lie]. exact Hmeme.
  - intros l' c' Hl' Hc' Hne. unfold getitem2.
    destruct (Z.eq_dec l' l) as [->|E].
    + rewrite Hm2, Hg. cbn [lie]. apply Hautre; [lia|congruence].
    + rewrite Ha2 by lia. reflexivity.
Qed.

Lemma np_full2_effet `{Flottant F} (nb_lignes nb_colonnes : Z) (v : F) :
  0 <= nb_lignes -> 0 <= nb_colonnes ->
  exists ras, np_full2 nb_lignes nb_colonnes v = Ok ras
    /\ rectangulaire ras nb_lignes nb_colonnes
    /\ forall l c, 0 <= l < nb_lignes -> 0 <= c < nb_colonnes ->
         getitem2 ras l c = Ok v.
Proof.
  intros Hl Hc. unfold np_full2.
  destruct (Z.ltb_spec nb_lignes 0); [lia|].
  destruct (Z.ltb_spec nb_colonnes 0); [lia|]. cbn [orb].
  eexists. split; [reflexivity|]. split.
  - split; [rewrite repeat_length; lia|].
    intros ligne Hin. apply repeat_spec in Hin as ->.
    rewrite repeat_length. lia.
  - intros l c Hl' Hc'. unfold getitem2.
    rewrite (getitem_pos _ l (repeat v (Z.to_nat nb_colonnes)));
      [|lia|apply nth_error_repeat; lia].
    cbn [lie]. apply getitem_pos; [lia|]. apply nth_error_repeat. lia.
Qed.

End Rasters.

Section BouclePixels.
Context {F : Type} `{Flottant F}.

Lemma pour_ext {A S} (l : list A) (f g : S -> A -> resultat S) (s : S) :
  (forall s a, In a l -> f s a = g s a) -> pour l f s = pour l g s.
Proof.
  revert s. induction l as [|a l IH]; intros s Hfg; [reflexivity|].
  cbn [pour]. rewrite (Hfg s a) by now left.
  destruct (g s a); cbn [lie]; [|reflexivity].
  apply IH. intros s' b Hb. apply Hfg. now right.
Qed.

Lemma boucle_pixels (val : list (Z * F) -> resultat (option F))
    (mapping : map_pixels F) (nb_lignes nb_colonnes : Z) (ras0 : raster F) :
  rectangulaire ras0 nb_lignes nb_colonnes ->
  NoDup (dict_keys mapping) ->
  cles_dans_grille nb_lignes nb_colonnes mapping ->
  (forall cle lst, In (cle, lst) mapping -> exists o, val lst = Ok o) ->
  exists ras,
    pour mapping (affecte_pixel val) ras0 = Ok ras
    /\ rectangulaire ras nb_lignes nb_colonnes
    /\ forall l c, 0 <= l < nb_lignes -> 0 <= c < nb_colonnes ->
         getitem2 ras l c =
           match dict_get mapping (l, c) with
           | Some lst =>
               match val lst with
               | Ok (Some v) => Ok v
               | _ => getitem2 ras0 l c
               end
           | None => getitem2 ras0 l c
           end.
Proof.
  revert ras0.
  induction mapping as [|[[l0 c0] lst] m IH]; intros ras0 Hrect Hnd Hcles Hval.
  - exists ras0. split; [reflexivity|]. split; [exact Hrect|].
    intros; reflexivity.
  - apply NoDup_cons_iff in Hnd as [Hnotin Hnd]. cbn [dict_keys map fst] in *.
    assert (Hcles' : cles_dans_grille nb_lignes nb_colonnes m)
      by (intros l c Hin; apply Hcles; now right).
    assert (Hval' : forall cle lst', In (cle, lst') m -> exists o, val lst' = Ok o)
      by (intros cle lst' Hin; apply (Hval cle); now right).
    destruct (Hcles l0 c0 (or_introl eq_refl)) as [Hl0 Hc0].
    destruct (Hval (l0, c0) lst (or_introl eq_refl)) as [o Ho].
    assert (Habs : dict_get m (l0, c0) = None).
    { clear -Hnotin. induction m as [|[k v] m IH]; [reflexivity|].
      simpl in *. destruct (cle_dec (l0, c0) k) as [E|E]; [subst k; tauto|].
      apply IH. tauto. }
    cbn [pour]. unfold affecte_pixel at 1. rewrite Ho. cbn [lie].
    destruct o as [v|].
    + destruct (setitem2_effet ras0 nb_lignes nb_colonnes l0 c0 v Hrect Hl0 Hc0)
        as (ras1 & Hs & Hrect1 & Hmeme & Hautre).
      rewrite Hs. cbn [lie].
      destruct (IH ras1 Hrect1 Hnd Hcles' Hval') as (ras & Hp & Hrect' & Hg).
      exists ras. split; [exact Hp|]. split; [exact Hrect'|].
      intros l c Hl Hc. rewrite (Hg l c Hl Hc). cbn [dict_get].
      destruct (cle_dec (l, c) (l0, c0)) as [E|E].
      * injection E as -> ->. rewrite Habs, Ho. exact Hmeme.
      * rewrite (Hautre l c Hl Hc E). reflexivity.
    + destruct (IH ras0 Hrect Hnd Hcles' Hval') as (ras & Hp & Hrect' & Hg).
      exists ras. split; [exact Hp|]. split; [exact Hrect'|].
      intros l c Hl Hc. rewrite (Hg l c Hl Hc). cbn [dict_get].
      destruct (cle_dec (l, c) (l0, c0)) as [E|E]; [|reflexivity].
      injection E as -> ->. now rewrite Habs, Ho.
Qed.

Lemma valeur_de_getitem (valeurs : list F) (id : Z) :
  0 <= id < Z.of_nat (length valeurs) ->
  getitem valeurs id = Ok (valeur_de valeurs id).
Proof.
  intros Hid. unfold valeur_de.
  destruct (getitem_dans valeurs id Hid) as [v ->]. reflexivity.
Qed.

(** The inner loop of [projette_triangles_surface]. *)
Lemma cumule_surface_boucle (valeurs : list F) (liste : list (Z * F))
    (num den : F) :
  (forall id a, In (id, a) liste -> 0 <= id < Z.of_nat (length valeurs)) ->
  pour liste (cumule_surface valeurs) (num, den) =
    Ok (fold_left fl_add
          (map (fun e => fl_mul (valeur_de valeurs (fst e)) (snd e))
               (entrees_non_nan valeurs liste)) num,
        fold_left fl_add (map snd (entrees_non_nan valeurs liste)) den).
Proof.
  revert num den. induction liste as [|[id a] liste IH]; intros num den Hids.
  - reflexivity.
  - cbn [pour]. unfold cumule_surface at 1.
    rewrite valeur_de_getitem by (apply (Hids id a); now left). cbn [lie].
    unfold entrees_non_nan. cbn [filter fst].
    destruct (fl_isnan (valeur_de valeurs id)); cbn [negb lie map fold_left fst snd].
    + apply IH. intros id' a' Hin. apply (Hids id' a'). now right.
    + apply IH. intros id' a' Hin. apply (Hids id' a'). now right.
Qed.

(** The weighted loop of [sm_vers_mh_raster]. *)
Lemma cumule_sm_boucle (val_tri : list F) (lst : list (Z * F)) (num den : F) :
  (forall id a, In (id, a) lst -> 0 <= id < Z.of_nat (length val_tri)) ->
  pour lst (cumule_sm val_tri) (num, den) =
    Ok (fold_left fl_add
          (map (fun e => fl_mul (valeur_de val_tri (fst e)) (snd e))
               (entrees_finies val_tri lst)) num,
        fold_left fl_add (map snd (entrees_finies val_tri lst)) den).
Proof.
  revert num den. induction lst as [|[id a] lst IH]; intros num den Hids.
  - reflexivity.
  - assert (Hids' : forall id' a', In (id', a') lst ->
                      0 <= id' < Z.of_nat (length val_tri))
      by (intros id' a' Hin; apply (Hids id' a'); now right).
    cbn [pour]. unfold cumule_sm at 1.
    unfold entrees_finies. cbn [filter fst snd].
    destruct (fl_leb a fl_zero); cbn [negb andb lie]; [now apply IH|].
    rewrite valeur_de_getitem by (apply (Hids id a); now left). cbn [lie].
    destruct (fl_isfinite (valeur_de val_tri id));
      cbn [negb lie map fold_left fst snd]; now apply IH.
Qed.

(** The list comprehension of the unweighted mode. *)
Lemma valeurs_triangles_boucle (val_tri : list F) (lst : list (Z * F))
    (acc : list F) :
  (forall id a, In (id, a) lst -> 0 <= id < Z.of_nat (length val_tri)) ->
  pour lst (fun vals '(id_tri, _) =>
              v <- getitem val_tri id_tri ;; Ok (vals ++ [v])) acc
    = Ok (acc ++ map (fun e => valeur_de val_tri (fst e)) lst).
Proof.
  revert acc. induction lst as [|[id a] lst IH]; intros acc Hids.
  - simpl. now rewrite app_nil_r.
  - cbn [pour]. rewrite valeur_de_getitem by (apply (Hids id a); now left).
    cbn [lie]. rewrite IH by (intros id' a' Hin; apply (Hids id' a'); now right).
    cbn [map fst]. now rewrite <- app_assoc.
Qed.

End BouclePixels.

(** X1. What [projette_triangles_surface] computes.  On a mapping whose keys
    are distinct cells of the raster and whose ids are indices of [valeurs],
    it returns a raster of the requested shape in which a cell that is not a
    key holds [fill], and a key holds the area-weighted mean of the values of
    its entries that are not NaN, sum(v * a) / sum(a), when the sum of their
    areas is [> 0], and [fill] otherwise. *)
Theorem projette_triangles_surface_valeurs {F : Type} `{Flottant F}
    (valeurs : list F) (mapping : map_pixels F) (nb_lignes nb_colonnes : Z)
    (fill : F) :
  0 <= nb_lignes -> 0 <= nb_colonnes ->
  NoDup (dict_keys mapping) ->
  cles_dans_grille nb_lignes nb_colonnes mapping ->
  ids_valides mapping (length valeurs) ->
  exists ras,
    projette_triangles_surface valeurs mapping nb_lignes nb_colonnes fill
      = Ok ras
    /\ rectangulaire ras nb_lignes nb_colonnes
    /\ forall l c, 0 <= l < nb_lignes -> 0 <= c < nb_colonnes ->
         getitem2 ras l c =
           Ok (match dict_get mapping (l, c) with
               | None => fill
               | Some liste =>
                   moyenne_surface valeurs (entrees_non_nan valeurs liste) fill
               end).
Proof.
  intros Hl Hc Hnd Hcles Hids. unfold projette_triangles_surface.
  destruct (np_full2_effet nb_lignes nb_colonnes fill Hl Hc)
    as (ras0 & Hfull & Hrect & Hfill).
  rewrite Hfull. cbn [lie].
  set (val := fun liste : list (Z * F) =>
                acc <- pour liste (cumule_surface valeurs) (fl_zero, fl_zero) ;;
                Ok (if fl_ltb fl_zero (snd acc)
                    then Some (fl_div (fst acc) (snd acc)) else None)).
  rewrite (pour_ext mapping (surface_pixel valeurs) (affecte_pixel val)).
  2:{ intros ras [[l c] liste] _. unfold surface_pixel, affecte_pixel, val.
      destruct (pour liste (cumule_surface valeurs) (fl_zero, fl_zero))
        as [[num den]|]; cbn [lie fst snd]; [|reflexivity].
      now destruct (fl_ltb fl_zero den). }
  assert (Hval : forall cle liste, In (cle, liste) mapping ->
            val liste = Ok (if fl_ltb fl_zero
                                 (np_sum (map snd (entrees_non_nan valeurs liste)))
                            then Some (moyenne_surface valeurs
                                         (entrees_non_nan valeurs liste) fill)
                            else None)).
  { intros cle liste Hin. unfold val.
    rewrite cumule_surface_boucle
      by (intros id a Hia; apply (Hids cle liste id a Hin Hia)).
    cbn [lie fst snd]. unfold moyenne_surface. fold (np_sum (map snd (entrees_non_nan valeurs liste))).
    unfold np_sum.
    now destruct (fl_ltb fl_zero _). }
  destruct (boucle_pixels val mapping nb_lignes nb_colonnes ras0 Hrect Hnd Hcles)
    as (ras & Hp & Hrect' & Hg).
  { intros cle liste Hin. rewrite (Hval cle liste Hin). eauto. }
  exists ras. split; [exact Hp|]. split; [exact Hrect'|].
  intros l c Hl' Hc'. rewrite (Hg l c Hl' Hc'), (Hfill l c Hl' Hc').
  destruct (dict_get mapping (l, c)) as [liste|] eqn:Eg; [|reflexivity].
  assert (Hin : In ((l, c), liste) mapping).
  { clear -Eg. induction mapping as [|[k v] m IH]; [discriminate|].
    simpl in Eg. destruct (cle_dec (l, c) k) as [<-|].
    - injection Eg as ->. now left.
    - right. now apply IH. }
  rewrite (Hval _ _ Hin). unfold moyenne_surface.
  now destruct (fl_ltb fl_zero _).
Qed.

Lemma projette_triangles_surface_valeurs_temoin :
  exists ras,
    projette_triangles_surface [1%float; PrimFloat.nan; 3%float]
      [((0, 1), [(0, 0.5%float); (1, 0.25%float); (2, 0.5%float)]);
       ((1, 0), [(1, 1%float)])] 2 2 (-1)%float = Ok ras
    /\ getitem2 ras 0 0 = Ok (-1)%float
    /\ getitem2 ras 0 1 = Ok 2%float
    /\ getitem2 ras 1 0 = Ok (-1)%float.
Proof.
  destruct (projette_triangles_surface_valeurs
              [1%float; PrimFloat.nan; 3%float]
              [((0, 1), [(0, 0.5%float); (1, 0.25%float); (2, 0.5%float)]);
               ((1, 0), [(1, 1%float)])] 2 2 (-1)%float)
    as (ras & Hr & _ & Hg); try lia.
  - repeat constructor; simpl; intuition discriminate.
  - intros l c [[= <- <-]|[[= <- <-]|[]]]; lia.
  - intros cle lst id a [[= <- <-]|[[= <- <-]|[]]] Hin; simpl in Hin;
      intuition; match goal with E : (_, _) = (_, _) |- _ =>
                   injection E as <- _ end; simpl; lia.
  - exists ras. split; [exact Hr|].
    split; [|split]; [apply (Hg 0 0)|apply (Hg 0 1)|apply (Hg 1 0)]; lia.
Defined.

(** X2. What the aggregation loop of [sm_vers_mh_raster] computes.  On a
    mapping whose keys are distinct cells of the raster and whose ids are
    indices of [val_tri], it returns a raster of the grid shape in which a
    cell that is not a key, or a key with no entry, holds NaN; in weighted
    mode a key holds sum(v * a) / sum(a) over its entries with an area that
    is not [<= 0] and a finite value, when the sum of these areas is [> 0],
    and NaN otherwise; in unweighted mode a key holds the mean of the
    values of all its entries, the non-finite ones included. *)
Theorem sm_vers_mh_raster_valeurs {F : Type} `{Flottant F}
    (nb_lignes nb_colonnes : Z) (map_px : map_pixels F) (val_tri : list F)
    (pondere : bool) :
  0 <= nb_lignes -> 0 <= nb_colonnes ->
  NoDup (dict_keys map_px) ->
  cles_dans_grille nb_lignes nb_colonnes map_px ->
  ids_valides map_px (length val_tri) ->
  exists ras_rec,
    sm_vers_mh_raster nb_lignes nb_colonnes map_px val_tri pondere = Ok ras_rec
    /\ rectangulaire ras_rec nb_lignes nb_colonnes
    /\ forall l c, 0 <= l < nb_lignes -> 0 <= c < nb_colonnes ->
         getitem2 ras_rec l c =
           Ok (match dict_get map_px (l, c) with
               | None | Some [] => fl_nan
               | Some lst =>
                   if pondere
                   then moyenne_surface val_tri (entrees_finies val_tri lst)
                          fl_nan
                   else np_mean (map (fun e => valeur_de val_tri (fst e)) lst)
               end).
Proof.
  intros Hl Hc Hnd Hcles Hids. unfold sm_vers_mh_raster.
  destruct (np_full2_effet nb_lignes nb_colonnes fl_nan Hl Hc)
    as (ras0 & Hfull & Hrect & Hfill).
  rewrite Hfull. cbn [lie].
  set (val := fun lst : list (Z * F) =>
    match lst with
    | [] => Ok None
    | _ :: _ =>
        if negb pondere then
          vals <- valeurs_triangles val_tri lst ;;
          Ok (match vals with [] => None | _ :: _ => Some (np_mean vals) end)
        else
          acc <- pour lst (cumule_sm val_tri) (fl_zero, fl_zero) ;;
          Ok (if fl_ltb fl_zero (snd acc)
              then Some (fl_div (fst acc) (snd acc)) else None)
    end).
  rewrite (pour_ext map_px (sm_pixel val_tri pondere) (affecte_pixel val)).
  2:{ intros ras [[l c] lst] _. unfold sm_pixel, affecte_pixel, val.
      destruct lst as [|e lst]; [reflexivity|].
      destruct pondere; cbn [negb].
      - destruct (pour (e :: lst) (cumule_sm val_tri) (fl_zero, fl_zero))
          as [[num den]|]; cbn [lie fst snd]; [|reflexivity].
        now destruct (fl_ltb fl_zero den).
      - destruct (valeurs_triangles val_tri (e :: lst)) as [vals|];
          cbn [lie]; [|reflexivity].
        now destruct vals. }
  assert (Hval : forall cle lst, In (cle, lst) map_px ->
    val lst = Ok (match lst with
                  | [] => None
                  | _ :: _ =>
                      if pondere then
                        if fl_ltb fl_zero
                             (np_sum (map snd (entrees_finies val_tri lst)))
                        then Some (moyenne_surface val_tri
                                     (entrees_finies val_tri lst) fl_nan)
                        else None
                      else Some (np_mean
                                   (map (fun e => valeur_de val_tri (fst e)) lst))
                  end)).
  { intros cle lst Hin. unfold val.
    assert (Hi : forall id a, In (id, a) lst ->
                   0 <= id < Z.of_nat (length val_tri))
      by (intros id a Hia; apply (Hids cle lst id a Hin Hia)).
    destruct lst as [|e lst]; [reflexivity|].
    destruct pondere; cbn [negb].
    - rewrite cumule_sm_boucle by assumption. cbn [lie fst snd].
      unfold moyenne_surface, np_sum. now destruct (fl_ltb fl_zero _).
    - unfold valeurs_triangles. rewrite valeurs_triangles_boucle by assumption.
      cbn [lie app]. reflexivity. }
  destruct (boucle_pixels val map_px nb_lignes nb_colonnes ras0 Hrect Hnd Hcles)
    as (ras & Hp & Hrect' & Hg).
  { intros cle lst Hin. rewrite (Hval cle lst Hin). eauto. }
  exists ras. split; [exact Hp|]. split; [exact Hrect'|].
  intros l c Hl' Hc'. rewrite (Hg l c Hl' Hc'), (Hfill l c Hl' Hc').
  destruct (dict_get map_px (l, c)) as [lst|] eqn:Eg; [|reflexivity].
  assert (Hin : In ((l, c), lst) map_px).
  { clear -Eg. induction map_px as [|[k v] m IH]; [discriminate|].
    simpl in Eg. destruct (cle_dec (l, c) k) as [<-|].
    - injection Eg as ->. now left.
    - right. now apply IH. }
  rewrite (Hval _ _ Hin). destruct lst as [|e lst]; [reflexivity|].
  destruct pondere; [|reflexivity].
  unfold moyenne_surface. now destruct (fl_ltb fl_zero _).
Qed.

Lemma sm_vers_mh_raster_valeurs_temoin :
  exists ras_rec,
    sm_vers_mh_raster 1 2 exemple_map_px [1%float; infinity] false = Ok ras_rec
    /\ getitem2 ras_rec 0 0 = Ok infinity
    /\ getitem2 ras_rec 0 1 = Ok PrimFloat.nan.
Proof.
  destruct (@sm_vers_mh_raster_valeurs float _ 1 2 exemple_map_px
              [1%float; infinity] false) as (ras & Hr & _ & Hg); try lia.
  - repeat constructor; simpl; intuition discriminate.
  - intros l c [[= <- <-]|[]]; lia.
  - intros cle lst id a [[= <- <-]|[]] Hin; simpl in Hin;
      intuition; match goal with E : (_, _) = (_, _) |- _ =>
                   injection E as <- _ end; simpl; lia.
  - exists ras. split; [exact Hr|].
    split; [apply (Hg 0 0)|apply (Hg 0 1)]; lia.
Defined.

(** X3. The weighted mode of [sm_vers_mh_raster] and
    [projette_triangles_surface] with its default [fill] are the same
    function on the inputs the pipeline gives them: when no recorded area is
    [<= 0] and no triangle value is infinite, they return the same raster or
    raise the same exception. *)
Theorem sm_vers_mh_raster_comme_surface (nb_lignes nb_colonnes : Z)
    (map_px : map_pixels float) (val_tri : list float) :
  (forall cle lst id a, In (cle, lst) map_px -> In (id, a) lst ->
     PrimFloat.leb a 0 = false) ->
  (forall v, In v val_tri ->
     PrimFloat.is_finite v = negb (PrimFloat.is_nan v)) ->
  sm_vers_mh_raster nb_lignes nb_colonnes map_px val_tri true
    = projette_triangles_surface val_tri map_px nb_lignes nb_colonnes
        PrimFloat.nan.
Proof.
  intros Haires Hvals.
  unfold sm_vers_mh_raster, projette_triangles_surface.
  change (fl_nan (F := float)) with PrimFloat.nan.
  destruct (np_full2 nb_lignes nb_colonnes PrimFloat.nan) as [ras0|];
    cbn [lie]; [|reflexivity].
  apply pour_ext. intros ras [[l c] lst] Hin.
  unfold sm_pixel, surface_pixel. cbn [negb].
  assert (Hb : forall acc,
            pour lst (cumule_sm val_tri) acc
              = pour lst (cumule_surface val_tri) acc).
  { intros acc. apply pour_ext. intros [num den] [id a] Hia.
    unfold cumule_sm, cumule_surface.
    change (fl_leb a fl_zero) with (PrimFloat.leb a 0).
    rewrite (Haires _ _ _ _ Hin Hia).
    destruct (getitem val_tri id) as [v|] eqn:Eg; cbn [lie]; [|reflexivity].
    change (fl_isfinite v) with (PrimFloat.is_finite v).
    change (fl_isnan v) with (PrimFloat.is_nan v).
    rewrite (Hvals v) by (eapply getitem_In; eassumption).
    now rewrite negb_involutive. }
  destruct lst as [|e lst]; [reflexivity|]. now rewrite Hb.
Qed.

Lemma sm_vers_mh_raster_comme_surface_temoin :
  sm_vers_mh_raster 1 1 exemple_map_px [1%float; PrimFloat.nan] true
    = projette_triangles_surface [1%float; PrimFloat.nan] exemple_map_px 1 1
        PrimFloat.nan.
Proof.
  apply sm_vers_mh_raster_comme_surface.
  - intros cle lst id a [[= <- <-]|[]] Hin; simpl in Hin; intuition;
      match goal with E : (_, _) = (_, _) |- _ => injection E as <- <- end;
      reflexivity.
  - intros v [<-|[<-|[]]]; reflexivity.
Defined.

(** ** The surface mapping: keys, order and ids *)

Lemma dict_append_nodup {K A} `{Cle K} (d : dict K (list A)) (k : K) (x : A) :
  NoDup (dict_keys d) -> NoDup (dict_keys (dict_append d k x)).
Proof.
  induction d as [|[k0 l0] d IH]; simpl; intros Hnd.
  - constructor; [intros []|constructor].
  - destruct (cle_dec k k0) as [->|Hk]; simpl; [exact Hnd|].
    apply NoDup_cons_iff in Hnd as [Hn Hnd]. constructor; [|auto].
    intros Hin. apply dict_keys_append in Hin as [E|Hin]; [congruence|tauto].
Qed.

Lemma dict_set_nodup {K V} `{Cle K} (d : dict K V) (k : K) (v : V) :
  NoDup (dict_keys d) -> NoDup (dict_keys (dict_set d k v)).
Proof.
  induction d as [|[k0 v0] d IH]; simpl; intros Hnd.
  - constructor; [intros []|constructor].
  - destruct (cle_dec k k0) as [->|Hk]; simpl; [exact Hnd|].
    apply NoDup_cons_iff in Hnd as [Hn Hnd]. constructor; [|auto].
    intros Hin. apply dict_keys_set in Hin as [E|Hin]; [congruence|tauto].
Qed.

(** The bindings of a dictionary after [setdefault(k, []).append(x)]. *)
Lemma dict_append_In {K A} `{Cle K} (d : dict K (list A)) (k k' : K) (x : A)
    (l : list A) :
  NoDup (dict_keys d) ->
  In (k', l) (dict_append d k x) ->
  (k' <> k /\ In (k', l) d)
  \/ (k' = k /\ exists l0, l = l0 ++ [x]
                  /\ (In (k, l0) d \/ (l0 = [] /\ ~ In k (dict_keys d)))).
Proof.
  induction d as [|[k0 l0] d IH]; simpl; intros Hnd Hin.
  - destruct Hin as [[= <- <-]|[]]. right. split; [reflexivity|].
    exists []. split; [reflexivity|]. right. tauto.
  - apply NoDup_cons_iff in Hnd as [Hn Hnd].
    destruct (cle_dec k k0) as [->|Hk].
    + destruct Hin as [[= <- <-]|Hin].
      * right. split; [reflexivity|]. exists l0. auto.
      * left. split; [|now right]. intros ->. apply Hn.
        apply (in_map fst) in Hin. exact Hin.
    + destruct Hin as [[= <- <-]|Hin].
      * left. split; [congruence|now left].
      * destruct (IH Hnd Hin) as [[Hne Hd]|(-> & l1 & -> & Hcas)].
        -- left. auto.
        -- right. split; [reflexivity|]. exists l1. split; [reflexivity|].
           destruct Hcas as [Hd|[-> Ha]]; [auto|].
           right. split; [reflexivity|]. intros [E|Hd]; [congruence|tauto].
Qed.

Lemma dict_get_In {K V} `{Cle K} (d : dict K V) (k : K) (v : V) :
  dict_get d k = Some v -> In (k, v) d.
Proof.
  induction d as [|[k0 v0] d IH]; simpl; [discriminate|].
  destruct (cle_dec k k0) as [->|]; [intros [= ->]; now left|auto].
Qed.

Lemma dict_In_get {K V} `{Cle K} (d : dict K V) (k : K) (v : V) :
  NoDup (dict_keys d) -> In (k, v) d -> dict_get d k = Some v.
Proof.
  induction d as [|[k0 v0] d IH]; simpl; [intros _ []|].
  intros Hnd Hin. apply NoDup_cons_iff in Hnd as [Hn Hnd].
  destruct (cle_dec k k0) as [->|Hne].
  - destruct Hin as [[= <-]|Hin]; [reflexivity|].
    exfalso. apply Hn. apply (in_map fst) in Hin. exact Hin.
  - destruct Hin as [[= <- <-]|Hin]; [congruence|auto].
Qed.

Lemma StronglySorted_app_un (l : list Z) (y : Z) :
  StronglySorted Z.lt l -> (forall x, In x l -> x < y) ->
  StronglySorted Z.lt (l ++ [y]).
Proof.
  induction 1 as [|a l Hs IH Ha]; intros Hy; simpl.
  - repeat constructor.
  - constructor.
    + apply IH. intros x Hx. apply Hy. now right.
    + apply Forall_app. split; [exact Ha|].
      constructor; [|constructor]. apply Hy. now left.
Qed.

Lemma py_range_NoDup (a b : Z) : NoDup (py_range a b).
Proof.
  unfold py_range. apply Finite.Injective_map_NoDup; [|apply seq_NoDup].
  intros i j Hij. lia.
Qed.

Section OrdreSurface.
Context {F : Type} `{Flottant F} `{Shapely F}.

(** The two nested loops over the candidate cells are one loop over the
    cells, row after row. *)
Lemma surface_cellules_liste (gt : geotransform F) (poly_tri : triangle2 F)
    (id_tri : Z) (lignes colonnes : list Z) (m : map_pixels F) :
  fold_left
    (fun m1 ligne =>
       fold_left (surface_cellule gt poly_tri id_tri ligne) colonnes m1)
    lignes m
  = fold_left
      (fun m1 lc => surface_cellule gt poly_tri id_tri (fst lc) m1 (snd lc))
      (flat_map (fun l => map (pair l) colonnes) lignes) m.
Proof.
  revert m. induction lignes as [|l lignes IH]; intros m; [reflexivity|].
  cbn [fold_left flat_map]. rewrite fold_left_app, <- IH. f_equal.
  clear IH. revert m. induction colonnes as [|c colonnes IHc]; intros m;
    [reflexivity|].
  cbn [fold_left map fst snd]. apply IHc.
Qed.

Lemma cellules_NoDup (lignes colonnes : list Z) :
  NoDup lignes -> NoDup colonnes ->
  NoDup (flat_map (fun l => map (pair l) colonnes) lignes).
Proof.
  intros Hl Hc. induction Hl as [|l lignes Hn Hl IH]; [constructor|].
  cbn [flat_map]. apply NoDup_app.
  - apply Finite.Injective_map_NoDup; [|exact Hc]. intros x y [= ->].
    reflexivity.
  - exact IH.
  - intros [l' c'] Hin Hin'. apply in_map_iff in Hin as (c0 & [= <- <-] & _).
    apply in_flat_map in Hin' as (l1 & Hl1 & Hin').
    apply in_map_iff in Hin' as (c1 & [= <- <-] & _). contradiction.
Qed.

(** The loop over the cells for triangle [id_tri]: the cells still to visit
    hold ids below [id_tri] only. *)
Lemma surface_cellules_ordre (gt : geotransform F) (poly_tri : triangle2 F)
    (id_tri : Z) (cellules : list (Z * Z)) (m : map_pixels F) :
  NoDup cellules ->
  NoDup (dict_keys m) ->
  (forall cle lst, In (cle, lst) m ->
     lst <> [] /\ StronglySorted Z.lt (map fst lst)
     /\ (forall id a, In (id, a) lst -> 0 <= id <= id_tri)
     /\ (In cle cellules -> forall id a, In (id, a) lst -> id < id_tri)) ->
  0 <= id_tri ->
  let m' := fold_left
              (fun m1 lc => surface_cellule gt poly_tri id_tri (fst lc) m1 (snd lc))
              cellules m in
  NoDup (dict_keys m')
  /\ forall cle lst, In (cle, lst) m' ->
       lst <> [] /\ StronglySorted Z.lt (map fst lst)
       /\ forall id a, In (id, a) lst -> 0 <= id <= id_tri.
Proof.
  intros Hcells. revert m.
  induction Hcells as [|[l c] cellules Hn Hcells IH]; intros m Hnd Hinv Hid m'.
  - split; [exact Hnd|]. intros cle lst Hin.
    destruct (Hinv cle lst Hin) as (Q1 & Q2 & Q3 & _). auto.
  - subst m'. cbn [fold_left fst snd]. apply IH; [| |exact Hid].
    + unfold surface_cellule.
      destruct (intersection_area _ _) as [aire|]; [|exact Hnd].
      destruct (fl_leb aire fl_zero); [exact Hnd|].
      now apply dict_append_nodup.
    + intros cle lst Hin.
      assert (Hcas : In (cle, lst) m
                     \/ (cle = (l, c) /\ exists l0, lst = l0 ++ [(id_tri, 
                            match intersection_area poly_tri (cellule gt l c)
                            with Some a => a | None => fl_zero end)]
                         /\ (In ((l, c), l0) m \/ l0 = []))).
      { unfold surface_cellule in Hin.
        destruct (intersection_area _ _) as [aire|]; [|now left].
        destruct (fl_leb aire fl_zero); [now left|].
        apply dict_append_In in Hin; [|exact Hnd].
        destruct Hin as [[_ Hin]|(-> & l0 & -> & Hcas)]; [now left|].
        right. split; [reflexivity|]. exists l0. split; [reflexivity|].
        destruct Hcas as [Hd|[-> _]]; auto. }
      destruct Hcas as [Hm|(-> & l0 & -> & Hl0)].
      * destruct (Hinv cle lst Hm) as (Q1 & Q2 & Q3 & Q4).
        split; [exact Q1|]. split; [exact Q2|]. split; [exact Q3|].
        intros Hc. apply Q4. now right.
      * split; [now destruct l0|].
        assert (Hl0' : StronglySorted Z.lt (map fst l0)
                       /\ forall id a, In (id, a) l0 -> 0 <= id < id_tri).
        { destruct Hl0 as [Hm| ->].
          - destruct (Hinv (l, c) l0 Hm) as (_ & Q2 & Q3 & Q4).
            split; [exact Q2|]. intros id a Hia.
            split; [apply (Q3 id a Hia)|].
            apply (Q4 (or_introl eq_refl) id a Hia).
          - split; [constructor|intros ? ? []]. }
        destruct Hl0' as [Hs Hb]. split; [|split].
        -- rewrite map_app. apply StronglySorted_app_un; [exact Hs|].
           intros x Hx. apply in_map_iff in Hx as ([id a] & <- & Hia).
           apply (Hb id a Hia).
        -- intros id a Hia. apply in_app_iff in Hia as [Hia|[[= <- _]|[]]];
             [|lia]. specialize (Hb id a Hia). lia.
        -- intros Hc. contradiction.
Qed.

Lemma cles_dans_grille_In (nb_lignes nb_colonnes : Z) (m : map_pixels F)
    (l c : Z) (lst : list (Z * F)) :
  cles_dans_grille nb_lignes nb_colonnes m -> In ((l, c), lst) m ->
  0 <= l < nb_lignes /\ 0 <= c < nb_colonnes.
Proof.
  intros Hc Hin. apply Hc. apply (in_map fst) in Hin. exact Hin.
Qed.

(** One triangle more. *)
Lemma surface_triangle_ordre (points : list (F * F * F)) (gt : geotransform F)
    (nb_lignes nb_colonnes : Z) (m m' : map_pixels F) (id_tri : Z)
    (tri : Z * Z * Z) :
  0 <= id_tri ->
  surface_triangle points gt nb_lignes nb_colonnes m (id_tri, tri) = Ok m' ->
  NoDup (dict_keys m) /\ cles_dans_grille nb_lignes nb_colonnes m
  /\ entrees_ordonnees m id_tri ->
  NoDup (dict_keys m') /\ cles_dans_grille nb_lignes nb_colonnes m'
  /\ entrees_ordonnees m' (id_tri + 1).
Proof.
  intros Hid Hs (Hnd & Hcles & Hord).
  assert (Hmono : entrees_ordonnees m (id_tri + 1)).
  { intros cle lst Hin. destruct (Hord cle lst Hin) as (Q1 & Q2 & Q3).
    split; [exact Q1|]. split; [exact Q2|].
    intros id a Hia. specialize (Q3 id a Hia). lia. }
  unfold surface_triangle in Hs.
  destruct (sommets points tri) as [poly_tri|]; cbn [lie] in Hs;
    [|discriminate].
  destruct (polygon_is_empty poly_tri || _);
    [injection Hs as <-; auto|].
  destruct (indices_candidats _ _ _ _) as [[[[cmin lmin] cmax] lmax]|] eqn:E;
    cbn [lie] in Hs; [|discriminate].
  injection Hs as <-. split; [|split].
  - unfold surface_cellules. rewrite surface_cellules_liste.
    apply surface_cellules_ordre; try assumption.
    + apply cellules_NoDup; apply py_range_NoDup.
    + intros cle lst Hin. destruct (Hord cle lst Hin) as (Q1 & Q2 & Q3).
      split; [exact Q1|]. split; [exact Q2|]. split.
      * intros id a Hia. specialize (Q3 id a Hia). lia.
      * intros _ id a Hia. apply (Q3 id a Hia).
  - apply indices_candidats_bornes in E.
    apply surface_cellules_cles; intuition.
  - unfold surface_cellules. rewrite surface_cellules_liste.
    intros cle lst Hin.
    eapply surface_cellules_ordre in Hin; try eassumption.
    + destruct Hin as (Q1 & Q2 & Q3). split; [exact Q1|]. split; [exact Q2|].
      intros id a Hia. specialize (Q3 id a Hia). lia.
    + apply cellules_NoDup; apply py_range_NoDup.
    + intros cle' lst' Hin'. destruct (Hord cle' lst' Hin') as (Q1 & Q2 & Q3).
      split; [exact Q1|]. split; [exact Q2|]. split.
      * intros id a Hia. specialize (Q3 id a Hia). lia.
      * intros _ id a Hia. apply (Q3 id a Hia).
Qed.

Lemma surface_boucle_ordre (points : list (F * F * F)) (gt : geotransform F)
    (nb_lignes nb_colonnes : Z) (triangles : list (Z * Z * Z)) (debut : Z)
    (m m' : map_pixels F) :
  0 <= debut ->
  pour (enumerate_de debut triangles)
       (surface_triangle points gt nb_lignes nb_colonnes) m = Ok m' ->
  NoDup (dict_keys m) /\ cles_dans_grille nb_lignes nb_colonnes m
  /\ entrees_ordonnees m debut ->
  NoDup (dict_keys m') /\ cles_dans_grille nb_lignes nb_colonnes m'
  /\ entrees_ordonnees m' (debut + Z.of_nat (length triangles)).
Proof.
  revert debut m.
  induction triangles as [|tri triangles IH]; intros debut m Hd Hp Hinv.
  - injection Hp as <-. simpl. now rewrite Z.add_0_r.
  - cbn [enumerate_de pour] in Hp.
    destruct (surface_triangle _ _ _ _ m (debut, tri)) as [m1|] eqn:E1;
      cbn [lie] in Hp; [|discriminate].
    apply (surface_triangle_ordre _ _ _ _ _ _ _ _ Hd E1) in Hinv.
    apply (IH (debut + 1) m1) in Hinv; [|lia|exact Hp].
    cbn [length]. replace (debut + Z.of_nat (S (length triangles)))
      with (debut + 1 + Z.of_nat (length triangles)) by lia.
    exact Hinv.
Qed.

(** The mapping [mapping_surface] returns. *)
Lemma mapping_surface_ordre (points : list (F * F * F))
    (triangles : list (Z * Z * Z)) (gt : geotransform F)
    (nb_lignes nb_colonnes : Z) (mapping : map_pixels F) :
  mapping_surface points triangles gt nb_lignes nb_colonnes = Ok mapping ->
  NoDup (dict_keys mapping) /\ cles_dans_grille nb_lignes nb_colonnes mapping
  /\ entrees_ordonnees mapping (Z.of_nat (length triangles)).
Proof.
  intros Hm. unfold mapping_surface, enumerate in Hm.
  apply (surface_boucle_ordre _ _ _ _ _ 0 [] mapping) in Hm; [exact Hm|lia|].
  split; [constructor|]. split; [intros l c []|intros cle lst []].
Qed.

End OrdreSurface.

(** X4. In the mapping [mapping_surface] returns, every key has at least
    one entry, and the entries of a pixel come in strictly increasing order
    of triangle id: a triangle is recorded at most once under a pixel, and
    every id is the index of a triangle of the mesh. *)
Theorem mapping_surface_entrees_ordonnees {F : Type} `{Flottant F}
    `{Shapely F} (points : list (F * F * F)) (triangles : list (Z * Z * Z))
    (gt : geotransform F) (nb_lignes nb_colonnes : Z) (mapping : map_pixels F) :
  mapping_surface points triangles gt nb_lignes nb_colonnes = Ok mapping ->
  NoDup (dict_keys mapping)
  /\ forall cle lst, In (cle, lst) mapping ->
       lst <> []
       /\ StronglySorted Z.lt (map fst lst)
       /\ NoDup (map fst lst)
       /\ forall id a, In (id, a) lst ->
            0 <= id < Z.of_nat (length triangles).
Proof.
  intros Hm.
  destruct (mapping_surface_ordre _ _ _ _ _ _ Hm) as (Hnd & _ & Hord).
  split; [exact Hnd|]. intros cle lst Hin.
  destruct (Hord cle lst Hin) as (Q1 & Q2 & Q3).
  split; [exact Q1|]. split; [exact Q2|]. split; [|exact Q3].
  clear -Q2. induction Q2 as [|a l Hs IH Ha]; constructor; [|exact IH].
  intros Hin. rewrite Forall_forall in Ha. specialize (Ha a Hin). lia.
Qed.

Lemma mapping_surface_entrees_ordonnees_temoin :
  mapping_surface exemple_points_carre [(0, 1, 2); (1, 3, 2)] exemple_gt 2 2
  = Ok exemple_surface_carre
  /\ NoDup (dict_keys exemple_surface_carre)
  /\ StronglySorted Z.lt
       (map fst [(0, 0.28125%float); (1, 0.28125%float)])
  /\ NoDup (map fst [(0, 0.28125%float); (1, 0.28125%float)])
  /\ 0 <= 1 < Z.of_nat (length [(0, 1, 2); (1, 3, 2)]).
Proof.
  assert (Es : mapping_surface exemple_points_carre [(0, 1, 2); (1, 3, 2)]
                 exemple_gt 2 2 = Ok exemple_surface_carre) by reflexivity.
  destruct (mapping_surface_entrees_ordonnees exemple_points_carre
              [(0, 1, 2); (1, 3, 2)] exemple_gt 2 2 exemple_surface_carre Es)
    as [Hnd Hord].
  destruct (Hord (0, 0) [(0, 0.28125%float); (1, 0.28125%float)]
              (or_introl eq_refl)) as (_ & Hs & Hn & Hid).
  split; [exact Es|]. split; [exact Hnd|]. split; [exact Hs|].
  split; [exact Hn|].
  exact (Hid 1 0.28125%float (or_intror (or_introl eq_refl))).
Defined.

(** ** From the raster to one value per triangle *)

Section Chaine.
Context {F : Type}.

Lemma inverser_mapping_get (map_px : map_pixels F) (nb_triangles t : Z) :
  dict_get (inverser_mapping map_px nb_triangles) t =
    (if present t map_px then Some (occurrences t map_px)
     else if (0 <=? t) && (t <? nb_triangles) then Some []
     else None).
Proof.
  unfold inverser_mapping. rewrite completer_get, inverser_pixels_get.
  rewrite present_occurrences. simpl dict_get.
  destruct (in_dec Z.eq_dec t (py_range 0 nb_triangles)) as [Hin|Hnin].
  - apply py_range_In in Hin.
    replace ((0 <=? t) && (t <? nb_triangles)) with true
      by (symmetry; apply andb_true_iff; split;
          [apply Z.leb_le|apply Z.ltb_lt]; lia).
    now destruct (occurrences t map_px).
  - replace ((0 <=? t) && (t <? nb_triangles)) with false.
    + now destruct (occurrences t map_px).
    + symmetry. apply not_true_is_false. intros Ht.
      apply andb_true_iff in Ht as [Q1 Q2].
      apply Z.leb_le in Q1. apply Z.ltb_lt in Q2.
      apply Hnin, py_range_In. lia.
Qed.

Lemma inverser_mapping_nodup (map_px : map_pixels F) (nb_triangles : Z) :
  NoDup (dict_keys (inverser_mapping map_px nb_triangles)).
Proof.
  unfold inverser_mapping.
  apply (fold_left_invariant (fun d => NoDup (dict_keys d))).
  - intros d id _ Hd. now apply dict_set_nodup.
  - apply (fold_left_invariant (fun d => NoDup (dict_keys d))); [|constructor].
    intros d [[lig col] lst] _ Hd. unfold inverser_pixel.
    apply (fold_left_invariant (fun d => NoDup (dict_keys d))); [|exact Hd].
    intros d' [id a] _ Hd'. now apply dict_append_nodup.
Qed.

Lemma present_In (t : Z) (map_px : map_pixels F) :
  present t map_px = true ->
  exists cle lst a, In (cle, lst) map_px /\ In (t, a) lst.
Proof.
  unfold present. intros Hp. apply existsb_exists in Hp as ([cle lst] & Hin & Hl).
  apply existsb_exists in Hl as ([id a] & Hia & Ht).
  apply Z.eqb_eq in Ht as <-. eauto.
Qed.

(** Over a forward map whose ids are triangle indices, the keys of the
    inverse are the triangle indices, each once. *)
Lemma inverser_mapping_cles (map_px : map_pixels F) (n : nat) :
  ids_valides map_px n ->
  length (inverser_mapping map_px (Z.of_nat n)) = n
  /\ NoDup (dict_keys (inverser_mapping map_px (Z.of_nat n)))
  /\ forall t pixels, In (t, pixels) (inverser_mapping map_px (Z.of_nat n)) ->
       0 <= t < Z.of_nat n /\ pixels = occurrences t map_px.
Proof.
  intros Hids.
  pose proof (inverser_mapping_nodup map_px (Z.of_nat n)) as Hnd.
  assert (Hbind : forall t pixels,
            In (t, pixels) (inverser_mapping map_px (Z.of_nat n)) ->
            0 <= t < Z.of_nat n /\ pixels = occurrences t map_px).
  { intros t pixels Hin. apply (dict_In_get _ _ _ Hnd) in Hin.
    rewrite inverser_mapping_get in Hin.
    destruct (present t map_px) eqn:Ep.
    - injection Hin as <-. split; [|reflexivity].
      apply present_In in Ep as (cle & lst & a & Hc & Ha).
      apply (Hids cle lst t a Hc Ha).
    - rewrite present_occurrences in Ep.
      destruct ((0 <=? t) && (t <? Z.of_nat n)) eqn:Er; [|discriminate].
      injection Hin as <-. apply andb_true_iff in Er as [Q1 Q2].
      apply Z.leb_le in Q1. apply Z.ltb_lt in Q2. split; [lia|].
      now destruct (occurrences t map_px). }
  split; [|split; assumption].
  assert (Hincl1 : incl (dict_keys (inverser_mapping map_px (Z.of_nat n)))
                        (py_range 0 (Z.of_nat n))).
  { intros t Ht. apply in_map_iff in Ht as ([t' pixels] & <- & Hin).
    apply py_range_In. apply (Hbind t' pixels Hin). }
  assert (Hincl2 : incl (py_range 0 (Z.of_nat n))
                        (dict_keys (inverser_mapping map_px (Z.of_nat n)))).
  { intros t Ht. apply py_range_In in Ht.
    destruct (dict_get (inverser_mapping map_px (Z.of_nat n)) t) as [px|] eqn:Eg.
    - apply dict_get_In in Eg. apply (in_map fst) in Eg. exact Eg.
    - rewrite inverser_mapping_get in Eg.
      destruct (present t map_px); [discriminate|].
      replace ((0 <=? t) && (t <? Z.of_nat n)) with true in Eg;
        [discriminate|].
      symmetry. apply andb_true_iff. split;
        [apply Z.leb_le|apply Z.ltb_lt]; lia. }
  apply (NoDup_incl_length Hnd) in Hincl1.
  apply (NoDup_incl_length (py_range_NoDup 0 (Z.of_nat n))) in Hincl2.
  unfold dict_keys in *. rewrite length_map in *.
  rewrite py_range_length in *. lia.
Qed.

End Chaine.

(** X5. From the mapping to one value per triangle.  For the mapping
    [mapping_surface] returns on a grid and a raster of that grid's shape,
    [inverser_mapping] with the number of triangles followed by
    [moyenne_pixels_par_triangle] raises no exception and returns one value
    per triangle of the mesh: for triangle [t], the value the aggregation
    gives to the pixels recorded for [t], in the order the mapping lists
    them, and [rempl] when there is none. *)
Theorem mapping_puis_moyenne {F : Type} `{Flottant F} `{Shapely F}
    (points : list (F * F * F)) (triangles : list (Z * Z * Z))
    (gt : geotransform F) (nb_lignes nb_colonnes : Z) (ras : raster F)
    (map_px : map_pixels F) (pondere : bool) (rempl : F) :
  mapping_surface points triangles gt nb_lignes nb_colonnes = Ok map_px ->
  rectangulaire ras nb_lignes nb_colonnes ->
  exists val_tri,
    moyenne_pixels_par_triangle ras
      (inverser_mapping map_px (Z.of_nat (length triangles))) pondere rempl
      = Ok val_tri
    /\ length val_tri = length triangles
    /\ forall t, 0 <= t < Z.of_nat (length triangles) ->
         getitem val_tri t
           = Ok (valeur_triangle ras pondere rempl (occurrences t map_px)).
Proof.
  intros Hm Hrect.
  destruct (mapping_surface_ordre _ _ _ _ _ _ Hm) as (Hnd & Hcles & Hord).
  assert (Hids : ids_valides map_px (length triangles)).
  { intros cle lst id a Hc Ha. destruct (Hord cle lst Hc) as (_ & _ & Hi).
    exact (Hi id a Ha). }
  destruct (inverser_mapping_cles map_px (length triangles) Hids)
    as (Hlen & Hndk & Hbind).
  set (tri_px := inverser_mapping map_px (Z.of_nat (length triangles))) in *.
  destruct (moyenne_pixels_par_triangle_valeurs ras tri_px pondere rempl Hndk)
    as (val_tri & Hr & Hl & Hval).
  { intros id pixels Hin. destruct (Hbind id pixels Hin) as [Hid ->].
    split; [now rewrite Hlen|].
    intros lig col aire Hpx.
    apply occurrences_In in Hpx as (lst & Hc & _).
    destruct (cles_dans_grille_In _ _ _ _ _ _ Hcles Hc) as [Hl' Hc'].
    now apply (rectangulaire_getitem2 ras nb_lignes nb_colonnes). }
  exists val_tri. split; [exact Hr|]. split; [congruence|].
  intros t Ht.
  assert (Hin : In (t, occurrences t map_px) tri_px).
  { apply dict_get_In. unfold tri_px. rewrite inverser_mapping_get.
    destruct (present t map_px) eqn:Ep; [reflexivity|].
    rewrite present_occurrences in Ep.
    replace ((0 <=? t) && (t <? Z.of_nat (length triangles))) with true
      by (symmetry; apply andb_true_iff; split;
          [apply Z.leb_le|apply Z.ltb_lt]; lia).
    now destruct (occurrences t map_px). }
  apply (Hval t _ Hin).
Qed.

Lemma mapping_puis_moyenne_temoin :
  exists val_tri,
    moyenne_pixels_par_triangle [[1%float; 2%float]; [3%float; 4%float]]
      (inverser_mapping exemple_surface 1) true PrimFloat.nan = Ok val_tri
    /\ length val_tri = 1%nat
    /\ getitem val_tri 0 = Ok 2.75%float.
Proof.
  assert (Es : mapping_surface exemple_points [(0, 1, 2)] exemple_gt 2 2
               = Ok exemple_surface) by reflexivity.
  destruct (mapping_puis_moyenne exemple_points [(0, 1, 2)] exemple_gt 2 2
              [[1%float; 2%float]; [3%float; 4%float]] exemple_surface true
              PrimFloat.nan Es) as (val_tri & Hr & Hl & Hv).
  - split; [reflexivity|]. intros ligne [<-|[<-|[]]]; reflexivity.
  - exists val_tri. split; [exact Hr|]. split; [exact Hl|].
    apply (Hv 0). simpl. lia.
Defined.

(** ** Grid indexing on the positive side *)

(** [int(q)] and [int(np.floor(q))] agree on a quotient that is not
    negative. *)
Lemma b64_int_positif (q : float) :
  PrimFloat.leb 0 q = true -> b64_int q = b64_int_floor q.
Proof.
  rewrite FloatAxioms.leb_spec. unfold b64_int, b64_int_floor, b64_entier.
  change (Prim2SF 0) with (S754_zero false).
  destruct (Prim2SF q) as [s| s | |s m e]; try reflexivity.
  destruct s; [discriminate|]. intros _.
  cbv beta iota. destruct (Z.leb_spec 0 e); [reflexivity|]. f_equal.
  apply Z.quot_div_nonneg; [lia|]. apply Z.pow_pos_nonneg; lia.
Qed.

(** X6. Where the two index quotients are not negative, that is for every
    point at or right of [x_min] and at or below [y_max] when [dx > 0] and
    [dy < 0], [xy_vers_pixel] returns the indices of the containing cell,
    the floors that [mapping_surface] computes with [np.floor], and raises
    the same exceptions. *)
Theorem xy_vers_pixel_plancher (x y : float) (gt : geotransform float) :
  let '(gt0, gt1, _, gt3, _, gt5) := gt in
  PrimFloat.leb 0 ((x - gt0) / gt1) = true ->
  PrimFloat.leb 0 ((y - gt3) / gt5) = true ->
  xy_vers_pixel x y gt = pixel_contenant x y gt.
Proof.
  destruct gt as [[[[[gt0 gt1] rx] gt3] ry] gt5]. intros Hc Hl.
  unfold xy_vers_pixel, pixel_contenant, py_div.
  cbn [fl_sub fl_div fl_int fl_int_floor Flottant_binary64].
  destruct (fl_eqb gt1 fl_zero); cbn [lie]; [reflexivity|].
  rewrite (b64_int_positif _ Hc).
  destruct (b64_int_floor ((x - gt0) / gt1)); cbn [lie]; [|reflexivity].
  destruct (fl_eqb gt5 fl_zero); cbn [lie]; [reflexivity|].
  now rewrite (b64_int_positif _ Hl).
Qed.

Lemma xy_vers_pixel_plancher_temoin :
  xy_vers_pixel 1.5%float 0.25%float exemple_gt = Ok (1, 1)
  /\ pixel_contenant 1.5%float 0.25%float exemple_gt = Ok (1, 1).
Proof.
  assert (E : xy_vers_pixel 1.5%float 0.25%float exemple_gt
              = pixel_contenant 1.5%float 0.25%float exemple_gt)
    by (apply (xy_vers_pixel_plancher 1.5%float 0.25%float exemple_gt);
        reflexivity).
  split; [reflexivity|]. rewrite <- E. reflexivity.
Defined.

(** ** The barycentre mapping and its inverse *)

Lemma getitem_nth {A} (l : list A) (i : Z) :
  0 <= i < Z.of_nat (length l) ->
  getitem l i = match nth_error l (Z.to_nat i) with
                | Some a => Ok a
                | None => Leve IndexError
                end.
Proof.
  intros Hi. unfold getitem. now rewrite py_index_pos by assumption.
Qed.

(** One list of triangles under the pixel [(ligne, colonne)]. *)
Lemma inverse_triangles_effet (ligne colonne : Z) (ids : list Z)
    (t : list (Z * Z)) :
  ligne <> -1 -> dans_int64 ligne = true -> dans_int64 colonne = true ->
  (forall id, In id ids -> 0 <= id < Z.of_nat (length t)) ->
  exists t',
    pour ids (inverse_triangle ligne colonne) t = Ok t'
    /\ length t' = length t
    /\ forall p lc, nth_error t p = Some lc ->
         nth_error t' p =
           Some (if (fst lc =? -1) && existsb (Z.eqb (Z.of_nat p)) ids
                 then (ligne, colonne) else lc).
Proof.
  intros Hl Hil Hic. revert t.
  induction ids as [|id ids IH]; intros t Hids.
  - exists t. split; [reflexivity|]. split; [reflexivity|].
    intros p lc Hp. cbn [existsb]. now rewrite andb_false_r.
  - assert (Hid : 0 <= id < Z.of_nat (length t)) by (apply Hids; now left).
    cbn [pour]. unfold inverse_triangle at 1.
    destruct (getitem_dans t id Hid) as [lc0 Hg]. rewrite Hg. cbn [lie].
    assert (Hn0 : nth_error t (Z.to_nat id) = Some lc0)
      by (apply getitem_In_pos; [lia|exact Hg]).
    destruct (Z.eqb_spec (fst lc0) (-1)) as [E|E].
    + rewrite Hil, Hic.
      destruct (getitem_setitem t id (ligne, snd lc0) Hid)
        as (t1 & Hs1 & Hlen1 & _ & _).
      rewrite Hs1. cbn [lie].
      assert (Ht1 : t1 = remplace t (Z.to_nat id) (ligne, snd lc0)).
      { unfold setitem in Hs1. rewrite py_index_pos in Hs1 by assumption.
        cbn [lie] in Hs1. congruence. }
      assert (Hs2 : setitem t1 id (ligne, colonne)
                    = Ok (remplace t (Z.to_nat id) (ligne, colonne))).
      { unfold setitem. rewrite Hlen1, py_index_pos by assumption. cbn [lie].
        f_equal. rewrite Ht1. clear. generalize (Z.to_nat id) as p.
        induction t as [|a t IHt]; intros [|p]; simpl; congruence. }
      rewrite Hs2. cbn [lie].
      destruct (IH (remplace t (Z.to_nat id) (ligne, colonne)))
        as (t' & Hp & Hlen & Hrows).
      { intros i Hi. rewrite remplace_length. apply Hids. now right. }
      exists t'. split; [exact Hp|]. split; [now rewrite Hlen, remplace_length|].
      intros p lc Hlc. cbn [existsb].
      destruct (Nat.eq_dec p (Z.to_nat id)) as [->|Hne].
      * rewrite Hn0 in Hlc. injection Hlc as <-.
        rewrite (Hrows (Z.to_nat id) (ligne, colonne))
          by (apply remplace_meme; lia).
        cbn [fst]. destruct (Z.eqb_spec ligne (-1)); [contradiction|].
        cbn [andb]. rewrite Z2Nat.id by lia. rewrite Z.eqb_refl.
        rewrite E. reflexivity.
      * rewrite (Hrows p lc) by (rewrite remplace_autre; [exact Hlc|congruence]).
        destruct (Z.eqb_spec (Z.of_nat p) id) as [Ep|_]; [lia|].
        reflexivity.
    + destruct (IH t) as (t' & Hp & Hlen & Hrows).
      { intros i Hi. apply Hids. now right. }
      exists t'. split; [exact Hp|]. split; [exact Hlen|].
      intros p lc Hlc. rewrite (Hrows p lc Hlc). cbn [existsb].
      destruct (Z.eqb_spec (Z.of_nat p) id) as [Ep|_]; [|reflexivity].
      assert (p = Z.to_nat id) by lia. subst p.
      rewrite Hn0 in Hlc. injection Hlc as <-.
      destruct (Z.eqb_spec (fst lc0) (-1)); [contradiction|]. reflexivity.
Qed.

Lemma inverse_boucle (mapping : dict (Z * Z) (list Z)) (t : list (Z * Z)) :
  (forall l c ids, In ((l, c), ids) mapping ->
     l <> -1 /\ dans_int64 l = true /\ dans_int64 c = true
     /\ forall id, In id ids -> 0 <= id < Z.of_nat (length t)) ->
  exists t',
    pour mapping
      (fun t '((ligne, colonne), ids_triangles) =>
         pour ids_triangles (inverse_triangle ligne colonne) t) t = Ok t'
    /\ length t' = length t
    /\ forall p lc, nth_error t p = Some lc ->
         nth_error t' p =
           Some (if fst lc =? -1
                 then match premier_pixel (Z.of_nat p) mapping with
                      | Some px => px
                      | None => lc
                      end
                 else lc).
Proof.
  revert t. induction mapping as [|[[l c] ids] m IH]; intros t Hm.
  - exists t. split; [reflexivity|]. split; [reflexivity|].
    intros p lc Hp. cbn. now destruct (fst lc =? -1).
  - destruct (Hm l c ids (or_introl eq_refl)) as (Hl & Hil & Hic & Hids).
    destruct (inverse_triangles_effet l c ids t Hl Hil Hic Hids)
      as (t1 & Hp1 & Hlen1 & Hrows1).
    destruct (IH t1) as (t' & Hp & Hlen & Hrows).
    { intros l' c' ids' Hin. rewrite Hlen1. apply Hm. now right. }
    exists t'. cbn [pour]. rewrite Hp1. cbn [lie].
    split; [exact Hp|]. split; [congruence|].
    intros p lc Hlc. rewrite (Hrows p _ (Hrows1 p lc Hlc)).
    unfold premier_pixel. cbn [find snd].
    destruct (Z.eqb_spec (fst lc) (-1)) as [E|E]; cbn [andb].
    + destruct (existsb (Z.eqb (Z.of_nat p)) ids); cbn [option_map fst].
      * destruct (Z.eqb_spec l (-1)); [contradiction|reflexivity].
      * rewrite E. reflexivity.
    + destruct (Z.eqb_spec (fst lc) (-1)); [contradiction|reflexivity].
Qed.

Lemma inverse_mapping_rangs (mapping : dict (Z * Z) (list Z))
    (nb_triangles : Z) :
  0 <= nb_triangles ->
  (forall l c ids, In ((l, c), ids) mapping ->
     l <> -1 /\ dans_int64 l = true /\ dans_int64 c = true
     /\ forall id, In id ids -> 0 <= id < nb_triangles) ->
  exists tri_vers_pixel,
    inverse_mapping mapping nb_triangles = Ok tri_vers_pixel
    /\ length tri_vers_pixel = Z.to_nat nb_triangles
    /\ forall p, (p < Z.to_nat nb_triangles)%nat ->
         nth_error tri_vers_pixel p =
           Some (match premier_pixel (Z.of_nat p) mapping with
                 | Some px => px
                 | None => (-1, -1)
                 end).
Proof.
  intros Hn Hm. unfold inverse_mapping.
  destruct (Z.ltb_spec nb_triangles 0); [lia|].
  destruct (inverse_boucle mapping (repeat (-1, -1) (Z.to_nat nb_triangles)))
    as (t & Hp & Hlen & Hrows).
  { intros l c ids Hin. rewrite repeat_length, Z2Nat.id by lia.
    now apply Hm. }
  rewrite repeat_length in Hlen.
  exists t. split; [exact Hp|]. split; [exact Hlen|].
  intros p Hp'.
  rewrite (Hrows p (-1, -1)) by (apply nth_error_repeat; lia).
  cbn [fst]. now rewrite Z.eqb_refl.
Qed.

(** X7. [inverse_mapping] gives every triangle the first pixel that lists
    it.  On a mapping whose rows are not -1, whose indices fit the integer
    array and whose ids are triangle indices, it returns [nb_triangles] rows;
    the row of a triangle is the first key, in the iteration order of the
    dictionary, whose list holds its id, and (-1, -1) when no list does. *)
Theorem inverse_mapping_premier_pixel (mapping : dict (Z * Z) (list Z))
    (nb_triangles : Z) :
  0 <= nb_triangles ->
  (forall l c ids, In ((l, c), ids) mapping ->
     l <> -1 /\ dans_int64 l = true /\ dans_int64 c = true
     /\ forall id, In id ids -> 0 <= id < nb_triangles) ->
  exists tri_vers_pixel,
    inverse_mapping mapping nb_triangles = Ok tri_vers_pixel
    /\ Z.of_nat (length tri_vers_pixel) = nb_triangles
    /\ forall id, 0 <= id < nb_triangles ->
         getitem tri_vers_pixel id =
           Ok (match premier_pixel id mapping with
               | Some px => px
               | None => (-1, -1)
               end).
Proof.
  intros Hn Hm.
  destruct (inverse_mapping_rangs mapping nb_triangles Hn Hm)
    as (t & Hr & Hlen & Hrows).
  exists t. split; [exact Hr|]. split; [lia|].
  intros id Hid. apply getitem_pos; [lia|].
  rewrite (Hrows (Z.to_nat id)) by lia.
  now rewrite Z2Nat.id by lia.
Qed.

Lemma inverse_mapping_premier_pixel_temoin :
  exists tri_vers_pixel,
    inverse_mapping [((0, 1), [2; 0]); ((1, 1), [0])] 3 = Ok tri_vers_pixel
    /\ getitem tri_vers_pixel 0 = Ok (0, 1)
    /\ getitem tri_vers_pixel 1 = Ok (-1, -1)
    /\ getitem tri_vers_pixel 2 = Ok (0, 1).
Proof.
  destruct (inverse_mapping_premier_pixel [((0, 1), [2; 0]); ((1, 1), [0])] 3)
    as (t & Hr & _ & Hg); [lia| |].
  - intros l c ids [[= <- <- <-]|[[= <- <- <-]|[]]];
      (split; [lia|split; [reflexivity|split; [reflexivity|]]]);
      intros id Hin; simpl in Hin; lia.
  - exists t. split; [exact Hr|].
    split; [|split]; [apply (Hg 0)|apply (Hg 1)|apply (Hg 2)]; lia.
Defined.

Section Barycentres.
Context {F : Type} `{Flottant F}.

(** [points[triangles]]: the polygons of all the triangles, or the
    [IndexError] of the first index out of range. *)
Lemma sommets_boucle (points : list (F * F * F)) (triangles : list (Z * Z * Z))
    (acc polys : list (triangle2 F)) :
  pour triangles (fun acc tri => s <- sommets points tri ;; Ok (acc ++ [s])) acc
    = Ok polys ->
  exists nouveaux,
    polys = acc ++ nouveaux
    /\ Forall2 (fun tri poly => sommets points tri = Ok poly) triangles nouveaux.
Proof.
  revert acc. induction triangles as [|tri triangles IH]; intros acc Hp.
  - injection Hp as <-. exists []. rewrite app_nil_r. split; [reflexivity|].
    constructor.
  - cbn [pour] in Hp.
    destruct (sommets points tri) as [poly|] eqn:Es; cbn [lie] in Hp;
      [|discriminate].
    destruct (IH _ Hp) as (nouveaux & -> & Hf).
    exists (poly :: nouveaux). rewrite <- app_assoc. split; [reflexivity|].
    now constructor.
Qed.

Lemma barycentre_boucle (gt : geotransform F) (nb_lignes nb_colonnes : Z)
    (barycentres : list (F * F)) (debut : Z)
    (m m' : dict (Z * Z) (list Z)) :
  pour (enumerate_de debut barycentres)
       (barycentre_triangle gt nb_lignes nb_colonnes) m = Ok m' ->
  forall l c t,
    In t (entrees_pixel m' (l, c)) <->
    In t (entrees_pixel m (l, c))
    \/ exists x y, In (t, (x, y)) (enumerate_de debut barycentres)
         /\ xy_vers_pixel x y gt = Ok (l, c)
         /\ 0 <= l < nb_lignes /\ 0 <= c < nb_colonnes.
Proof.
  revert debut m.
  induction barycentres as [|[x0 y0] barycentres IH]; intros debut m Hp l c t.
  - injection Hp as <-. split; [auto|]. intros [Q|(x & y & [] & _)]. exact Q.
  - cbn [enumerate_de pour] in Hp.
    destruct (barycentre_triangle gt nb_lignes nb_colonnes m (debut, (x0, y0)))
      as [m1|] eqn:E1; cbn [lie] in Hp; [|discriminate].
    rewrite (IH _ _ Hp l c t). cbn [enumerate_de In].
    unfold barycentre_triangle in E1.
    destruct (xy_vers_pixel x0 y0 gt) as [[l0 c0]|] eqn:Exy; cbn [lie] in E1;
      [|discriminate].
    destruct ((0 <=? l0) && (l0 <? nb_lignes) && (0 <=? c0)
              && (c0 <? nb_colonnes)) eqn:Eg; cbn [negb] in E1;
      injection E1 as <-.
    + rewrite entrees_pixel_append.
      assert (Hg : (0 <= l0 < nb_lignes) /\ (0 <= c0 < nb_colonnes)) by lia.
      split.
      * intros [[Q|[[= -> ->] ->]]|(x & y & Hin & Hxy & Hlc)].
        -- now left.
        -- right. exists x0, y0. auto.
        -- right. exists x, y. auto.
      * intros [Q|(x & y & [[= <- <- <-]|Hin] & Hxy & Hlc)].
        -- left. now left.
        -- left. right. rewrite Exy in Hxy. injection Hxy as -> ->. auto.
        -- right. exists x, y. auto.
    + split.
      * intros [Q|(x & y & Hin & Hxy & Hlc)]; [now left|].
        right. exists x, y. auto.
      * intros [Q|(x & y & [[= <- <- <-]|Hin] & Hxy & Hlc)].
        -- now left.
        -- rewrite Exy in Hxy. injection Hxy as -> ->. lia.
        -- right. exists x, y. auto.
Qed.

Lemma barycentre_boucle_nodup (gt : geotransform F) (nb_lignes nb_colonnes : Z)
    (liste : list (Z * (F * F))) (m m' : dict (Z * Z) (list Z)) :
  pour liste (barycentre_triangle gt nb_lignes nb_colonnes) m = Ok m' ->
  NoDup (dict_keys m) /\ cles_dans_grille nb_lignes nb_colonnes m ->
  NoDup (dict_keys m') /\ cles_dans_grille nb_lignes nb_colonnes m'.
Proof.
  intros Hp Hm.
  apply (pour_invariant
           (fun m => NoDup (dict_keys m)
                     /\ cles_dans_grille nb_lignes nb_colonnes m)) in Hp;
    [exact Hp| |exact Hm].
  intros m1 [id_tri [x y]] m2 _ [Hnd Hc]. unfold barycentre_triangle.
  destruct (xy_vers_pixel x y gt) as [[ligne colonne]|]; cbn [lie];
    [|discriminate].
  destruct ((0 <=? ligne) && (ligne <? nb_lignes) && (0 <=? colonne)
            && (colonne <? nb_colonnes)) eqn:E; cbn [negb];
    intros [= <-]; [|now split].
  split; [now apply dict_append_nodup|].
  apply cles_dans_grille_append; auto; lia.
Qed.

Lemma Forall2_nth {A B} (R : A -> B -> Prop) (l : list A) (l' : list B)
    (p : nat) (a : A) :
  Forall2 R l l' -> nth_error l p = Some a ->
  exists b, nth_error l' p = Some b /\ R a b.
Proof.
  intros Hf. revert p. induction Hf as [|x y l l' Hxy Hf IH]; intros [|p] Hp;
    try discriminate.
  - injection Hp as <-. exists y. now split.
  - now apply IH.
Qed.

Lemma Forall2_nth_r {A B} (R : A -> B -> Prop) (l : list A) (l' : list B)
    (p : nat) (b : B) :
  Forall2 R l l' -> nth_error l' p = Some b ->
  exists a, nth_error l p = Some a /\ R a b.
Proof.
  intros Hf. revert p. induction Hf as [|x y l l' Hxy Hf IH]; intros [|p] Hp;
    try discriminate.
  - injection Hp as <-. exists x. now split.
  - now apply IH.
Qed.

(** The mapping [mapping_barycentre] returns: triangle [t] is listed under
    the pixel [xy_vers_pixel] gives for its barycentre, when that pixel is in
    the grid, and nowhere else. *)
Lemma mapping_barycentre_entrees (points : list (F * F * F))
    (triangles : list (Z * Z * Z)) (gt : geotransform F)
    (nb_lignes nb_colonnes : Z) (mapping : dict (Z * Z) (list Z)) :
  mapping_barycentre points triangles gt nb_lignes nb_colonnes = Ok mapping ->
  NoDup (dict_keys mapping)
  /\ cles_dans_grille nb_lignes nb_colonnes mapping
  /\ Forall (fun tri => exists poly, sommets points tri = Ok poly) triangles
  /\ forall l c t,
       In t (entrees_pixel mapping (l, c)) <->
       exists tri poly,
         0 <= t /\ nth_error triangles (Z.to_nat t) = Some tri
         /\ sommets points tri = Ok poly
         /\ xy_vers_pixel (fst (barycentre poly)) (snd (barycentre poly)) gt
            = Ok (l, c)
         /\ 0 <= l < nb_lignes /\ 0 <= c < nb_colonnes.
Proof.
  unfold mapping_barycentre. intros Hm.
  destruct (pour triangles _ []) as [polys|] eqn:Ep; cbn [lie] in Hm;
    [|discriminate].
  apply sommets_boucle in Ep as (nouveaux & -> & Hf). cbn [app] in Hm.
  destruct (barycentre_boucle_nodup _ _ _ _ _ _ Hm) as [Hnd Hc].
  { split; [constructor|intros l c []]. }
  split; [exact Hnd|]. split; [exact Hc|]. split.
  { clear -Hf. induction Hf; constructor; eauto. }
  intros l c t. unfold enumerate in Hm.
  rewrite (barycentre_boucle _ _ _ _ _ _ _ Hm l c t). split.
  - intros [[]|(x & y & Hin & Hxy & Hlc)].
    apply enumerate_de_In in Hin as [Ht Hn]. rewrite Z.sub_0_r in Hn.
    rewrite nth_error_map in Hn.
    destruct (nth_error nouveaux (Z.to_nat t)) as [poly|] eqn:En;
      [|discriminate].
    cbn [option_map] in Hn. injection Hn as Hb.
    destruct (Forall2_nth_r _ _ _ _ _ Hf En) as (tri & Htri & Hs).
    exists tri, poly. rewrite Hb. cbn [fst snd]. auto 10.
  - intros (tri & poly & Ht & Hn & Hs & Hxy & Hlc). right.
    destruct (Forall2_nth _ _ _ _ _ Hf Hn) as (poly' & Hn' & Hs').
    assert (poly' = poly) by congruence. subst poly'.
    exists (fst (barycentre poly)), (snd (barycentre poly)).
    split; [|auto]. apply enumerate_de_In. split; [exact Ht|].
    rewrite Z.sub_0_r, nth_error_map, Hn'. cbn [option_map].
    now destruct (barycentre poly).
Qed.

End Barycentres.



Lemma barycentre_boucle_definis {F : Type} `{Flottant F} (gt : geotransform F)
    (nb_lignes nb_colonnes : Z) (liste : list (Z * (F * F)))
    (m m' : dict (Z * Z) (list Z)) :
  pour liste (barycentre_triangle gt nb_lignes nb_colonnes) m = Ok m' ->
  forall t x y, In (t, (x, y)) liste ->
    exists l c, xy_vers_pixel x y gt = Ok (l, c).
Proof.
  revert m. induction liste as [|[t0 [x0 y0]] liste IH]; intros m Hp t x y Hin.
  - destruct Hin.
  - cbn [pour] in Hp.
    destruct (barycentre_triangle gt nb_lignes nb_colonnes m (t0, (x0, y0)))
      as [m1|] eqn:E1; cbn [lie] in Hp; [|discriminate].
    destruct Hin as [[= <- <- <-]|Hin]; [|now apply (IH m1 Hp t x y)].
    unfold barycentre_triangle in E1.
    destruct (xy_vers_pixel x0 y0 gt) as [[l c]|]; [eauto|discriminate].
Qed.

(** X9. The barycentre mapping and [inverse_mapping] compose: on a grid of
    fewer than 2^63 rows and columns, [inverse_mapping] applied to what
    [mapping_barycentre] returns, with the number of triangles, raises
    nothing and gives each triangle the pixel [xy_vers_pixel] computes for
    its barycentre when that pixel is in the grid, and (-1, -1) when it is
    not. *)
Theorem barycentre_puis_inverse {F : Type} `{Flottant F}
    (points : list (F * F * F)) (triangles : list (Z * Z * Z))
    (gt : geotransform F) (nb_lignes nb_colonnes : Z)
    (mapping : dict (Z * Z) (list Z)) :
  mapping_barycentre points triangles gt nb_lignes nb_colonnes = Ok mapping ->
  nb_lignes <= 2 ^ 63 -> nb_colonnes <= 2 ^ 63 ->
  exists tri_vers_pixel,
    inverse_mapping mapping (Z.of_nat (length triangles)) = Ok tri_vers_pixel
    /\ length tri_vers_pixel = length triangles
    /\ forall t tri, nth_error triangles t = Some tri ->
         exists poly l c,
           sommets points tri = Ok poly
           /\ xy_vers_pixel (fst (barycentre poly)) (snd (barycentre poly)) gt
              = Ok (l, c)
           /\ getitem tri_vers_pixel (Z.of_nat t) =
                Ok (if (0 <=? l) && (l <? nb_lignes)
                       && (0 <=? c) && (c <? nb_colonnes)
                    then (l, c) else (-1, -1)).
Proof.
  intros Hm Hnl Hnc.
  destruct (mapping_barycentre_entrees _ _ _ _ _ _ Hm)
    as (Hnd & Hcles & Hf & He).
  assert (Hent : forall l c ids t, In ((l, c), ids) mapping -> In t ids ->
                   In t (entrees_pixel mapping (l, c))).
  { intros l c ids t Hin Ht. unfold entrees_pixel.
    now rewrite (dict_In_get _ _ _ Hnd Hin). }
  destruct (inverse_mapping_rangs mapping (Z.of_nat (length triangles)))
    as (tvp & Hr & Hlen & Hrows); [lia| |].
  { intros l c ids Hin.
    assert (Hlc : 0 <= l < nb_lignes /\ 0 <= c < nb_colonnes)
      by (apply Hcles; apply (in_map fst) in Hin; exact Hin).
    split; [lia|]. unfold dans_int64.
    split; [apply andb_true_iff; split; [apply Z.leb_le|apply Z.ltb_lt]; lia|].
    split; [apply andb_true_iff; split; [apply Z.leb_le|apply Z.ltb_lt]; lia|].
    intros id Hid. apply (Hent l c ids id Hin) in Hid.
    apply He in Hid as (tri & poly & Ht & Hn & _).
    assert (Z.to_nat id < length triangles)%nat
      by (apply nth_error_Some; congruence). lia. }
  exists tvp. split; [exact Hr|]. split; [lia|].
  intros t tri Hn.
  assert (Hdef : exists poly l c,
            sommets points tri = Ok poly
            /\ xy_vers_pixel (fst (barycentre poly)) (snd (barycentre poly)) gt
               = Ok (l, c)).
  { unfold mapping_barycentre in Hm.
    destruct (pour triangles _ []) as [polys|] eqn:Ep; cbn [lie] in Hm;
      [|discriminate].
    apply sommets_boucle in Ep as (nouveaux & -> & Hf2). cbn [app] in Hm.
    destruct (Forall2_nth _ _ _ _ _ Hf2 Hn) as (poly & Hn' & Hs).
    destruct (barycentre_boucle_definis _ _ _ _ _ _ Hm (Z.of_nat t)
                (fst (barycentre poly)) (snd (barycentre poly)))
      as (l & c & Hxy).
    { unfold enumerate. apply enumerate_de_In. split; [lia|].
      rewrite Z.sub_0_r, Nat2Z.id, nth_error_map, Hn'. cbn [option_map].
      now destruct (barycentre poly). }
    eauto 10. }
  destruct Hdef as (poly & l & c & Hs & Hxy).
  exists poly, l, c. split; [exact Hs|]. split; [exact Hxy|].
  assert (Ht : (t < length triangles)%nat) by (apply nth_error_Some; congruence).
  rewrite (getitem_pos tvp (Z.of_nat t)
             (match premier_pixel (Z.of_nat t) mapping with
              | Some px => px
              | None => (-1, -1)
              end)); [|lia|rewrite Nat2Z.id; apply Hrows; lia].
  f_equal.
  assert (Hiff : In (Z.of_nat t) (entrees_pixel mapping (l, c)) <->
                 0 <= l < nb_lignes /\ 0 <= c < nb_colonnes).
  { rewrite He. split.
    - intros (tri' & poly' & _ & Hn' & Hs' & Hxy' & Hlc).
      rewrite Nat2Z.id in Hn'. congruence.
    - intros Hlc. exists tri, poly. rewrite Nat2Z.id. repeat split; auto; lia. }
  unfold premier_pixel.
  destruct (find _ mapping) as [[[l' c'] ids]|] eqn:Efind; cbn [option_map fst].
  - apply find_some in Efind as [Hin Hex]. cbn [snd] in Hex.
    apply existsb_exists in Hex as (id & Hid & Heq).
    apply Z.eqb_eq in Heq as <-.
    apply (Hent l' c' ids _ Hin) in Hid.
    apply He in Hid as (tri' & poly' & _ & Hn' & Hs' & Hxy' & Hlc).
    rewrite Nat2Z.id in Hn'.
    assert (tri' = tri) by congruence. subst tri'.
    assert (poly' = poly) by congruence. subst poly'.
    rewrite Hxy in Hxy'. injection Hxy' as <- <-.
    replace ((0 <=? l) && (l <? nb_lignes) && (0 <=? c) && (c <? nb_colonnes))
      with true; [reflexivity|].
    symmetry. repeat (apply andb_true_iff; split);
      try apply Z.leb_le; try apply Z.ltb_lt; lia.
  - destruct ((0 <=? l) && (l <? nb_lignes) && (0 <=? c) && (c <? nb_colonnes))
      eqn:Eg; [|reflexivity].
    exfalso.
    assert (Hlc : 0 <= l < nb_lignes /\ 0 <= c < nb_colonnes) by lia.
    apply Hiff in Hlc. unfold entrees_pixel in Hlc.
    destruct (dict_get mapping (l, c)) as [ids|] eqn:Eget; [|destruct Hlc].
    apply dict_get_In in Eget.
    apply (find_none _ _ Efind) in Eget. cbn [snd] in Eget.
    assert (Hex : existsb (Z.eqb (Z.of_nat t)) ids = true)
      by (apply existsb_exists; exists (Z.of_nat t); split;
          [exact Hlc|apply Z.eqb_refl]).
    congruence.
Qed.

Lemma barycentre_puis_inverse_temoin :
  exists tri_vers_pixel,
    inverse_mapping [((1, 0), [0])] 1 = Ok tri_vers_pixel
    /\ length tri_vers_pixel = 1%nat
    /\ getitem tri_vers_pixel 0 = Ok (1, 0).
Proof.
  assert (Eb : mapping_barycentre exemple_points [(0, 1, 2)] exemple_gt 2 2
               = Ok [((1, 0), [0])]) by reflexivity.
  destruct (barycentre_puis_inverse exemple_points [(0, 1, 2)] exemple_gt 2 2
              _ Eb) as (tvp & Hr & Hl & Hg); [lia|lia|].
  exists tvp. split; [exact Hr|]. split; [exact Hl|].
  destruct (Hg 0%nat (0, 1, 2) eq_refl) as (poly & l & c & Hs & Hxy & Hv).
  injection Hs as <-. vm_compute in Hxy. injection Hxy as <- <-.
  exact Hv.
Defined.

(** ** Alignment of the mesh on the raster: a NaN coordinate *)

Lemma b64_nan_unique (x : float) : PrimFloat.is_nan x = true -> x = PrimFloat.nan.
Proof.
  intros Hx. rewrite <- (FloatAxioms.SF2Prim_Prim2SF x).
  unfold PrimFloat.is_nan in Hx. rewrite FloatAxioms.eqb_spec in Hx.
  destruct (Prim2SF x) as [s| s| |s m e]; try reflexivity; exfalso.
  - now destruct s.
  - now destruct s.
  - unfold SFeqb, SFcompare in Hx.
    rewrite Z.compare_refl, Pos.compare_cont_refl in Hx. now destruct s.
Qed.

Lemma b64_add_nan_g (y : float) : (PrimFloat.nan + y)%float = PrimFloat.nan.
Proof.
  rewrite <- (FloatAxioms.SF2Prim_Prim2SF (PrimFloat.nan + y)%float).
  now rewrite FloatAxioms.add_spec.
Qed.

Lemma b64_add_nan_d (x : float) : (x + PrimFloat.nan)%float = PrimFloat.nan.
Proof.
  rewrite <- (FloatAxioms.SF2Prim_Prim2SF (x + PrimFloat.nan)%float).
  rewrite FloatAxioms.add_spec.
  now destruct (Prim2SF x) as [s| s| |s m e].
Qed.

Lemma b64_sub_nan_d (x : float) : (x - PrimFloat.nan)%float = PrimFloat.nan.
Proof.
  rewrite <- (FloatAxioms.SF2Prim_Prim2SF (x - PrimFloat.nan)%float).
  rewrite FloatAxioms.sub_spec.
  now destruct (Prim2SF x) as [s| s| |s m e].
Qed.

Lemma b64_mul_nan_d (x : float) : (x * PrimFloat.nan)%float = PrimFloat.nan.
Proof.
  rewrite <- (FloatAxioms.SF2Prim_Prim2SF (x * PrimFloat.nan)%float).
  rewrite FloatAxioms.mul_spec.
  now destruct (Prim2SF x) as [s| s| |s m e].
Qed.

Lemma b64_leb_nan_d (x : float) : PrimFloat.leb x PrimFloat.nan = false.
Proof.
  rewrite FloatAxioms.leb_spec.
  now destruct (Prim2SF x) as [s| s| |s m e].
Qed.

(** [x.min()] and [x.max()] give NaN as soon as one element is NaN. *)
Lemma np_min_nan_nan (x : list float) :
  In PrimFloat.nan x -> np_min_nan x = Ok PrimFloat.nan.
Proof.
  destruct x as [|a x]; [intros []|]. intros Hin. cbn [np_min_nan]. f_equal.
  cbn [fl_leb fl_isnan Flottant_binary64].
  revert a Hin. induction x as [|v x IH]; intros a Hin.
  - destruct Hin as [->|[]]. reflexivity.
  - cbn [fold_left]. apply IH. destruct Hin as [->|[->|Hin]].
    + left. replace (PrimFloat.is_nan PrimFloat.nan) with true by reflexivity.
      now rewrite orb_true_r.
    + left. rewrite b64_leb_nan_d. cbn [orb].
      destruct (PrimFloat.is_nan a) eqn:Ea; [|reflexivity].
      now apply b64_nan_unique.
    + now right.
Qed.

Lemma np_max_defini (x : list float) :
  x <> [] -> exists m, np_max_nan x = Ok m.
Proof. destruct x; [congruence|]. cbn [np_max_nan]. eauto. Qed.

Lemma np_min_defini (x : list float) :
  x <> [] -> exists m, np_min_nan x = Ok m.
Proof. destruct x; [congruence|]. cbn [np_min_nan]. eauto. Qed.

(** X10. [aligner_par_bbox] has no guard against NaN: when one point of the
    mesh has a NaN X, the translation [tx] is NaN and every point of the
    aligned mesh has a NaN X, and likewise for Y; the call raises nothing,
    keeps the number of points and leaves the third coordinate untouched. *)
Theorem aligner_par_bbox_nan (pts : list (float * float * float))
    (gt : geotransform float) (nb_lignes nb_colonnes : Z) :
  pts <> [] ->
  exists pts2 tx ty,
    aligner_par_bbox pts gt nb_lignes nb_colonnes = Ok (pts2, (tx, ty))
    /\ length pts2 = length pts
    /\ map snd pts2 = map snd pts
    /\ (In PrimFloat.nan (map (fun p => fst (fst p)) pts) ->
        tx = PrimFloat.nan
        /\ forall p, In p pts2 -> fst (fst p) = PrimFloat.nan)
    /\ (In PrimFloat.nan (map (fun p => snd (fst p)) pts) ->
        ty = PrimFloat.nan
        /\ forall p, In p pts2 -> snd (fst p) = PrimFloat.nan).
Proof.
  intros Hne. destruct gt as [[[[[x0 pas_x] rx] y0] ry] pas_y].
  unfold aligner_par_bbox, _bbox_xy.
  set (xs := map (fun p => fst (fst p)) pts).
  set (ys := map (fun p => snd (fst p)) pts).
  assert (Hxs : xs <> []) by (unfold xs; now destruct pts).
  assert (Hys : ys <> []) by (unfold ys; now destruct pts).
  destruct (np_min_defini xs Hxs) as [x_min Ex1].
  destruct (np_min_defini ys Hys) as [y_min Ey1].
  destruct (np_max_defini xs Hxs) as [x_max Ex2].
  destruct (np_max_defini ys Hys) as [y_max Ey2].
  rewrite Ex1, Ey1, Ex2, Ey2. cbn [lie].
  do 3 eexists. split; [reflexivity|].
  split; [now rewrite length_map|].
  split; [rewrite map_map; now apply map_ext|].
  cbn [fl_add fl_sub fl_mul Flottant_binary64].
  split; intros Hnan.
  - rewrite (np_min_nan_nan xs Hnan) in Ex1. injection Ex1 as <-.
    rewrite b64_add_nan_g, b64_mul_nan_d, b64_sub_nan_d.
    split; [reflexivity|]. intros p Hp.
    apply in_map_iff in Hp as (q & <- & _). cbn [fst]. apply b64_add_nan_d.
  - rewrite (np_min_nan_nan ys Hnan) in Ey1. injection Ey1 as <-.
    rewrite b64_add_nan_g, b64_mul_nan_d, b64_sub_nan_d.
    split; [reflexivity|]. intros p Hp.
    apply in_map_iff in Hp as (q & <- & _). cbn [fst snd]. apply b64_add_nan_d.
Qed.

Lemma aligner_par_bbox_nan_temoin :
  aligner_par_bbox
    [(0%float, 0%float, 1%float); (PrimFloat.nan, 2%float, 5%float)]
    exemple_gt 2 2
  = Ok ([(PrimFloat.nan, 0%float, 1%float); (PrimFloat.nan, 2%float, 5%float)],
        (PrimFloat.nan, 0%float))
  /\ exists pts2 tx ty,
       aligner_par_bbox
         [(0%float, 0%float, 1%float); (PrimFloat.nan, 2%float, 5%float)]
         exemple_gt 2 2 = Ok (pts2, (tx, ty))
       /\ tx = PrimFloat.nan.
Proof.
  split; [reflexivity|].
  destruct (aligner_par_bbox_nan
              [(0%float, 0%float, 1%float); (PrimFloat.nan, 2%float, 5%float)]
              exemple_gt 2 2) as (pts2 & tx & ty & Hr & _ & _ & Hx & _);
    [discriminate|].
  exists pts2, tx, ty. split; [exact Hr|].
  apply Hx. right. left. reflexivity.
Defined.

(** ** The MH raster file: shape and header *)

#[local] Open Scope string_scope.

Lemma en_lignes_forme (nb_lignes nb_colonnes : nat) (vals : list float) :
  length vals = (nb_lignes * nb_colonnes)%nat ->
  length (en_lignes nb_lignes nb_colonnes vals) = nb_lignes
  /\ forall ligne, In ligne (en_lignes nb_lignes nb_colonnes vals) ->
       length ligne = nb_colonnes.
Proof.
  revert vals. induction nb_lignes as [|n IH]; intros vals Hlen; simpl.
  - split; [reflexivity|intros ? []].
  - destruct (IH (skipn nb_colonnes vals)) as [Hl Hr].
    { rewrite length_skipn. simpl in Hlen. lia. }
    split; [now rewrite Hl|].
    intros ligne [<-|Hin]; [|now apply Hr].
    rewrite length_firstn. simpl in Hlen. lia.
Qed.

Lemma masque_forme (code : float) (ras : raster float) (n c : nat) :
  length ras = n /\ (forall ligne, In ligne ras -> length ligne = c) ->
  length (masque code ras) = n
  /\ (forall ligne, In ligne (masque code ras) -> length ligne = c).
Proof.
  intros [Hn Hc]. unfold masque. split; [now rewrite length_map|].
  intros ligne Hin. apply in_map_iff in Hin as (l0 & <- & Hin).
  rewrite length_map. now apply Hc.
Qed.

Lemma reshape_forme (vals : list float) (nb_lignes nb_colonnes : Z)
    (ras : raster float) :
  reshape vals nb_lignes nb_colonnes = Ok ras ->
  0 <= nb_lignes -> 0 <= nb_colonnes ->
  nb_lignes * nb_colonnes = Z.of_nat (length vals)
  /\ length ras = Z.to_nat nb_lignes
  /\ (forall ligne, In ligne ras -> length ligne = Z.to_nat nb_colonnes).
Proof.
  intros Hr Hl Hc. unfold reshape in Hr.
  destruct (Z.ltb_spec nb_lignes (-1)); [lia|].
  destruct (Z.ltb_spec nb_colonnes (-1)); [lia|].
  destruct (Z.eqb_spec nb_lignes (-1)); [lia|].
  destruct (Z.eqb_spec nb_colonnes (-1)); [lia|].
  cbn [orb andb lie] in Hr.
  destruct (Z.eqb_spec (nb_lignes * nb_colonnes) (Z.of_nat (length vals)))
    as [E|]; [|discriminate].
  injection Hr as <-. split; [exact E|].
  apply en_lignes_forme. nia.
Qed.

(** X11. The raster [lire_mh_ascii] returns has the shape the header
    declares and its geotransform is built from the header alone: with
    [nrows] and [ncols] not negative, it has [int(nrows)] rows of
    [int(ncols)] cells, the data lines hold exactly [nrows * ncols] values,
    and [gt = (xllcorner, cellsize, 0, yllcorner + nrows * cellsize, 0,
    -cellsize)]. *)
Theorem lire_mh_ascii_forme (fichier : list string) (ras : raster float)
    (gt : geotransform float) (nodata : float) :
  lire_mh_ascii fichier = Ok (ras, gt, nodata) ->
  exists entete lignes_donnees ncols nrows xll yll pas nb_lignes nb_colonnes
         vals,
    pour fichier lire_ligne ([], []) = Ok (entete, lignes_donnees)
    /\ dict_get entete "ncols"%string = Some ncols
    /\ b64_int ncols = Ok nb_colonnes
    /\ dict_get entete "nrows"%string = Some nrows
    /\ b64_int nrows = Ok nb_lignes
    /\ dict_get entete "xllcorner"%string = Some xll
    /\ dict_get entete "yllcorner"%string = Some yll
    /\ dict_get entete "cellsize"%string = Some pas
    /\ gt = (xll, pas, 0%float,
             (yll + b64_of_Z nb_lignes * pas)%float, 0%float, (- pas)%float)
    /\ _valeurs_ascii lignes_donnees = Ok vals
    /\ (0 <= nb_lignes -> 0 <= nb_colonnes ->
        nb_lignes * nb_colonnes = Z.of_nat (length vals)
        /\ length ras = Z.to_nat nb_lignes
        /\ forall ligne, In ligne ras -> length ligne = Z.to_nat nb_colonnes).
Proof.
  unfold lire_mh_ascii.
  destruct (pour fichier lire_ligne ([], [])) as [[entete donnees]|] eqn:Ep;
    cbn [lie]; [|discriminate].
  unfold raster_mh, entree.
  destruct (dict_get entete "ncols") as [ncols|] eqn:Dc; cbn [lie];
    [|discriminate].
  destruct (b64_int ncols) as [nb_colonnes|] eqn:Ec; cbn [lie]; [|discriminate].
  destruct (dict_get entete "nrows") as [nrows|] eqn:Dl; cbn [lie];
    [|discriminate].
  destruct (b64_int nrows) as [nb_lignes|] eqn:El; cbn [lie]; [|discriminate].
  destruct (dict_get entete "xllcorner") as [xll|] eqn:Dx; cbn [lie];
    [|discriminate].
  destruct (dict_get entete "yllcorner") as [yll|] eqn:Dy; cbn [lie];
    [|discriminate].
  destruct (dict_get entete "cellsize") as [pas|] eqn:Dp; cbn [lie];
    [|discriminate].
  destruct (_valeurs_ascii donnees) as [vals|] eqn:Ev; cbn [lie];
    [|discriminate].
  destruct (reshape vals nb_lignes nb_colonnes) as [brut|] eqn:Er; cbn [lie];
    [|discriminate].
  intros Hr. injection Hr as <- <- <-.
  exists entete, donnees, ncols, nrows, xll, yll, pas, nb_lignes, nb_colonnes,
    vals.
  repeat (split; [reflexivity || assumption|]).
  intros Hl Hc.
  destruct (reshape_forme vals nb_lignes nb_colonnes brut Er Hl Hc)
    as (E & Hn & Hr).
  split; [exact E|]. apply masque_forme, masque_forme. now split.
Qed.

Lemma lire_mh_ascii_forme_temoin :
  length exemple_raster_mh = 2%nat
  /\ forall ligne, In ligne exemple_raster_mh -> length ligne = 3%nat.
Proof.
  assert (E : lire_mh_ascii exemple_fichier_mh
              = Ok (exemple_raster_mh, exemple_gt_mh, 9999%float))
    by reflexivity.
  destruct (lire_mh_ascii_forme _ _ _ _ E)
    as (entete & donnees & ncols & nrows & xll & yll & pas & nbl & nbc & vals
        & Ep & Hc & Hic & Hl & Hil & _ & _ & _ & _ & _ & Hf).
  assert (Ep' : pour exemple_fichier_mh lire_ligne ([], [])
                = Ok ([("ncols", 3%float); ("nrows", 2%float);
                       ("xllcorner", 10%float); ("yllcorner", 20%float);
                       ("cellsize", 0.5%float);
                       ("nodata_value", (-1)%float)]%string,
                      ["1 2 9999"; "-1 5 6.5"]%string)) by reflexivity.
  rewrite Ep' in Ep. injection Ep as <- <-.
  injection Hc as <-. injection Hl as <-.
  vm_compute in Hic, Hil. injection Hic as <-. injection Hil as <-.
  destruct Hf as (_ & Hn & Hr); [lia|lia|]. split; [exact Hn|exact Hr].
Defined.

(** *** A header key that no line gives *)

(** Every key of the header is the first word of a line, in lower case. *)
Lemma lire_ligne_cles (fichier : list string)
    (etat0 etat : dict string float * list string) (cle : string) :
  pour fichier lire_ligne etat0 = Ok etat ->
  In cle (dict_keys (fst etat)) ->
  In cle (dict_keys (fst etat0))
  \/ exists lig k reste,
       In lig fichier /\ split (strip lig) = k :: reste /\ lower k = cle.
Proof.
  revert etat0. induction fichier as [|lig fichier IH]; intros etat0 Hp Hin.
  - injection Hp as <-. now left.
  - cbn [pour] in Hp.
    destruct (lire_ligne etat0 lig) as [etat1|] eqn:E1; cbn [lie] in Hp;
      [|discriminate].
    destruct (IH etat1 Hp Hin) as [H1|(l & k & r & Hl & Hs & Hk)].
    2:{ right. exists l, k, r. simpl. auto. }
    destruct etat0 as [entete donnees]. unfold lire_ligne in E1.
    destruct (String.eqb (strip lig) ""); [injection E1 as <-; now left|].
    destruct ((length entete <? 6)%nat && est_cle_entete (lower (strip lig))).
    + destruct (split (strip lig)) as [|k [|v r]] eqn:Es; try discriminate.
      destruct (py_float v) as [x|]; cbn [lie] in E1; [|discriminate].
      injection E1 as <-. cbn [fst] in H1.
      apply dict_keys_set in H1 as [->|H1]; [|now left].
      right. exists lig, k, (v :: r). simpl. auto.
    + injection E1 as <-. now left.
Qed.

(** X12. [lire_mh_ascii] never returns a raster from a file that lacks one of
    the five keys it reads with [entete[...]]: when no line has [ncols]
    ([nrows], [xllcorner], [yllcorner], [cellsize]) for first word, in any
    case of letters, the call raises; for [ncols], the first key looked up,
    the exception is [KeyError] as soon as the lines themselves are read
    without error. *)
Theorem lire_mh_ascii_cle_absente (fichier : list string) (cle : string) :
  In cle ["ncols"; "nrows"; "xllcorner"; "yllcorner"; "cellsize"] ->
  (forall lig k reste,
     In lig fichier -> split (strip lig) = k :: reste -> lower k <> cle) ->
  (exists e, lire_mh_ascii fichier = Leve e)
  /\ (cle = "ncols" ->
      forall etat, pour fichier lire_ligne ([], []) = Ok etat ->
      lire_mh_ascii fichier = Leve KeyError).
Proof.
  intros Hcle Habs.
  assert (Hget : forall entete donnees,
            pour fichier lire_ligne ([], []) = Ok (entete, donnees) ->
            dict_get entete cle = None).
  { intros entete donnees Hp. apply dict_get_absent. intros Hin.
    destruct (lire_ligne_cles fichier ([], []) (entete, donnees) cle Hp Hin)
      as [[]|(l & k & r & Hl & Hs & Hk)].
    now apply (Habs l k r). }
  unfold lire_mh_ascii. split.
  - destruct (pour fichier lire_ligne ([], [])) as [[entete donnees]|e] eqn:Ep;
      cbn [lie]; [|eauto].
    specialize (Hget entete donnees eq_refl).
    unfold raster_mh, entree.
    simpl in Hcle.
    repeat match goal with
           | |- exists e, lie (match dict_get entete ?k with _ => _ end) _ = _ =>
               destruct (dict_get entete k) eqn:?; cbn [lie]; [|eauto]
           | |- exists e, lie ?c _ = _ =>
               destruct c eqn:?; cbn [lie]; [|eauto]
           end.
    exfalso.
    repeat (destruct Hcle as [<-|Hcle]; [congruence|]). contradiction.
  - intros -> [entete donnees] Hp. rewrite Hp. cbn [lie].
    unfold raster_mh, entree. rewrite (Hget entete donnees Hp). reflexivity.
Qed.

Lemma lire_mh_ascii_cle_absente_temoin :
  lire_mh_ascii
    (map (fun l => l ++ nl)
       ["nrows 1"; "xllcorner 0"; "yllcorner 0"; "cellsize 1"; "1 2"])
    = Leve KeyError.
Proof.
  set (fichier := map (fun l => l ++ nl)
       ["nrows 1"; "xllcorner 0"; "yllcorner 0"; "cellsize 1"; "1 2"]).
  assert (Hp : exists etat, pour fichier lire_ligne ([], []) = Ok etat)
    by (eexists; reflexivity).
  destruct Hp as [etat Hp].
  refine (proj2 (lire_mh_ascii_cle_absente fichier "ncols" _ _) eq_refl etat Hp).
  - simpl. auto.
  - intros lig k reste Hin Hs.
    simpl in Hin.
    repeat (destruct Hin as [<-|Hin];
            [vm_compute in Hs; injection Hs as <- _; discriminate|]).
    contradiction.
Defined.

(** ** The SM scalar file: missing and surplus values *)

#[local] Open Scope string_scope.

Lemma somme_positive_ou_nulle (tailles : list Z) :
  (forall t, In t tailles -> 0 <= t) -> 0 <= somme tailles.
Proof.
  induction tailles as [|t l IH]; intros Hpos; simpl; [lia|].
  assert (0 <= t) by (apply Hpos; now left).
  assert (0 <= somme l) by (apply IH; intros x Hx; apply Hpos; now right).
  unfold somme in *. lia.
Qed.

Lemma getitem_hors {A : Type} (l : list A) (k : Z) :
  Z.of_nat (length l) <= k -> getitem l k = Leve IndexError.
Proof.
  intros Hk. unfold getitem, py_index.
  destruct (Z.ltb_spec k (Z.of_nat (length l))); [lia|].
  rewrite andb_false_r.
  destruct (Z.ltb_spec k 0); [lia|]. now rewrite andb_false_r.
Qed.

(** The value loop of a facet runs out of values. *)
Lemma ecrire_valeurs_court (val_tri : list float) (tours : list Z) (k : Z)
    (lignes : list string) :
  0 <= k <= Z.of_nat (length val_tri) ->
  Z.of_nat (length val_tri) < k + Z.of_nat (length tours) ->
  pour tours (ecrire_valeur val_tri) (k, lignes) = Leve IndexError.
Proof.
  revert k lignes. induction tours as [|t tours IH]; intros k lignes Hk Hlen.
  - simpl in Hlen. lia.
  - cbn [length] in Hlen. cbn [pour]. unfold ecrire_valeur at 1.
    destruct (nth_error val_tri (Z.to_nat k)) as [v|] eqn:Ev.
    + rewrite (getitem_pos _ _ _ (proj1 Hk) Ev). cbn [lie].
      assert (Z.to_nat k < length val_tri)%nat
        by (apply nth_error_Some; congruence).
      apply IH; lia.
    + apply nth_error_None in Ev. rewrite getitem_hors by lia. reflexivity.
Qed.

Lemma ecrire_facettes_court (val_tri : list float) (tailles : list Z)
    (i k : Z) (lignes : list string) :
  (forall t, In t tailles -> 0 <= t) ->
  0 <= k <= Z.of_nat (length val_tri) ->
  Z.of_nat (length val_tri) < k + somme tailles ->
  pour (enumerate_de i tailles) (ecrire_facette val_tri) (k, lignes)
    = Leve IndexError.
Proof.
  revert i k lignes.
  induction tailles as [|nb tailles IH]; intros i k lignes Hpos Hk Hlen.
  - simpl in Hlen. lia.
  - assert (Hnb : 0 <= nb) by (apply Hpos; now left).
    cbn [somme fold_right] in Hlen. fold (somme tailles) in Hlen.
    cbn [enumerate_de pour]. unfold ecrire_facette at 1.
    destruct (Z.le_gt_cases (k + nb) (Z.of_nat (length val_tri))) as [Hle|Hgt].
    + rewrite ecrire_valeurs_spec; rewrite ?py_range_length; try lia.
      cbn [lie]. apply IH; try lia.
      intros t Ht. apply Hpos. now right.
    + rewrite ecrire_valeurs_court; rewrite ?py_range_length; try lia.
      reflexivity.
Qed.

(** X13. [ecrire_val] needs one value per announced triangle: when the facet
    sizes (none negative) sum to more than the length of the value array,
    [val_tri[k]] goes past the end and [ecrire_val] raises [IndexError]. *)
Theorem ecrire_val_valeurs_manquantes (tailles_facettes : list Z)
    (val_tri : list float) :
  (forall t, In t tailles_facettes -> 0 <= t) ->
  Z.of_nat (length val_tri) < somme tailles_facettes ->
  ecrire_val tailles_facettes val_tri = Leve IndexError.
Proof.
  intros Hpos Hlen. unfold ecrire_val.
  rewrite ecrire_facettes_court; [reflexivity|assumption|lia|lia].
Qed.

Lemma ecrire_val_valeurs_manquantes_temoin :
  ecrire_val [2; 1] [0.5%float; 5%float] = Leve IndexError.
Proof.
  apply ecrire_val_valeurs_manquantes.
  - intros t [<-|[<-|[]]]; lia.
  - reflexivity.
Defined.

(** The lines of the facets read the values they announce and no other. *)
Lemma blocs_firstn (tailles : list Z) (i : Z) (vals : list float) :
  (forall t, In t tailles -> 0 <= t) ->
  blocs i tailles (firstn (Z.to_nat (somme tailles)) vals)
    = blocs i tailles vals.
Proof.
  revert i vals. induction tailles as [|nb tailles IH]; intros i vals Hpos.
  - reflexivity.
  - assert (Hnb : 0 <= nb) by (apply Hpos; now left).
    assert (Hs : 0 <= somme tailles)
      by (apply somme_positive_ou_nulle; intros t Ht; apply Hpos; now right).
    cbn [blocs somme fold_right]. fold (somme tailles).
    replace (Z.to_nat (nb + somme tailles))
      with (Z.to_nat nb + Z.to_nat (somme tailles))%nat by lia.
    rewrite firstn_firstn, Nat.min_l by lia.
    rewrite skipn_firstn_comm.
    replace (Z.to_nat nb + Z.to_nat (somme tailles) - Z.to_nat nb)%nat
      with (Z.to_nat (somme tailles)) by lia.
    rewrite IH by (intros t Ht; apply Hpos; now right).
    reflexivity.
Qed.

(** X14. Surplus values are dropped without a word: when the value array is
    longer than the sum of the facet sizes (none negative), [ecrire_val]
    writes the first values only, and [lire_val] reads back as many values
    as the facets announce, each as its two-decimal text reads. *)
Theorem ecrire_val_valeurs_en_trop (tailles_facettes : list Z)
    (val_tri : list float) :
  (forall t, In t tailles_facettes -> 0 <= t) ->
  somme tailles_facettes <= Z.of_nat (length val_tri) ->
  exists fichier,
    ecrire_val tailles_facettes val_tri = Ok fichier
    /\ lire_val fichier
       = Ok (map relu_2f
               (firstn (Z.to_nat (somme tailles_facettes)) val_tri)).
Proof.
  intros Hpos Hlen. unfold ecrire_val.
  set (entete := (str_Z (Z.of_nat (length tailles_facettes)) ++ _)%string).
  rewrite (ecrire_facettes_spec val_tri tailles_facettes 1 0 [entete] Hpos)
    by lia.
  cbn [lie snd skipn Z.to_nat app].
  eexists. split; [reflexivity|].
  unfold lire_val. cbn [map filter].
  assert (He : String.eqb (strip entete) "" = false).
  { destruct (str_Z_mot (Z.of_nat (length tailles_facettes))) as [Hne Ht].
    unfold entete.
    destruct (str_Z (Z.of_nat (length tailles_facettes))) as [|c s];
      [contradiction|].
    simpl in Ht. apply andb_true_iff in Ht as [Hc _].
    cbn [append]. unfold strip. rewrite (lstrip_mot _ _ Hc).
    apply String.eqb_neq. now apply rstrip_non_vide. }
  rewrite He. cbn [negb].
  rewrite (filtre_lignes _ (blocs_non_vides tailles_facettes 1 val_tri)).
  rewrite <- (blocs_firstn tailles_facettes 1 val_tri Hpos).
  apply (lire_blocs_spec tailles_facettes 1 _ [] Hpos).
  pose proof (somme_positive_ou_nulle _ Hpos).
  rewrite length_firstn, Nat.min_l by lia. lia.
Qed.

Lemma ecrire_val_valeurs_en_trop_temoin :
  exists fichier,
    ecrire_val [1; 1] [0.5%float; 0.123%float; 7%float] = Ok fichier
    /\ lire_val fichier = Ok [0.5%float; 0.12%float].
Proof.
  destruct (ecrire_val_valeurs_en_trop [1; 1]
              [0.5%float; 0.123%float; 7%float]) as (fichier & He & Hl).
  - intros t [<-|[<-|[]]]; lia.
  - simpl. lia.
  - exists fichier. split; [exact He|exact Hl].
Defined.

(** *** A facet that announces more values than follow *)

Lemma strip_ligne_facette (i nb_tri : Z) :
  strip (ligne_facette i nb_tri) = String "f" (str_Z i) ++ " " ++ str_Z nb_tri.
Proof.
  destruct (str_Z_mot i) as [Hi Hti], (str_Z_mot nb_tri) as [Hn Htn].
  unfold strip, ligne_facette. cbn [append]. rewrite lstrip_mot by reflexivity.
  replace (String "f" (str_Z i ++ String " " (str_Z nb_tri ++ nl)))
    with ((String "f" (str_Z i ++ " ") ++ str_Z nb_tri) ++ nl).
  - rewrite rstrip_app_blancs by reflexivity.
    rewrite rstrip_mot by assumption.
    cbn [append]. now rewrite append_assoc.
  - cbn [append]. now rewrite !append_assoc.
Qed.

Lemma map_chaine_app (f : ascii -> ascii) (s1 s2 : string) :
  map_chaine f (s1 ++ s2) = map_chaine f s1 ++ map_chaine f s2.
Proof. induction s1 as [|c s1 IH]; simpl; congruence. Qed.

(** The first word of a facet line is not a number. *)
Lemma py_float_facette (ds : string) :
  tous est_chiffre ds = true -> py_float (String "f" ds) = Leve ValueError.
Proof.
  intros Hd. unfold py_float. cbn [signe].
  assert (Hl : lower (String "f" ds) = String "f" ds).
  { unfold lower. cbn [map_chaine]. f_equal.
    apply lower_decimal. now apply chiffres_car_decimal. }
  rewrite Hl.
  replace (String.eqb (String "f" ds) "inf") with false by reflexivity.
  replace (String.eqb (String "f" ds) "infinity") with false by reflexivity.
  replace (String.eqb (String "f" ds) "nan") with false by reflexivity.
  cbn [orb].
  assert (He : coupe_a "e" (String "f" ds) = (String "f" ds, None)).
  { apply coupe_a_absent. cbn [tous]. 
    change (negb (Ascii.eqb "f" "e")) with true. cbn [andb].
    revert Hd. apply tous_impl.
    now apply (chiffre_prop (fun c => negb (Ascii.eqb c "e"))). }
  rewrite He. cbn [exposant lie].
  assert (Hp : coupe_a "." (String "f" ds) = (String "f" ds, None)).
  { apply coupe_a_absent. cbn [tous].
    change (negb (Ascii.eqb "f" ".")) with true. cbn [andb].
    revert Hd. apply tous_impl.
    now apply (chiffre_prop (fun c => negb (Ascii.eqb c "."))). }
  rewrite Hp. rewrite append_vide_d. reflexivity.
Qed.

Lemma str_Z_positif_chiffres (z : Z) :
  0 <= z -> tous est_chiffre (str_Z z) = true.
Proof.
  intros Hz.
  assert (Hs : str_Z z = str_N (Z.to_N z)) by (destruct z; [reflexivity..|lia]).
  rewrite Hs. apply str_N_spec.
Qed.

(** A facet line met where a value is due. *)
Lemma lire_facette_pour_valeur (j nb_tri : Z) (reste : list string)
    (n : nat) (acc : list float) :
  0 <= j ->
  lire_lignes (strip (ligne_facette j nb_tri) :: reste) (S n) acc
    = Leve ValueError.
Proof.
  intros Hj. rewrite strip_ligne_facette.
  destruct (str_Z_mot j) as [Hi Hti], (str_Z_mot nb_tri) as [Hn Htn].
  assert (Hr : replace_tab (String "f" (str_Z j) ++ " " ++ str_Z nb_tri)
               = String "f" (str_Z j) ++ " " ++ str_Z nb_tri).
  { assert (Ha : replace_tab (String "f" (str_Z j)) = String "f" (str_Z j))
      by (apply replace_tab_mot; cbn [tous]; now rewrite Hti).
    assert (Hb : replace_tab (str_Z nb_tri) = str_Z nb_tri)
      by now apply replace_tab_mot.
    unfold replace_tab in *. rewrite !map_chaine_app, Ha, Hb. reflexivity. }
  assert (Hsp : split (String "f" (str_Z j) ++ " " ++ str_Z nb_tri)
                = [String "f" (str_Z j); str_Z nb_tri]).
  { apply split_deux_mots; try assumption; discriminate. }
  cbn [lire_lignes]. rewrite Hr, Hsp.
  change (getitem [String "f" (str_Z j); str_Z nb_tri] 0)
    with (Ok (A := string) (String "f" (str_Z j))).
  cbn [lie]. rewrite py_float_facette by now apply str_Z_positif_chiffres.
  reflexivity.
Qed.

Lemma lire_valeurs_dues (vs : list float) (reste : list string) (n : nat)
    (acc : list float) :
  lire_lignes (map strip (map ligne_valeur vs) ++ reste) (length vs + n) acc
    = lire_lignes reste n (acc ++ map relu_2f vs).
Proof.
  revert acc. induction vs as [|v vs IH]; intros acc.
  - simpl. now rewrite app_nil_r.
  - destruct (ligne_valeur_lue v) as (mot & Hs & Hne & Hsp & Hf).
    cbn [map app length lire_lignes Nat.add]. rewrite Hs, Hsp.
    change (getitem [mot] 0) with (Ok (A := string) mot). cbn [lie].
    rewrite Hf. cbn [lie]. rewrite IH, <- app_assoc. reflexivity.
Qed.

Lemma lire_blocs_suite (tailles : list Z) (i : Z) (vals acc : list float)
    (reste : list string) :
  (forall t, In t tailles -> 0 <= t) ->
  somme tailles = Z.of_nat (length vals) ->
  lire_lignes (map strip (blocs i tailles vals) ++ reste) O acc
    = lire_lignes reste O (acc ++ map relu_2f vals).
Proof.
  revert i vals acc.
  induction tailles as [|nb tailles IH]; intros i vals acc Hpos Hsum.
  - simpl in *. destruct vals; [|discriminate]. simpl. now rewrite app_nil_r.
  - assert (Hnb : 0 <= nb) by (apply Hpos; now left).
    assert (Hs : 0 <= somme tailles)
      by (apply somme_positive_ou_nulle; intros t Ht; apply Hpos; now right).
    cbn [somme fold_right] in Hsum. fold (somme tailles) in Hsum.
    destruct (ligne_facette_lue i nb) as (s & Hst & Hne & Hf & Hg).
    cbn [blocs map app lire_lignes]. rewrite Hst, Hf, Hg. cbn [lie].
    rewrite (py_int_str_Z nb Hnb). cbn [lie].
    rewrite map_app, <- app_assoc.
    pose proof (lire_valeurs_dues (firstn (Z.to_nat nb) vals)
                  (map strip (blocs (i + 1) tailles (skipn (Z.to_nat nb) vals))
                   ++ reste) 0 acc) as Hv.
    rewrite length_firstn, Nat.min_l, Nat.add_0_r in Hv by lia.
    rewrite Hv. clear Hv.
    rewrite IH.
    + rewrite <- app_assoc, <- map_app, firstn_skipn. reflexivity.
    + intros t Ht. apply Hpos. now right.
    + rewrite length_skipn. lia.
Qed.

Lemma filtre_lignes_app (lignes suite : list string) :
  Forall (fun l => strip l <> "") lignes ->
  filter (fun l => negb (String.eqb l "")) (map strip (lignes ++ suite))
    = (map strip lignes
       ++ filter (fun l => negb (String.eqb l "")) (map strip suite))%list.
Proof.
  intros Hl. rewrite map_app, filter_app. f_equal. now apply filtre_lignes.
Qed.

Lemma ligne_facette_non_vide (i nb_tri : Z) : strip (ligne_facette i nb_tri) <> "".
Proof. rewrite strip_ligne_facette. discriminate. Qed.

Lemma ligne_valeur_non_vide (v : float) : strip (ligne_valeur v) <> "".
Proof. destruct (ligne_valeur_lue v) as (mot & -> & Hne & _). exact Hne. Qed.

(** X15. [lire_val] trusts the count of a facet line.  After a header line
    and complete facets, a facet that announces [nb] values and is followed
    by fewer value lines makes [lire_val] raise: [IndexError] when the file
    ends there, [ValueError] when a facet line comes next, since that line
    is read as a value. *)
Theorem lire_val_facette_incomplete (entete : string) (tailles : list Z)
    (vals vs : list float) (i nb : Z) :
  strip entete <> "" ->
  (forall t, In t tailles -> 0 <= t) ->
  somme tailles = Z.of_nat (length vals) ->
  Z.of_nat (length vs) < nb ->
  lire_val (entete :: blocs 1 tailles vals
            ++ ligne_facette i nb :: map ligne_valeur vs)
    = Leve IndexError
  /\ forall j nb' suite,
       0 <= j ->
       lire_val (entete :: blocs 1 tailles vals
                 ++ ligne_facette i nb :: map ligne_valeur vs
                 ++ ligne_facette j nb' :: suite)
         = Leve ValueError.
Proof.
  intros He Hpos Hsum Hnb.
  assert (Hfiltre : forall suite,
    lire_val (entete :: blocs 1 tailles vals
              ++ ligne_facette i nb :: map ligne_valeur vs ++ suite)
    = lire_lignes
        (map strip (map ligne_valeur vs)
         ++ filter (fun l => negb (String.eqb l "")) (map strip suite))
        (length vs + S (Z.to_nat nb - length vs - 1))
        (map relu_2f vals)).
  { intros suite. unfold lire_val. cbn [map filter].
    destruct (String.eqb_spec (strip entete) ""); [contradiction|].
    cbn [negb].
    rewrite (filtre_lignes_app _ _ (blocs_non_vides tailles 1 vals)).
    rewrite (lire_blocs_suite tailles 1 vals [] _ Hpos Hsum).
    cbn [map filter app].
    destruct (String.eqb_spec (strip (ligne_facette i nb)) "") as [E|_];
      [now apply ligne_facette_non_vide in E|].
    cbn [negb].
    destruct (ligne_facette_lue i nb) as (s & Hst & Hne & Hf & Hg).
    cbn [lire_lignes]. rewrite Hst, Hf, Hg. cbn [lie].
    rewrite (py_int_str_Z nb) by lia. cbn [lie].
    rewrite filtre_lignes_app.
    2:{ apply Forall_forall. intros l Hl.
        apply in_map_iff in Hl as (v & <- & _). apply ligne_valeur_non_vide. }
    f_equal. lia. }
  split.
  - pose proof (Hfiltre []) as H0. rewrite app_nil_r in H0. rewrite H0.
    cbn [map filter]. rewrite lire_valeurs_dues. reflexivity.
  - intros j nb' suite Hj. rewrite Hfiltre. cbn [map filter].
    destruct (String.eqb_spec (strip (ligne_facette j nb')) "") as [E|_];
      [now apply ligne_facette_non_vide in E|].
    cbn [negb]. rewrite lire_valeurs_dues.
    now apply lire_facette_pour_valeur.
Qed.

Lemma lire_val_facette_incomplete_temoin :
  lire_val (("1 1 0.25 1.00" ++ nl)%string
            :: blocs 1 [1] [0.5%float]
            ++ ligne_facette 2 3 :: map ligne_valeur [1%float; 0.25%float])
    = Leve IndexError
  /\ lire_val (("1 1 0.25 1.00" ++ nl)%string
               :: blocs 1 [1] [0.5%float]
               ++ ligne_facette 2 3 :: map ligne_valeur [1%float; 0.25%float]
               ++ ligne_facette 3 1 :: map ligne_valeur [0.75%float])
     = Leve ValueError.
Proof.
  destruct (lire_val_facette_incomplete ("1 1 0.25 1.00" ++ nl)%string [1]
              [0.5%float] [1%float; 0.25%float] 2 3) as [H1 H2].
  - discriminate.
  - intros t [<-|[]]; lia.
  - reflexivity.
  - simpl. lia.
  - split; [exact H1|]. apply H2. lia.
Defined.

(** ** The triangle file: the mesh that is read *)

#[local] Close Scope string_scope.

(** The points and the triangles go together: three new points for each
    triangle, in this order. *)
Lemma triangles_dupliques_suivant (n : nat) :
  triangles_dupliques (S n)
  = (triangles_dupliques n
     ++ [(3 * Z.of_nat n, 3 * Z.of_nat n + 1, 3 * Z.of_nat n + 2)%Z])%list.
Proof. unfold triangles_dupliques. now rewrite seq_S, map_app. Qed.

Lemma fin_bloc_maillage (e : etat_cir) (coords : list (float * float * float)) :
  tri e = triangles_dupliques (length (tri e))
  /\ length (pts e) = (3 * length (tri e))%nat ->
  tri (fin_bloc e coords) = triangles_dupliques (length (tri (fin_bloc e coords)))
  /\ length (pts (fin_bloc e coords)) = (3 * length (tri (fin_bloc e coords)))%nat.
Proof.
  intros [Ht Hp]. unfold fin_bloc.
  destruct coords as [|c0 [|c1 [|c2 coords]]];
    try (destruct (nb_attendu e) as [n|]; [destruct (n <=? nb_lu e)|];
         cbn [tri pts]; now split).
  set (t := (Z.of_nat (length (pts e)), Z.of_nat (length (pts e)) + 1,
             Z.of_nat (length (pts e)) + 2)%Z).
  assert (Hm : (tri e ++ [t])%list
               = triangles_dupliques (length (tri e ++ [t])%list)
               /\ length (pts e ++ [c0; c1; c2])%list
                  = (3 * length (tri e ++ [t])%list)%nat).
  { rewrite !length_app. cbn [length]. split; [|lia].
    replace (length (tri e) + 1)%nat with (S (length (tri e))) by lia.
    rewrite triangles_dupliques_suivant, <- Ht. f_equal. f_equal.
    unfold t. rewrite Hp. f_equal; [f_equal|]; lia. }
  cbn [nb_attendu nb_lu].
  destruct (nb_attendu e) as [n|]; [destruct (n <=? nb_lu e + 1)|];
    cbn [tri pts]; exact Hm.
Qed.

Lemma ligne_courante_maillage (lig : string) (e : etat_cir) :
  tri (snd (ligne_courante lig e)) = tri e
  /\ pts (snd (ligne_courante lig e)) = pts e.
Proof.
  unfold ligne_courante. destruct (String.eqb (strip lig) ""%string); [now split|].
  destruct (facette_cir (strip lig)); [now split|].
  destruct (dans_facette e && startswith (strip lig) "c"%string); now split.
Qed.

Lemma boucle_cir_maillage (lignes : list string) (m : mode_cir)
    (e e' : etat_cir) :
  boucle_cir lignes m e = Ok e' ->
  tri e = triangles_dupliques (length (tri e))
  /\ length (pts e) = (3 * length (tri e))%nat ->
  tri e' = triangles_dupliques (length (tri e'))
  /\ length (pts e') = (3 * length (tri e'))%nat.
Proof.
  revert m e. induction lignes as [|lig reste IH]; intros m e Hb Hinv.
  - destruct m; cbn [boucle_cir] in Hb; injection Hb as <-;
      try exact Hinv. now apply fin_bloc_maillage.
  - assert (Hcourant :
      (let '(m', e1) := ligne_courante lig e in boucle_cir reste m' e1) = Ok e' ->
      tri e' = triangles_dupliques (length (tri e'))
      /\ length (pts e') = (3 * length (tri e'))%nat).
    { pose proof (ligne_courante_maillage lig e) as [Q1 Q2].
      destruct (ligne_courante lig e) as [m1 e1]. cbn [snd] in Q1, Q2.
      intros Hb1. apply (IH m1 e1 Hb1). now rewrite Q1, Q2. }
    cbn [boucle_cir] in Hb. destruct m as [| | |k coords].
    + now apply Hcourant.
    + destruct (triplet_re (strip lig)); [now apply (IH Courant e)|].
      now apply Hcourant.
    + destruct (py_int (strip lig)) as [nb_pts|]; [|now apply Hcourant].
      destruct (nb_pts <=? 0).
      * apply (IH _ _ Hb). now apply fin_bloc_maillage.
      * now apply (IH _ _ Hb).
    + destruct (ligne_points lig coords) as [coords'|]; cbn [lie] in Hb;
        [|discriminate].
      destruct (k <=? 1).
      * apply (IH _ _ Hb). now apply fin_bloc_maillage.
      * now apply (IH _ _ Hb).
Qed.

(** The sizes come from the digits of the facet lines. *)
Lemma facette_cir_positive (s : string) (n : Z) :
  facette_cir s = Some n -> 0 <= n.
Proof.
  unfold facette_cir. destruct s as [|c r]; [discriminate|].
  destruct (Ascii.eqb_spec c "f"%char) as [->|Hc].
  - destruct (prefixe est_chiffre r) as [d1 r1].
    destruct (prefixe est_blanc r1) as [b r2].
    destruct (prefixe est_chiffre r2) as [d2 r3].
    destruct d1; [discriminate|]. destruct b; [discriminate|].
    destruct d2 as [|c2 d2]; [discriminate|].
    destruct (lit_chiffres (String c2 d2) 0) as [k|]; [|discriminate].
    intros [= <-]. lia.
  - destruct c as [[] [] [] [] [] [] [] []]; try discriminate.
    now contradiction Hc.
Qed.

Lemma ligne_courante_tailles (lig : string) (e : etat_cir) :
  Forall (Z.le 0) (tailles_facettes e) ->
  Forall (Z.le 0) (tailles_facettes (snd (ligne_courante lig e))).
Proof.
  intros Hf. unfold ligne_courante.
  destruct (String.eqb (strip lig) ""%string); [exact Hf|].
  destruct (facette_cir (strip lig)) as [n|] eqn:En.
  - cbn [snd tailles_facettes]. apply Forall_app. split; [exact Hf|].
    constructor; [|constructor]. exact (facette_cir_positive _ _ En).
  - destruct (dans_facette e && startswith (strip lig) "c"%string); exact Hf.
Qed.

Lemma fin_bloc_tailles (e : etat_cir) (coords : list (float * float * float)) :
  tailles_facettes (fin_bloc e coords) = tailles_facettes e.
Proof.
  unfold fin_bloc.
  destruct coords as [|c0 [|c1 [|c2 coords]]]; cbn [nb_attendu nb_lu];
    (destruct (nb_attendu e) as [n|]; [destruct (n <=? _)|]); reflexivity.
Qed.

Lemma boucle_cir_tailles (lignes : list string) (m : mode_cir)
    (e e' : etat_cir) :
  boucle_cir lignes m e = Ok e' ->
  Forall (Z.le 0) (tailles_facettes e) ->
  Forall (Z.le 0) (tailles_facettes e').
Proof.
  revert m e. induction lignes as [|lig reste IH]; intros m e Hb Hinv.
  - destruct m; cbn [boucle_cir] in Hb; injection Hb as <-;
      try exact Hinv. now rewrite fin_bloc_tailles.
  - assert (Hcourant :
      (let '(m', e1) := ligne_courante lig e in boucle_cir reste m' e1) = Ok e' ->
      Forall (Z.le 0) (tailles_facettes e')).
    { pose proof (ligne_courante_tailles lig e Hinv) as Q1.
      destruct (ligne_courante lig e) as [m1 e1]. cbn [snd] in Q1.
      intros Hb1. exact (IH m1 e1 Hb1 Q1). }
    cbn [boucle_cir] in Hb. destruct m as [| | |k coords].
    + now apply Hcourant.
    + destruct (triplet_re (strip lig)); [now apply (IH Courant e)|].
      now apply Hcourant.
    + destruct (py_int (strip lig)) as [nb_pts|]; [|now apply Hcourant].
      destruct (nb_pts <=? 0).
      * apply (IH _ _ Hb). now rewrite fin_bloc_tailles.
      * now apply (IH _ _ Hb).
    + destruct (ligne_points lig coords) as [coords'|]; cbn [lie] in Hb;
        [|discriminate].
      destruct (k <=? 1).
      * apply (IH _ _ Hb). now rewrite fin_bloc_tailles.
      * now apply (IH _ _ Hb).
Qed.

Lemma sommets_dupliques {F : Type} (points : list (F * F * F)) (k : nat) :
  (3 * k + 2 < length points)%nat ->
  exists poly,
    sommets points
      (3 * Z.of_nat k, 3 * Z.of_nat k + 1, 3 * Z.of_nat k + 2) = Ok poly.
Proof.
  intros Hk. unfold sommets.
  destruct (getitem_dans points (3 * Z.of_nat k)) as [p0 ->]; [lia|].
  destruct (getitem_dans points (3 * Z.of_nat k + 1)) as [p1 ->]; [lia|].
  destruct (getitem_dans points (3 * Z.of_nat k + 2)) as [p2 ->]; [lia|].
  cbn [lie]. eauto.
Qed.

(** X16. The mesh [lire_scene_triangle_cir] returns is well formed, whatever
    the file: there are three points for each triangle, triangle [k] has the
    vertices [3k], [3k + 1] and [3k + 2], so that every vertex index
    addresses a point and no point is shared, and the facet sizes are
    integers of [0 .. 2^63 - 1]. *)
Theorem lire_scene_triangle_cir_maillage (fichier : list string)
    (tailles : list Z) (points : list (float * float * float))
    (triangles : list (Z * Z * Z)) :
  lire_scene_triangle_cir fichier = Ok (tailles, points, triangles) ->
  length points = (3 * length triangles)%nat
  /\ triangles = triangles_dupliques (length triangles)
  /\ (forall t, In t triangles -> exists poly, sommets points t = Ok poly)
  /\ (forall n, In n tailles -> 0 <= n < 2 ^ 63).
Proof.
  unfold lire_scene_triangle_cir.
  destruct (boucle_cir fichier Courant _) as [e|] eqn:Eb; cbn [lie];
    [|discriminate].
  destruct (forallb dans_int64 (tailles_facettes e)) eqn:Ef; [|discriminate].
  intros [= <- <- <-].
  pose proof (boucle_cir_tailles _ _ _ _ Eb (Forall_nil _)) as Hpos.
  apply boucle_cir_maillage in Eb as [Ht Hp]; [|now split].
  split; [exact Hp|]. split; [exact Ht|]. split.
  - intros t Hin. rewrite Ht in Hin. unfold triangles_dupliques in Hin.
    apply in_map_iff in Hin as (k & <- & Hk). apply in_seq in Hk.
    apply sommets_dupliques. lia.
  - intros n Hn. rewrite Forall_forall in Hpos.
    rewrite forallb_forall in Ef. specialize (Ef n Hn). specialize (Hpos n Hn).
    unfold dans_int64 in Ef. lia.
Qed.

#[local] Open Scope string_scope.

Lemma lire_scene_triangle_cir_maillage_temoin :
  lire_scene_triangle_cir
    ["f1 2"; "0 0 1"; "c1"; "4"; "0 0 0"; "1.5 0 0"; "0 1 0"; "0 0 0";
     "c2"; "3"; "1 1 0"; "2 1 0"; "1 2 0"]
  = Ok ([2%Z],
        [(0, 0, 0); (1.5, 0, 0); (0, 1, 0); (1, 1, 0); (2, 1, 0); (1, 2, 0)]%float,
        [(0, 1, 2); (3, 4, 5)]%Z)
  /\ (length [(0, 0, 0); (1.5, 0, 0); (0, 1, 0); (1, 1, 0); (2, 1, 0);
              (1, 2, 0)]%float
      = 3 * length [(0, 1, 2); (3, 4, 5)]%Z)%nat.
Proof.
  assert (Hr : lire_scene_triangle_cir
    ["f1 2"; "0 0 1"; "c1"; "4"; "0 0 0"; "1.5 0 0"; "0 1 0"; "0 0 0";
     "c2"; "3"; "1 1 0"; "2 1 0"; "1 2 0"]
  = Ok ([2%Z],
        [(0, 0, 0); (1.5, 0, 0); (0, 1, 0); (1, 1, 0); (2, 1, 0); (1, 2, 0)]%float,
        [(0, 1, 2); (3, 4, 5)]%Z)) by (vm_compute; reflexivity).
  split; [exact Hr|].
  exact (proj1 (lire_scene_triangle_cir_maillage _ _ _ _ Hr)).
Defined.

(** ** The triangle file: triangles and announced sizes *)

#[local] Close Scope string_scope.

Lemma somme_app (l1 l2 : list Z) : somme (l1 ++ l2) = somme l1 + somme l2.
Proof.
  unfold somme. induction l1 as [|a l1 IH]; cbn [app fold_right]; lia.
Qed.

Lemma fin_bloc_borne (e : etat_cir) (coords : list (float * float * float)) :
  dans_facette e = true -> borne_cir e -> borne_cir (fin_bloc e coords).
Proof.
  unfold borne_cir. intros Hd. rewrite Hd.
  destruct (nb_attendu e) as [n|] eqn:En; [|contradiction].
  intros [Hlu Hs]. unfold fin_bloc.
  destruct coords as [|c0 [|c1 [|c2 coords]]]; cbn [nb_attendu nb_lu];
    rewrite En;
    try (destruct (Z.leb_spec n (nb_lu e));
         [cbn [dans_facette tri tailles_facettes]; lia
         |rewrite Hd, En; split; [lia|exact Hs]]).
  destruct (Z.leb_spec n (nb_lu e + 1));
    cbn [dans_facette tri tailles_facettes nb_attendu nb_lu];
    rewrite length_app; cbn [length]; [lia|].
  rewrite Hd. split; lia.
Qed.

Lemma ligne_courante_borne (lig : string) (e : etat_cir) :
  borne_cir e ->
  borne_cir (snd (ligne_courante lig e))
  /\ mode_facette (fst (ligne_courante lig e)) (snd (ligne_courante lig e)).
Proof.
  intros Hb. unfold ligne_courante.
  destruct (String.eqb (strip lig) ""%string); [now split|].
  destruct (facette_cir (strip lig)) as [n|] eqn:En.
  - cbn [fst snd]. split; [|exact I]. unfold borne_cir in *.
    cbn [dans_facette nb_attendu nb_lu tri tailles_facettes].
    rewrite map_app, somme_app. cbn [map]. unfold somme at 2.
    cbn [fold_right].
    destruct (dans_facette e); [destruct (nb_attendu e)|]; lia.
  - destruct (dans_facette e) eqn:Ed; cbn [andb]; [|now split].
    destruct (startswith (strip lig) "c"%string); now split.
Qed.

Lemma boucle_cir_borne (lignes : list string) (m : mode_cir)
    (e e' : etat_cir) :
  boucle_cir lignes m e = Ok e' ->
  borne_cir e -> mode_facette m e -> borne_cir e'.
Proof.
  revert m e. induction lignes as [|lig reste IH]; intros m e Hb Hinv Hm.
  - destruct m; cbn [boucle_cir] in Hb; injection Hb as <-;
      try exact Hinv. now apply fin_bloc_borne.
  - assert (Hcourant :
      (let '(m', e1) := ligne_courante lig e in boucle_cir reste m' e1) = Ok e' ->
      borne_cir e').
    { pose proof (ligne_courante_borne lig e Hinv) as [Q1 Q2].
      destruct (ligne_courante lig e) as [m1 e1]. cbn [fst snd] in Q1, Q2.
      intros Hb1. exact (IH m1 e1 Hb1 Q1 Q2). }
    cbn [boucle_cir] in Hb. destruct m as [| | |k coords].
    + now apply Hcourant.
    + destruct (triplet_re (strip lig)); [now apply (IH Courant e)|].
      now apply Hcourant.
    + destruct (py_int (strip lig)) as [nb_pts|]; [|now apply Hcourant].
      destruct (nb_pts <=? 0).
      * apply (IH _ _ Hb); [|exact I]. now apply fin_bloc_borne.
      * now apply (IH _ _ Hb).
    + destruct (ligne_points lig coords) as [coords'|]; cbn [lie] in Hb;
        [|discriminate].
      destruct (k <=? 1).
      * apply (IH _ _ Hb); [|exact I]. now apply fin_bloc_borne.
      * now apply (IH _ _ Hb).
Qed.

Lemma somme_max_un (tailles : list Z) :
  (forall n, In n tailles -> 1 <= n) -> map (Z.max 1) tailles = tailles.
Proof.
  induction tailles as [|a l IH]; intros Hn; cbn [map]; [reflexivity|].
  rewrite IH by (intros n Hin; apply Hn; now right).
  f_equal. specialize (Hn a (or_introl eq_refl)). lia.
Qed.

(** X17. [lire_scene_triangle_cir] never reads more triangles in a facet than
    its line announces, except that a facet announcing 0 triangles still
    takes one block: the number of triangles returned is at most the sum of
    [max(1, n)] over the sizes [n] returned, hence at most the sum of the
    sizes when every facet announces at least one triangle. *)
Theorem lire_scene_triangle_cir_triangles_bornes (fichier : list string)
    (tailles : list Z) (points : list (float * float * float))
    (triangles : list (Z * Z * Z)) :
  lire_scene_triangle_cir fichier = Ok (tailles, points, triangles) ->
  Z.of_nat (length triangles) <= somme (map (Z.max 1) tailles)
  /\ ((forall n, In n tailles -> 1 <= n) ->
      Z.of_nat (length triangles) <= somme tailles).
Proof.
  unfold lire_scene_triangle_cir.
  destruct (boucle_cir fichier Courant _) as [e|] eqn:Eb; cbn [lie];
    [|discriminate].
  destruct (forallb dans_int64 (tailles_facettes e)); [|discriminate].
  intros [= <- <- <-].
  apply boucle_cir_borne in Eb; [|cbn; lia|exact I].
  assert (Hb : Z.of_nat (length (tri e))
               <= somme (map (Z.max 1) (tailles_facettes e))).
  { unfold borne_cir in Eb.
    destruct (dans_facette e); [destruct (nb_attendu e)|]; lia. }
  split; [exact Hb|]. intros Hn. now rewrite somme_max_un in Hb.
Qed.

#[local] Open Scope string_scope.

Lemma lire_scene_triangle_cir_triangles_bornes_temoin :
  lire_scene_triangle_cir
    ["f1 0"; "c1"; "3"; "0 0 0"; "1 0 0"; "0 1 0";
     "c2"; "3"; "5 5 0"; "6 5 0"; "5 6 0"]
  = Ok ([0%Z], [(0, 0, 0); (1, 0, 0); (0, 1, 0)]%float, [(0, 1, 2)]%Z)
  /\ (Z.of_nat (length [(0, 1, 2)]%Z) <= somme (map (Z.max 1) [0]))%Z.
Proof.
  assert (Hr : lire_scene_triangle_cir
    ["f1 0"; "c1"; "3"; "0 0 0"; "1 0 0"; "0 1 0";
     "c2"; "3"; "5 5 0"; "6 5 0"; "5 6 0"]
  = Ok ([0%Z], [(0, 0, 0); (1, 0, 0); (0, 1, 0)]%float, [(0, 1, 2)]%Z))
    by (vm_compute; reflexivity).
  split; [exact Hr|].
  exact (proj1 (lire_scene_triangle_cir_triangles_bornes _ _ _ _ Hr)).
Defined.

(** ** The triangle file: blocks outside facets *)

#[local] Close Scope string_scope.

Lemma boucle_cir_sans_facette (lignes : list string) (e : etat_cir) :
  dans_facette e = false ->
  (forall lig, In lig lignes -> facette_cir (strip lig) = None) ->
  boucle_cir lignes Courant e = Ok e.
Proof.
  intros Hd. induction lignes as [|lig reste IH]; intros Hf; [reflexivity|].
  cbn [boucle_cir]. unfold ligne_courante.
  rewrite (Hf lig (or_introl eq_refl)), Hd. cbn [andb].
  destruct (String.eqb (strip lig) ""%string);
    apply IH; intros l Hl; apply Hf; now right.
Qed.

(** X18. [lire_scene_triangle_cir] reads blocks [c] inside facets only: from a
    file in which no line starts, once stripped, with [f], digits, blanks
    and a digit, it returns no facet, no point and no triangle, whatever
    blocks and coordinates the file holds. *)
Theorem lire_scene_triangle_cir_sans_facette (fichier : list string) :
  (forall lig, In lig fichier -> facette_cir (strip lig) = None) ->
  lire_scene_triangle_cir fichier = Ok ([], [], []).
Proof.
  intros Hf. unfold lire_scene_triangle_cir.
  rewrite boucle_cir_sans_facette; [reflexivity|reflexivity|exact Hf].
Qed.

#[local] Open Scope string_scope.

Lemma lire_scene_triangle_cir_sans_facette_temoin :
  lire_scene_triangle_cir
    ["c1"; "3"; "0 0 0"; "1 0 0"; "0 1 0"; "f 1"; "facette 2"]
  = Ok ([], [], []).
Proof.
  apply lire_scene_triangle_cir_sans_facette.
  intros lig Hin. cbn [In] in Hin.
  repeat (destruct Hin as [<-|Hin]; [reflexivity|]). contradiction.
Defined.

#[local] Close Scope string_scope.
